(** * update_parts.py: a shallow embedding and its verification

    The program scans KiCad schematic files for component records,
    normalises their values and merges them into a master parts list.
    This development embeds the pure core of [update_parts.py]
    (string handling, the regular expressions it uses, value
    normalisation, the balanced-block scanner, the de-duplication loops,
    the merge engine and the sort key) and proves properties of it.

    Layout: Part I holds the model, each definition of the program a
    transcription of the Python function of the same name, and the
    vocabulary of the statements; Part II holds the lemmas and theorems. *)

From Stdlib Require Import Strings.String Strings.Ascii.
From Stdlib Require Import NArith ZArith List Bool Lia Arith.
From Stdlib Require Import Sorting.Permutation Sorting.Sorted.
From Stdlib Require Import Floats.SpecFloat.
Import ListNotations.

Set Implicit Arguments.

(* ================================================================== *)
(** * Part I: the model *)
(* ================================================================== *)

(** ** Python strings

    A Python [str] is a sequence of Unicode code points.  Characters are
    code points in [N]; [lit] turns an ASCII literal into a [str]. *)

Definition char := N.
Definition str := list char.

Definition lit (s : string) : str :=
  List.map N_of_ascii (list_ascii_of_string s).

(** The two non-ASCII characters of the source file. *)
Definition MICRO : char := 181%N.   (* U+00B5, MICRO SIGN *)
Definition OMEGA : char := 937%N.   (* U+03A9, GREEK CAPITAL LETTER OMEGA *)

Fixpoint str_eqb (a b : str) : bool :=
  match a, b with
  | [], [] => true
  | x :: a', y :: b' => N.eqb x y && str_eqb a' b'
  | _, _ => false
  end.

(** [a < b] on strings: lexicographic on code points, a proper prefix
    being smaller. *)
Fixpoint str_ltb (a b : str) : bool :=
  match a, b with
  | _, [] => false
  | [], _ :: _ => true
  | x :: a', y :: b' =>
      if N.ltb x y then true
      else if N.eqb x y then str_ltb a' b' else false
  end.

(** Truthiness of a string: [if s:] holds for a non-empty string. *)
Definition truthy (s : str) : bool :=
  match s with [] => false | _ :: _ => true end.

Definition mem_char (c : char) (l : list char) : bool :=
  existsb (N.eqb c) l.

Definition mem_str (s : str) (l : list str) : bool :=
  existsb (str_eqb s) l.

(** [str.isspace] on one character, which is also the class [\s] of [re]
    on [str] patterns: the ASCII separators 9-13, 28-31 and 32, and the
    Unicode white space characters. *)
Definition is_space (c : char) : bool :=
  mem_char c
    [9; 10; 11; 12; 13; 28; 29; 30; 31; 32; 133; 160; 5760;
     8192; 8193; 8194; 8195; 8196; 8197; 8198; 8199; 8200; 8201; 8202;
     8232; 8233; 8239; 8287; 12288]%N.

(** The class [\d] of [re] on [str] patterns: category Nd.  Decimal
    digits come in runs of ten consecutive code points, valued 0 to 9;
    the table lists the first code point of each run. *)
Definition digit_runs : list N :=
  [48; 1632; 1776; 1984; 2406; 2534; 2662; 2790; 2918; 3046; 3174; 3302;
   3430; 3558; 3664; 3792; 3872; 4160; 4240; 6112; 6160; 6470; 6608; 6784;
   6800; 6992; 7088; 7232; 7248; 42528; 43216; 43264; 43472; 43504; 43600;
   44016; 65296; 66720; 68912; 69734; 69872; 69942; 70096; 70384; 70736;
   70864; 71248; 71360; 71472; 71904; 72016; 72784; 73040; 73120; 92768;
   92864; 93008; 120782; 120792; 120802; 120812; 120822; 123200; 123632;
   125264; 130032]%N.

Definition in_run (c start : N) : bool :=
  (N.leb start c && N.ltb c (start + 10))%N.

Definition is_digit (c : char) : bool :=
  existsb (in_run c) digit_runs.

(** The value of a decimal digit, as [float] and [int] read it. *)
Definition digit_value (c : char) : N :=
  match find (in_run c) digit_runs with
  | Some start => (c - start)%N
  | None => 0%N
  end.

(** [[0-9]] and [[A-Za-z]] are ASCII ranges whatever the flags. *)
Definition is_ascii_digit (c : char) : bool :=
  (N.leb 48 c && N.leb c 57)%N.

Definition is_ascii_upper (c : char) : bool :=
  (N.leb 65 c && N.leb c 90)%N.

Definition is_ascii_lower (c : char) : bool :=
  (N.leb 97 c && N.leb c 122)%N.

Definition is_ascii_alpha (c : char) : bool :=
  is_ascii_upper c || is_ascii_lower c.

(** [str.upper] on the letters that [[A-Za-z]+] can match. *)
Definition ascii_upper (c : char) : char :=
  if is_ascii_lower c then (c - 32)%N else c.

Definition upper (s : str) : str := List.map ascii_upper s.

(** The characters a literal pattern character matches under
    [re.IGNORECASE]: a character matches when its lower case is the lower
    case of the pattern character, or when the two are in one of the
    equivalence classes [re] adds ([s] and U+017F).  The table is exact for
    the pattern characters of this program, which are the letters of the
    units, [R] and U+03A9; U+212A (KELVIN SIGN) lowers to [k] and U+2126
    (OHM SIGN) to U+03C9. *)
Definition ci_class (p : char) : list char :=
  if is_ascii_alpha p then
    let lo := if is_ascii_upper p then (p + 32)%N else p in
    let up := (lo - 32)%N in
    if N.eqb lo 107 then [up; lo; 8490%N]        (* k, K, KELVIN SIGN *)
    else if N.eqb lo 115 then [up; lo; 383%N]    (* s, S, LONG S *)
    else [up; lo]
  else if N.eqb p OMEGA then [937; 969; 8486]%N
  else [p].

Definition ci_eq (p c : char) : bool := mem_char c (ci_class p).

(** *** [str] methods *)

Fixpoint lstrip (s : str) : str :=
  match s with
  | c :: s' => if is_space c then lstrip s' else s
  | [] => []
  end.

Definition rstrip (s : str) : str := rev (lstrip (rev s)).

(** [s.strip()] *)
Definition strip (s : str) : str := lstrip (rstrip s).

(** [s.split()]: the maximal runs of non-space characters.  [cur] is the
    run being read. *)
Fixpoint split_from (cur : str) (s : str) : list str :=
  match s with
  | [] => match cur with [] => [] | _ => [cur] end
  | c :: s' =>
      if is_space c then
        match cur with
        | [] => split_from [] s'
        | _ => cur :: split_from [] s'
        end
      else split_from (cur ++ [c]) s'
  end.

Definition split (s : str) : list str := split_from [] s.

(** [sep.join(parts)] *)
Fixpoint join (sep : str) (parts : list str) : str :=
  match parts with
  | [] => []
  | [p] => p
  | p :: ps => p ++ sep ++ join sep ps
  end.

(** [s.startswith(prefix)] *)
Fixpoint startswith (s prefix : str) : bool :=
  match prefix, s with
  | [], _ => true
  | p :: prefix', c :: s' => N.eqb p c && startswith s' prefix'
  | _ :: _, [] => false
  end.

(** [s.find(sub)]: the lowest index where [sub] occurs, [None] for -1. *)
Fixpoint find_from (i : nat) (s sub : str) : option nat :=
  if startswith s sub then Some i
  else match s with
       | [] => None
       | _ :: s' => find_from (S i) s' sub
       end.

Definition str_find (s sub : str) : option nat := find_from 0 s sub.

(** [sub in s] *)
Definition contains (s sub : str) : bool :=
  match str_find s sub with Some _ => true | None => false end.

(** [s[i:j]] for [0 <= i], [0 <= j] *)
Definition slice (s : str) (i j : nat) : str := firstn (j - i) (skipn i s).

(** ** Regular expressions

    The patterns of the program are values of [regex]; [parses] is the
    backtracking matcher of [re]: it lists, in the order the matcher tries
    them, the states in which a match of the pattern can end.  A greedy
    repetition lists the longer matches first, an alternation its left
    branch first, so the head of the list is the match [re] reports. *)

Inductive regex : Type :=
| Eps : regex                        (* the empty pattern *)
| Cls : (char -> bool) -> regex      (* one character of a class *)
| Seq : regex -> regex -> regex      (* concatenation *)
| Alt : regex -> regex -> regex      (* r1|r2 *)
| Star : regex -> regex              (* r*, greedy *)
| Grp : regex -> regex               (* (r), a capturing group *)
| Bol : regex                        (* ^ *)
| Eol : regex.                       (* $ *)

(** Derived forms. *)
Definition Lit (c : char) : regex := Cls (N.eqb c).
Definition LitI (c : char) : regex := Cls (ci_eq c).
Definition Plus (r : regex) : regex := Seq r (Star r).
Definition Opt (r : regex) : regex := Alt r Eps.
Definition Dot : regex := Cls (fun c => negb (N.eqb c 10)).
Definition OneOf (l : list char) : regex := Cls (fun c => mem_char c l).
Definition NoneOf (l : list char) : regex := Cls (fun c => negb (mem_char c l)).

Fixpoint Word (s : str) : regex :=
  match s with
  | [] => Eps
  | c :: s' => Seq (Lit c) (Word s')
  end.

(** A literal word under [re.IGNORECASE]. *)
Fixpoint WordI (s : str) : regex :=
  match s with
  | [] => Eps
  | c :: s' => Seq (LitI c) (WordI s')
  end.

(** The state of a match in progress: the index reached, the text still to
    read and the groups closed so far, in the order of their numbers. *)
Record mstate : Type := MState {
  m_pos : nat;
  m_rest : str;
  m_caps : list str
}.

Definition close_group (st st' : mstate) : mstate :=
  MState (m_pos st') (m_rest st')
         (m_caps st' ++ [firstn (m_pos st' - m_pos st) (m_rest st)]).

(** The repetition of a step, greedy: one more iteration first, as long as
    it consumes something, then the end of the repetition.  [fuel] bounds
    the number of iterations by the length of the text. *)
Fixpoint star_loop (step : mstate -> list mstate) (fuel : nat) (st : mstate)
  : list mstate :=
  match fuel with
  | O => [st]
  | S fuel' =>
      flat_map
        (fun st' =>
           if Nat.ltb (length (m_rest st')) (length (m_rest st))
           then star_loop step fuel' st' else [])
        (step st)
      ++ [st]
  end.

Fixpoint parses (r : regex) (st : mstate) : list mstate :=
  match r with
  | Eps => [st]
  | Cls p =>
      match m_rest st with
      | c :: s' => if p c then [MState (S (m_pos st)) s' (m_caps st)] else []
      | [] => []
      end
  | Seq a b => flat_map (parses b) (parses a st)
  | Alt a b => parses a st ++ parses b st
  | Star a => star_loop (parses a) (length (m_rest st)) st
  | Grp a => List.map (close_group st) (parses a st)
  | Bol => if Nat.eqb (m_pos st) 0 then [st] else []
  | Eol =>
      (* the end of the text, or just before a final newline *)
      match m_rest st with
      | [] => [st]
      | [c] => if N.eqb c 10 then [st] else []
      | _ => []
      end
  end.

(** [pattern.match(text, pos)]: a match starting exactly at [pos]. *)
Definition match_at (r : regex) (pos : nat) (rest : str) : option mstate :=
  hd_error (parses r (MState pos rest [])).

(** [re.match(r, s)] *)
Definition re_match (r : regex) (s : str) : option mstate := match_at r 0 s.

(** [m.groups()] *)
Definition groups (m : mstate) : list str := m_caps m.

(** [re.search(r, s)]: the first position at which a match starts.  The
    result is the start index and the final state of the match. *)
Fixpoint search_from (r : regex) (pos : nat) (rest : str)
  : option (nat * mstate) :=
  match match_at r pos rest with
  | Some m => Some (pos, m)
  | None =>
      match rest with
      | [] => None
      | _ :: rest' => search_from r (S pos) rest'
      end
  end.

Definition re_search (r : regex) (s : str) : option (nat * mstate) :=
  search_from r 0 s.

(** [re.sub(r, repl, s)] for a replacement without group references:
    every match found scanning from the left is replaced, and the scan
    resumes at the end of the match.  [skip] counts the characters of the
    current match still to pass over. *)
Fixpoint sub_from (r : regex) (repl : str) (pos : nat) (rest : str)
  (skip : nat) : str :=
  match skip with
  | S k =>
      match rest with
      | _ :: rest' => sub_from r repl (S pos) rest' k
      | [] => []
      end
  | O =>
      match match_at r pos rest with
      | Some m =>
          match m_pos m - pos, rest with
          | S k, _ :: rest' => repl ++ sub_from r repl (S pos) rest' k
          | O, c :: rest' => repl ++ c :: sub_from r repl (S pos) rest' 0
          | _, [] => repl
          end
      | None =>
          match rest with
          | c :: rest' => c :: sub_from r repl (S pos) rest' 0
          | [] => []
          end
      end
  end.

Definition re_sub (r : regex) (repl : str) (s : str) : str :=
  sub_from r repl 0 s 0.

(** [re.finditer(r, s)]: the non-overlapping matches from the left, each
    with its start index. *)
Fixpoint finditer_from (r : regex) (pos : nat) (rest : str) (skip : nat)
  : list (nat * mstate) :=
  match skip with
  | S k =>
      match rest with
      | _ :: rest' => finditer_from r (S pos) rest' k
      | [] => []
      end
  | O =>
      match match_at r pos rest with
      | Some m =>
          (pos, m) ::
          match rest with
          | _ :: rest' => finditer_from r (S pos) rest' (m_pos m - pos - 1)
          | [] => []
          end
      | None =>
          match rest with
          | _ :: rest' => finditer_from r (S pos) rest' 0
          | [] => []
          end
      end
  end.

Definition re_finditer (r : regex) (s : str) : list (nat * mstate) :=
  finditer_from r 0 s 0.

(** [re.findall(r, s)]: the groups of every match. *)
Definition re_findall (r : regex) (s : str) : list (list str) :=
  List.map (fun m => groups (snd m)) (re_finditer r s).

(** Character classes of the patterns. *)
Definition multiplier_letters : list char :=
  lit "pnu" ++ [MICRO] ++ lit "mkKMG".

Definition ws : regex := Cls is_space.                         (* \s *)
Definition digit : regex := Cls is_digit.                      (* \d *)
Definition mult_letter : regex := OneOf multiplier_letters.    (* [pnuµmkKMG] *)
Definition digit_or_dot : regex :=                             (* [0-9\.] *)
  Cls (fun c => is_ascii_digit c || N.eqb c 46).
Definition alpha : regex := Cls is_ascii_alpha.                (* [A-Za-z] *)
Definition DOT : char := 46%N.
Definition QUOTE : char := 34%N.
Definition BACKSLASH : char := 92%N.
Definition LPAREN : char := 40%N.
Definition RPAREN : char := 41%N.

(** Concatenation of several patterns. *)
Fixpoint Cat (rs : list regex) : regex :=
  match rs with
  | [] => Eps
  | [r] => r
  | r :: rs' => Seq r (Cat rs')
  end.

(** ** Exceptions and floats *)

Inductive exn : Type := IndexError | ValueError.

Inductive result (A : Type) : Type :=
| Ok : A -> result A
| Raise : exn -> result A.

Arguments Ok {A} _.
Arguments Raise {A} _.

(** A Python [float] is an IEEE 754 binary64 number. *)
Definition float := spec_float.
Definition prec : Z := 53.
Definition emax : Z := 1024.

(** The float nearest to [n / d] (ties to even), for [d > 0]: the value of
    a decimal literal with digits [n] scaled by [d], a power of ten. *)
Definition float_of_ratio (n d : N) : float :=
  match n, d with
  | Npos pn, Npos pd =>
      SFdiv prec emax (S754_finite false pn 0) (S754_finite false pd 0)
  | _, _ => S754_zero false
  end.

Definition fzero : float := S754_zero false.                  (* 0.0 *)
Definition fmul (x y : float) : float := SFmul prec emax x y.
Definition feqb (x y : float) : bool := SFeqb x y.            (* x == y *)
Definition fltb (x y : float) : bool := SFltb x y.            (* x < y *)

(** The number written by a string of decimal digits. *)
Definition digits_value (ds : str) : N :=
  fold_left (fun acc c => (10 * acc + digit_value c)%N) ds 0%N.

Definition is_dot (c : char) : bool := N.eqb c DOT.

(** [float(s)] on the strings that reach it in this program, which are
    made of decimal digits and dots: the call succeeds when there is at
    most one dot and at least one digit, and raises [ValueError]
    otherwise. *)
Definition py_float (s : str) : result float :=
  let dots := List.filter is_dot s in
  let ds := List.filter (fun c => negb (is_dot c)) s in
  if forallb is_digit ds && Nat.leb (length dots) 1 && Nat.ltb 0 (length ds)
  then
    (* the number of digits after the dot *)
    let frac :=
      match str_find s [DOT] with
      | Some i => length s - i - 1
      | None => 0
      end in
    Ok (float_of_ratio (digits_value ds) (10 ^ N.of_nat frac))
  else Raise ValueError.

(** ** Configuration *)

(** [VALUE_PARSE_TYPES] *)
Definition VALUE_PARSE_TYPES : list str :=
  [lit "R"; lit "C"; lit "L"; lit "D"; lit "BT"; lit "F"; lit "FB";
   lit "Y"; lit "Z"].

(** ** Value normaliser *)

(** [clean_field_value] *)
Definition clean_field_value (value : str) : str :=
  let cleaned := strip value in
  if mem_str cleaned [lit "~"; lit "-"] then [] else cleaned.

(** The pattern [\s* ( \d+ \.? \d* V ) \s*] (patterns are written in
    verbose form, their tokens separated by spaces). *)
Definition voltage_pattern : regex :=
  Cat [Star ws;
       Grp (Cat [Plus digit; Opt (Lit DOT); Star digit; Lit 86%N]);
       Star ws].

(** [extract_voltage] *)
Definition extract_voltage (value_str : str) : str * str :=
  if negb (truthy value_str) then (value_str, [])
  else
    match re_search voltage_pattern value_str with
    | Some (_, m) =>
        let voltage := nth 0 (groups m) [] in
        let cleaned_value := strip (re_sub voltage_pattern (lit " ") value_str) in
        let cleaned_value := re_sub (Plus ws) (lit " ") cleaned_value in
        (cleaned_value, voltage)
    | None => (value_str, [])
    end.

(** [units_to_strip] *)
Definition units_to_strip : list str :=
  [[OMEGA]; lit "Ohm"; lit "ohms"; lit "ohm"; lit "F"; lit "uF"; lit "nF";
   lit "pF"; lit "H"; lit "uH"; lit "nH"; lit "mH"; lit "Hz"; lit "kHz";
   lit "MHz"].

(** [re.sub(re.escape(unit) + r'$', '', working_str, flags=re.IGNORECASE)] *)
Definition strip_unit (working_str unit : str) : str :=
  re_sub (Seq (WordI unit) Eol) [] working_str.

(** The letter a multiplier is written with on output. *)
Definition canonical_mult (mult : str) : str :=
  if str_eqb mult [MICRO] then lit "u"
  else if str_eqb mult (lit "K") then lit "k"
  else mult.

(** The pattern [^ ( \d+ \.? \d* ) ( [pnuµmkKMG] ) $]. *)
Definition format1 : regex :=
  Cat [Bol; Grp (Cat [Plus digit; Opt (Lit DOT); Star digit]);
       Grp mult_letter; Eol].

(** The pattern [^ ( \d+ ) ( [pnuµmkKMG] ) ( \d+ ) $]. *)
Definition format2 : regex :=
  Cat [Bol; Grp (Plus digit); Grp mult_letter; Grp (Plus digit); Eol].

(** The pattern [^ ( \d+ ) R ( \d* ) $] with [re.IGNORECASE]. *)
Definition format3 : regex :=
  Cat [Bol; Grp (Plus digit); LitI 82%N; Grp (Star digit); Eol].

(** The pattern [^ ( \d+ \.? \d* ) $]. *)
Definition format4 : regex :=
  Cat [Bol; Grp (Cat [Plus digit; Opt (Lit DOT); Star digit]); Eol].

(** [f"{normalized} {suffix}".strip() if suffix else normalized] *)
Definition with_suffix (normalized suffix : str) : str :=
  if truthy suffix then strip (normalized ++ lit " " ++ suffix)
  else normalized.

(** [normalize_value] *)
Definition normalize_value (value_str component_type : str) : str :=
  if negb (truthy value_str) || negb (mem_str component_type VALUE_PARSE_TYPES)
  then value_str
  else
    let value_str := re_sub (Plus ws) (lit " ") (strip value_str) in
    let parts := split value_str in
    match parts with
    | [] => value_str
    | numeric_part :: rest =>
        let suffix :=
          if Nat.ltb 1 (length parts) then join (lit " ") rest else [] in
        let working_str := fold_left strip_unit units_to_strip numeric_part in
        match re_match format1 working_str with
        | Some m1 =>
            let num := nth 0 (groups m1) [] in
            let mult := canonical_mult (nth 1 (groups m1) []) in
            with_suffix (num ++ mult) suffix
        | None =>
        match re_match format2 working_str with
        | Some m2 =>
            let main := nth 0 (groups m2) [] in
            let mult := canonical_mult (nth 1 (groups m2) []) in
            let dec := nth 2 (groups m2) [] in
            let decimal_val := main ++ lit "." ++ dec in
            with_suffix (decimal_val ++ mult) suffix
        | None =>
        match re_match format3 working_str with
        | Some m3 =>
            let main := nth 0 (groups m3) [] in
            let dec := nth 1 (groups m3) [] in
            let normalized :=
              if truthy dec then main ++ lit "." ++ dec ++ lit "R"
              else main ++ lit "R" in
            with_suffix normalized suffix
        | None =>
        match re_match format4 working_str with
        | Some _ => with_suffix working_str suffix
        | None => value_str
        end end end end
    end.

(** The [multipliers] table of [parse_value_to_float]; a letter outside
    the table gives [None]. *)
Definition multipliers (mult : str) : option float :=
  if str_eqb mult (lit "p") then Some (float_of_ratio 1 (10 ^ 12))
  else if str_eqb mult (lit "n") then Some (float_of_ratio 1 (10 ^ 9))
  else if str_eqb mult (lit "u") then Some (float_of_ratio 1 (10 ^ 6))
  else if str_eqb mult [MICRO] then Some (float_of_ratio 1 (10 ^ 6))
  else if str_eqb mult (lit "m") then Some (float_of_ratio 1 (10 ^ 3))
  else if str_eqb mult (lit "k") then Some (float_of_ratio (10 ^ 3) 1)
  else if str_eqb mult (lit "K") then Some (float_of_ratio (10 ^ 3) 1)
  else if str_eqb mult (lit "M") then Some (float_of_ratio (10 ^ 6) 1)
  else if str_eqb mult (lit "G") then Some (float_of_ratio (10 ^ 9) 1)
  else None.

(** [val *= multipliers[mult]] when [mult in multipliers] *)
Definition scale (val : float) (mult : str) : float :=
  match multipliers mult with
  | Some f => fmul val f
  | None => val
  end.

(** The pattern [^ ( [0-9\.]+ ) ( [pnuµmkKMG]? ) $]. *)
Definition float_format1 : regex :=
  Cat [Bol; Grp (Plus digit_or_dot); Grp (Opt mult_letter); Eol].

(** [parse_value_to_float].  Each [try ... except ValueError: pass] falls
    through to the next format. *)
Definition parse_value_to_float (value_str : str) : result float :=
  if negb (truthy value_str) then Ok fzero
  else
    match split value_str with
    | [] => Raise IndexError                       (* value_str.split()[0] *)
    | s :: _ =>
        let try1 :=
          match re_match float_format1 s with
          | Some m =>
              let num := nth 0 (groups m) [] in
              let mult := nth 1 (groups m) [] in
              match py_float num with
              | Ok val => Some (if truthy mult then scale val mult else val)
              | Raise _ => None
              end
          | None => None
          end in
        match try1 with
        | Some val => Ok val
        | None =>
        let try2 :=
          match re_match format2 s with
          | Some m =>
              let main := nth 0 (groups m) [] in
              let mult := nth 1 (groups m) [] in
              let dec := nth 2 (groups m) [] in
              match py_float (main ++ lit "." ++ dec) with
              | Ok val => Some (scale val mult)
              | Raise _ => None
              end
          | None => None
          end in
        match try2 with
        | Some val => Ok val
        | None =>
        let try3 :=
          match re_match format3 s with
          | Some m =>
              let main := nth 0 (groups m) [] in
              let dec := nth 1 (groups m) [] in
              match py_float (if truthy dec then main ++ lit "." ++ dec
                              else main) with
              | Ok val => Some val
              | Raise _ => None
              end
          | None => None
          end in
        match try3 with
        | Some val => Ok val
        | None => Ok fzero
        end end end
    end.

(** [parse_voltage_to_float] *)
Definition parse_voltage_to_float (volt_str : str) : float :=
  if negb (truthy volt_str) then fzero
  else
    match re_search (Grp (Plus digit_or_dot)) volt_str with
    | Some (_, m) =>
        match py_float (nth 0 (groups m) []) with
        | Ok val => val
        | Raise _ => fzero
        end
    | None => fzero
    end.

(** ** Reference designators *)

(** [get_designator_type] *)
Definition get_designator_type (refdes : str) : str :=
  match re_match (Grp (Plus alpha)) refdes with
  | Some m => upper (nth 0 (groups m) [])
  | None => lit "ZZ"
  end.

(** [strip_designator_suffix] *)
Definition strip_designator_suffix (refdes : str) : str :=
  match re_match (Grp (Seq (Plus alpha) (Plus digit))) refdes with
  | Some m => nth 0 (groups m) []
  | None => refdes
  end.

(** ** Block extractor *)

(** The loop of [get_balanced_block]: [fuel] iterations remain, [i] is the
    loop index.  The result is the index returned from inside the loop, or
    [len(text)] when the loop runs out. *)
Fixpoint block_loop (text : str) (fuel i : nat) (depth : Z) (in_string : bool)
  {struct fuel} : nat :=
  match fuel with
  | O => length text
  | S fuel' =>
      let char := nth i text 0%N in
      if N.eqb char QUOTE
         && (Nat.eqb i 0 || negb (N.eqb (nth (i - 1) text 0%N) BACKSLASH))
      then block_loop text fuel' (S i) depth (negb in_string)
      else if in_string then block_loop text fuel' (S i) depth in_string
      else if N.eqb char LPAREN
      then block_loop text fuel' (S i) (depth + 1)%Z in_string
      else if N.eqb char RPAREN
      then
        let depth := (depth - 1)%Z in
        if Z.eqb depth 0 then i
        else block_loop text fuel' (S i) depth in_string
      else block_loop text fuel' (S i) depth in_string
  end.

(** [get_balanced_block], for a start index that is not negative (the
    callers pass the result of [find] and of [match.start]). *)
Definition get_balanced_block (text : str) (start_index : nat) : nat :=
  block_loop text (length text - start_index) start_index 0%Z false.

(** ** Dictionaries

    A Python [dict] with string keys keeps its keys in insertion order;
    assigning to a key that is present replaces the value in place. *)

Definition dict (V : Type) : Type := list (str * V).

Fixpoint dict_get (V : Type) (d : dict V) (k : str) : option V :=
  match d with
  | [] => None
  | (k', v) :: d' => if str_eqb k k' then Some v else dict_get d' k
  end.

(** [k in d] *)
Definition dict_mem (V : Type) (d : dict V) (k : str) : bool :=
  match dict_get d k with Some _ => true | None => false end.

(** [d[k] = v] *)
Fixpoint dict_set (V : Type) (d : dict V) (k : str) (v : V) : dict V :=
  match d with
  | [] => [(k, v)]
  | (k', v') :: d' =>
      if str_eqb k k' then (k', v) :: d' else (k', v') :: dict_set d' k v
  end.

(** [list(d.values())] *)
Definition dict_values (V : Type) (d : dict V) : list V := List.map snd d.

(** [d.get(k, "")] *)
Definition get_or_empty (d : dict str) (k : str) : str :=
  match dict_get d k with Some v => v | None => [] end.

(** ** Record parser *)

(** The attributes of one component instance. *)
Definition attrs : Type := dict str.

(** The patterns [\( dnp \s+ yes \)], [\( in_bom \s+ no \)] and
    [\( on_board \s+ no \)]. *)
Definition marker (key value : str) : regex :=
  Cat [Lit LPAREN; Word key; Plus ws; Word value; Lit RPAREN].

(** [should_exclude_component] *)
Definition should_exclude_component (block_text : str) : bool :=
  match re_search (marker (lit "dnp") (lit "yes")) block_text with
  | Some _ => true
  | None =>
  match re_search (marker (lit "in_bom") (lit "no")) block_text with
  | Some _ => true
  | None =>
  match re_search (marker (lit "on_board") (lit "no")) block_text with
  | Some _ => true
  | None => false
  end end end.

(** The pattern [\( lib_id \s+ Q ( [^Q]+ ) Q], where Q is the double
    quote. *)
Definition lib_id_pattern : regex :=
  Cat [Lit LPAREN; Word (lit "lib_id"); Plus ws; Lit QUOTE;
       Grp (Plus (NoneOf [QUOTE])); Lit QUOTE].

(** [extract_lib_id] *)
Definition extract_lib_id (block_text : str) : str :=
  match re_search lib_id_pattern block_text with
  | Some (_, m) => nth 0 (groups m) []
  | None => []
  end.

(** The pattern [\( property \s+ Q ( [^Q]+ ) Q \s+ Q ( (?: [^Q\\] | \\. )* ) Q],
    where Q is the double quote. *)
Definition property_pattern : regex :=
  Cat [Lit LPAREN; Word (lit "property"); Plus ws; Lit QUOTE;
       Grp (Plus (NoneOf [QUOTE])); Lit QUOTE; Plus ws; Lit QUOTE;
       Grp (Star (Alt (NoneOf [QUOTE; BACKSLASH]) (Seq (Lit BACKSLASH) Dot)));
       Lit QUOTE].

(** [{k: v for k, v in props_list}] *)
Definition props_of_list (props_list : list (list str)) : attrs :=
  fold_left (fun d kv => dict_set d (nth 0 kv []) (nth 1 kv [])) props_list [].

(** The first half of the loop body of [parse_schematic_file]: the
    attributes of the instance in [block_text], or [None] where the loop
    says [continue]. *)
Definition instance_of_block (block_text : str) : option attrs :=
  if negb (contains block_text (lit "(lib_id")) then None
  else if should_exclude_component block_text then None
  else
    let props_list := re_findall property_pattern block_text in
    let props := props_of_list props_list in
    let refdes := get_or_empty props (lit "Reference") in
    if negb (truthy refdes) then None
    else if startswith refdes (lit "#") then None
    else
      let lib_id := extract_lib_id block_text in
      Some (dict_set props (lit "_lib_id") lib_id).

(** The second half: de-duplication of multi-unit parts. *)
Definition add_component (components : dict attrs) (props : attrs)
  : dict attrs :=
  let refdes := get_or_empty props (lit "Reference") in
  let base_refdes := strip_designator_suffix refdes in
  if negb (dict_mem components base_refdes)
  then dict_set components base_refdes props
  else components.

(** [content] after the [(lib_symbols ...)] block is cut out. *)
Definition remove_lib_symbols (content : str) : str :=
  match str_find content (lit "(lib_symbols") with
  | Some lib_sym_start =>
      let lib_sym_end := get_balanced_block content lib_sym_start in
      firstn lib_sym_start content ++ skipn (lib_sym_end + 1) content
  | None => content
  end.

(** The instance blocks of [content], in the order of the file. *)
Definition instance_blocks (content : str) : list str :=
  let symbol_indices :=
    List.map fst (re_finditer (Word (lit "(symbol")) content) in
  List.map
    (fun start_idx =>
       let end_idx := get_balanced_block content start_idx in
       slice content start_idx (end_idx + 1))
    symbol_indices.

(** The loop of [parse_schematic_file] over the instances found. *)
Definition collect_components (instances : list (option attrs))
  : dict attrs :=
  fold_left
    (fun components inst =>
       match inst with
       | Some props => add_component components props
       | None => components
       end)
    instances [].

(** [parse_schematic_file], on the text of the file. *)
Definition parse_schematic_file (content : str) : list attrs :=
  let content := remove_lib_symbols content in
  dict_values
    (collect_components (List.map instance_of_block (instance_blocks content))).

(** ** Inventory model *)

(** One part of the inventory: the dictionary built by
    [scan_project_folder] and [load_master_csv], which always has these
    keys.  [Projects] is a set of project names, kept as the list of its
    members without repetition. *)
Record Part : Type := mkPart {
  Type_ : str;
  Value : str;
  Voltage : str;
  Tolerance : str;
  Extra : str;
  Footprint : str;
  Stock : str;
  Manufacturer : str;
  MPN : str;
  Digikey_PN : str;
  Mouser_PN : str;
  Description : str;
  Symbol : str;
  Datasheet : str;
  Projects : list str;
  Last_Used : str
}.

(** [FIELDS_TO_EXTRACT] *)
Definition FIELDS_TO_EXTRACT : dict str :=
  [(lit "MPN", lit "MPN");
   (lit "Mouser", lit "Mouser PN");
   (lit "Digikey", lit "Digikey PN");
   (lit "Manufacturer", lit "Manufacturer");
   (lit "Tolerance", lit "Tolerance");
   (lit "Extra", lit "Extra");
   (lit "Description", lit "Description")].

(** [props.get(FIELDS_TO_EXTRACT[key], "")], cleaned. *)
Definition extracted_field (props : attrs) (key : str) : str :=
  clean_field_value (get_or_empty props (get_or_empty FIELDS_TO_EXTRACT key)).

(** The warning printed by the consistency check of a scan. *)
Record scan_warning : Type := mkWarning {
  w_mpn : str;
  w_old_type : str;
  w_old_value : str;
  w_old_footprint : str;
  w_refdes : str;
  w_new_value : str;
  w_new_footprint : str
}.

(** The value and voltage of a component of a value-bearing type. *)
Definition value_and_voltage (comp_type val voltage : str) : str * str :=
  if mem_str comp_type VALUE_PARSE_TYPES then
    let '(val, voltage) :=
      if negb (truthy voltage) && truthy val then
        let '(val, extracted_voltage) := extract_voltage val in
        if truthy extracted_voltage then (val, extracted_voltage)
        else (val, voltage)
      else if truthy voltage && truthy val then
        (fst (extract_voltage val), voltage)
      else (val, voltage) in
    (normalize_value val comp_type, voltage)
  else (val, voltage).

(** The [part_data] of one component, or [None] where the loop of
    [scan_project_folder] says [continue]; the reference designator comes
    with it. *)
Definition part_data_of (project_name date_str : str) (props : attrs)
  : option (str * Part) :=
  let refdes := get_or_empty props (lit "Reference") in
  let mpn := extracted_field props (lit "MPN") in
  if negb (truthy mpn) then None
  else
    let val := clean_field_value (get_or_empty props (lit "Value")) in
    let voltage := clean_field_value (get_or_empty props (lit "Voltage")) in
    let footprint := clean_field_value (get_or_empty props (lit "Footprint")) in
    let mouser := extracted_field props (lit "Mouser") in
    let digikey := extracted_field props (lit "Digikey") in
    let manufacturer := extracted_field props (lit "Manufacturer") in
    let tolerance := extracted_field props (lit "Tolerance") in
    let extra := extracted_field props (lit "Extra") in
    let description := extracted_field props (lit "Description") in
    let symbol := clean_field_value (get_or_empty props (lit "_lib_id")) in
    let datasheet := clean_field_value (get_or_empty props (lit "Datasheet")) in
    if negb (truthy footprint) then None
    else
      let comp_type := get_designator_type refdes in
      let '(val, voltage) := value_and_voltage comp_type val voltage in
      Some (refdes,
            {| Type_ := comp_type; Value := val; Voltage := voltage;
               Tolerance := tolerance; Extra := extra; Footprint := footprint;
               Stock := []; Manufacturer := manufacturer; MPN := mpn;
               Digikey_PN := digikey; Mouser_PN := mouser;
               Description := description; Symbol := symbol;
               Datasheet := datasheet; Projects := [project_name];
               Last_Used := date_str |}).

(** The state of a scan: [extracted_parts] and the warnings printed. *)
Definition scan_state : Type := (dict Part * list scan_warning)%type.

(** The end of the loop body of [scan_project_folder]: the first record of
    an MPN is stored, a later one is only checked against it. *)
Definition record_part (st : scan_state) (refdes : str) (part_data : Part)
  : scan_state :=
  let '(extracted_parts, warnings) := st in
  let mpn := MPN part_data in
  match dict_get extracted_parts mpn with
  | Some existing =>
      if negb (str_eqb (Value existing) (Value part_data))
         || negb (str_eqb (Footprint existing) (Footprint part_data))
      then (extracted_parts,
            warnings ++
            [mkWarning mpn (Type_ existing) (Value existing)
               (Footprint existing) refdes (Value part_data)
               (Footprint part_data)])
      else (extracted_parts, warnings)
  | None => (dict_set extracted_parts mpn part_data, warnings)
  end.

Section Scan.

(** The clock and the file system are outside the program:
    [strftime_date t] is
    [datetime.fromtimestamp(t).strftime("%Y-%m-%d")], [today] is
    [datetime.now().strftime("%Y-%m-%d")]; a sheet is given by its
    modification time and its text. *)
Variable strftime_date : float -> str.
Variable today : str.
Variable project_name : str.

Definition date_str_of (latest_mod_time : float) : str :=
  if fltb fzero latest_mod_time then strftime_date latest_mod_time
  else today.

(** The inner loop body, for one component of a sheet. *)
Definition scan_component (latest_mod_time : float) (st : scan_state)
  (props : attrs) : scan_state :=
  match part_data_of project_name (date_str_of latest_mod_time) props with
  | Some (refdes, part_data) => record_part st refdes part_data
  | None => st
  end.

(** The outer loop body, for one sheet. *)
Definition scan_sheet (acc : float * scan_state) (sheet : float * str)
  : float * scan_state :=
  let '(latest_mod_time, st) := acc in
  let '(mtime, content) := sheet in
  let latest_mod_time :=
    if fltb latest_mod_time mtime then mtime else latest_mod_time in
  let found_components := parse_schematic_file content in
  (latest_mod_time,
   fold_left (scan_component latest_mod_time) found_components st).

(** [scan_project_folder], on the sheets of the folder. *)
Definition scan_project_folder (sheets : list (float * str)) : scan_state :=
  snd (fold_left scan_sheet sheets (fzero, ([], []))).

End Scan.

(** ** Merge engine *)

(** The entries of the change log and of the conflict log.  [render_change]
    and [render_conflict] give the strings the program appends. *)
Inductive change : Type :=
| NewPart (type_ value mpn : str)
| AddedProject (mpn new_proj : str)
| FilledMissing (mpn : str).

Record conflict : Type := mkConflict {
  c_mpn : str;
  c_master_value : str;
  c_master_footprint : str;
  c_new_value : str;
  c_new_footprint : str
}.

Definition NL : str := [10%N].

Definition render_change (c : change) : str :=
  match c with
  | NewPart type_ value mpn =>
      lit "New Part: " ++ type_ ++ lit " " ++ value ++ lit " (" ++ mpn ++ lit ")"
  | AddedProject mpn new_proj =>
      lit "Updated " ++ mpn ++ lit ": Added project '" ++ new_proj ++ lit "'"
  | FilledMissing mpn =>
      lit "Updated " ++ mpn ++ lit ": Filled missing data"
  end.

Definition render_conflict (c : conflict) : str :=
  lit "CONFLICT: MPN " ++ c_mpn c ++ lit " exists but specs differ!" ++ NL
  ++ lit "   Master: " ++ c_master_value c ++ lit " [" ++ c_master_footprint c
  ++ lit "]" ++ NL
  ++ lit "   New:    " ++ c_new_value c ++ lit " [" ++ c_new_footprint c
  ++ lit "]".

(** [if not existing[f] and new_part[f]: existing[f] = new_part[f];
    updated = True] *)
Definition fill (existing new : str) (updated : bool) : str * bool :=
  if negb (truthy existing) && truthy new then (new, true)
  else (existing, updated).

(** The update of [Description] and of [Symbol]. *)
Definition refresh (existing new : str) (updated : bool) : str * bool :=
  if negb (str_eqb existing new) && truthy new then (new, true)
  else if negb (truthy existing) && truthy new then (new, true)
  else (existing, updated).

(** The field updates of a consistent record, up to [Symbol]; the flag is
    [updated]. *)
Definition update_fields (existing new_part : Part) : Part * bool :=
  let updated := false in
  let '(mouser, updated) := fill (Mouser_PN existing) (Mouser_PN new_part) updated in
  let '(digikey, updated) := fill (Digikey_PN existing) (Digikey_PN new_part) updated in
  let '(voltage, updated) := fill (Voltage existing) (Voltage new_part) updated in
  let '(tolerance, updated) := fill (Tolerance existing) (Tolerance new_part) updated in
  let '(manufacturer, updated) :=
    fill (Manufacturer existing) (Manufacturer new_part) updated in
  let '(datasheet, updated) := fill (Datasheet existing) (Datasheet new_part) updated in
  let '(extra, updated) := fill (Extra existing) (Extra new_part) updated in
  let '(description, updated) :=
    refresh (Description existing) (Description new_part) updated in
  let '(symbol, updated) := refresh (Symbol existing) (Symbol new_part) updated in
  ({| Type_ := Type_ existing; Value := Value existing; Voltage := voltage;
      Tolerance := tolerance; Extra := extra; Footprint := Footprint existing;
      Stock := Stock existing; Manufacturer := manufacturer;
      MPN := MPN existing; Digikey_PN := digikey; Mouser_PN := mouser;
      Description := description; Symbol := symbol; Datasheet := datasheet;
      Projects := Projects existing; Last_Used := Last_Used existing |},
   updated).

(** [existing['Projects'].add(new_proj)] and the date advance. *)
Definition add_project (existing new_part : Part) (new_proj : str) : Part :=
  {| Type_ := Type_ existing; Value := Value existing;
     Voltage := Voltage existing; Tolerance := Tolerance existing;
     Extra := Extra existing; Footprint := Footprint existing;
     Stock := Stock existing; Manufacturer := Manufacturer existing;
     MPN := MPN existing; Digikey_PN := Digikey_PN existing;
     Mouser_PN := Mouser_PN existing; Description := Description existing;
     Symbol := Symbol existing; Datasheet := Datasheet existing;
     Projects := Projects existing ++ [new_proj];
     Last_Used :=
       if str_ltb (Last_Used existing) (Last_Used new_part)
       then Last_Used new_part else Last_Used existing |}.

(** The state of a merge: [master_data], [changes] and [errors]. *)
Definition merge_state : Type := (dict Part * list change * list conflict)%type.

(** The loop body of [merge_data].  The record [existing] is the object
    stored in [master_data], so its updates are updates of the inventory. *)
Definition merge_part (st : merge_state) (item : str * Part)
  : result merge_state :=
  let '(master_data, changes, errors) := st in
  let '(mpn, new_part) := item in
  match dict_get master_data mpn with
  | Some existing =>
      if negb (str_eqb (Value existing) (Value new_part))
         || negb (str_eqb (Footprint existing) (Footprint new_part))
      then
        Ok (master_data, changes,
            errors ++ [mkConflict mpn (Value existing) (Footprint existing)
                         (Value new_part) (Footprint new_part)])
      else
        let '(existing, updated) := update_fields existing new_part in
        match Projects new_part with
        | [] => Raise IndexError           (* list(new_part['Projects'])[0] *)
        | new_proj :: _ =>
            if negb (mem_str new_proj (Projects existing)) then
              Ok (dict_set master_data mpn (add_project existing new_part new_proj),
                  changes ++ [AddedProject mpn new_proj], errors)
            else if updated then
              Ok (dict_set master_data mpn existing,
                  changes ++ [FilledMissing mpn], errors)
            else Ok (dict_set master_data mpn existing, changes, errors)
        end
  | None =>
      Ok (dict_set master_data mpn new_part,
          changes ++ [NewPart (Type_ new_part) (Value new_part) mpn], errors)
  end.

(** The loop of [merge_data] over [new_data.items()]. *)
Fixpoint merge_loop (st : merge_state) (items : list (str * Part))
  : result merge_state :=
  match items with
  | [] => Ok st
  | item :: items' =>
      match merge_part st item with
      | Ok st' => merge_loop st' items'
      | Raise e => Raise e
      end
  end.

(** [merge_data]: the inventory after the merge, with [changes] and
    [errors]. *)
Definition merge_data (master_data new_data : dict Part) : result merge_state :=
  merge_loop (master_data, [], []) new_data.

(** ** Output order *)

(** The sort key of [main]. *)
Definition sort_key_t : Type := (str * float * str * float * str * str)%type.

Definition sort_key (x : Part) : result sort_key_t :=
  let value_bearing := mem_str (Type_ x) VALUE_PARSE_TYPES in
  match (if value_bearing then parse_value_to_float (Value x) else Ok fzero) with
  | Raise e => Raise e
  | Ok numeric =>
      Ok (Type_ x, numeric, (if negb value_bearing then Value x else []),
          parse_voltage_to_float (Voltage x), Footprint x, MPN x)
  end.

(** [a < b] on tuples: the first components that are not equal decide. *)
Definition key_ltb (a b : sort_key_t) : bool :=
  let '(t1, n1, v1, u1, f1, m1) := a in
  let '(t2, n2, v2, u2, f2, m2) := b in
  if negb (str_eqb t1 t2) then str_ltb t1 t2
  else if negb (feqb n1 n2) then fltb n1 n2
  else if negb (str_eqb v1 v2) then str_ltb v1 v2
  else if negb (feqb u1 u2) then fltb u1 u2
  else if negb (str_eqb f1 f2) then str_ltb f1 f2
  else if negb (str_eqb m1 m2) then str_ltb m1 m2
  else false.

(** [sorted] is a stable sort: an element is placed after the elements
    that are not greater than it. *)
Fixpoint insert_by (K A : Type) (ltb : K -> K -> bool) (x : K * A)
  (l : list (K * A)) : list (K * A) :=
  match l with
  | [] => [x]
  | y :: l' =>
      if ltb (fst x) (fst y) then x :: l else y :: insert_by ltb x l'
  end.

Definition sort_by (K A : Type) (ltb : K -> K -> bool) (l : list (K * A))
  : list (K * A) :=
  fold_left (fun acc x => insert_by ltb x acc) l [].

(** The keys of all rows, computed before any comparison. *)
Fixpoint keyed (rows : list Part) : result (list (sort_key_t * Part)) :=
  match rows with
  | [] => Ok []
  | x :: rows' =>
      match sort_key x with
      | Raise e => Raise e
      | Ok k =>
          match keyed rows' with
          | Raise e => Raise e
          | Ok l => Ok ((k, x) :: l)
          end
      end
  end.

(** [sorted(master_data.values(), key=...)] *)
Definition sorted_parts (master_data : dict Part) : result (list Part) :=
  match keyed (dict_values master_data) with
  | Raise e => Raise e
  | Ok l => Ok (List.map snd (sort_by key_ltb l))
  end.

(** ** Vocabulary of the statements *)

(** Every incoming record names a project, as every record built by
    [scan_project_folder] does. *)
Definition nonempty_projects (items : list (str * Part)) : Prop :=
  Forall (fun item => Projects (snd item) <> []) items.

(** The entries of the conflict log that are about [mpn]. *)
Definition conflicts_for (mpn : str) (errors : list conflict) : list conflict :=
  List.filter (fun c => str_eqb (c_mpn c) mpn) errors.

(** [result] is [existing] filled from [new]: the incoming text where the
    stored one is empty, the stored text otherwise. *)
Definition fill_only (existing new result : str) : Prop :=
  (existing = [] -> result = new) /\ (existing <> [] -> result = existing).

(** The stored and the incoming record agree on value and footprint. *)
Definition consistent (existing new_part : Part) : Prop :=
  Value existing = Value new_part /\ Footprint existing = Footprint new_part.

(** The text a fill-only field ends with. *)
Definition filled (existing new : str) : str :=
  if negb (truthy existing) && truthy new then new else existing.

(** The rows of an inventory stored under [mpn]. *)
Definition records_of (mpn : str) (d : dict Part) : list (str * Part) :=
  List.filter (fun kv => str_eqb (fst kv) mpn) d.

(** ** Sample data *)

Definition sample_part (type_ value footprint mpn project date : string)
  : Part :=
  {| Type_ := lit type_; Value := lit value; Voltage := []; Tolerance := [];
     Extra := []; Footprint := lit footprint; Stock := [];
     Manufacturer := []; MPN := lit mpn; Digikey_PN := []; Mouser_PN := [];
     Description := []; Symbol := []; Datasheet := [];
     Projects := [lit project]; Last_Used := lit date |}.

(** A stored resistor with a stock count entered by hand. *)
Definition stored_r1 : Part :=
  {| Type_ := lit "R"; Value := lit "4.7k"; Voltage := []; Tolerance := [];
     Extra := []; Footprint := lit "0402"; Stock := lit "120";
     Manufacturer := lit "Yageo"; MPN := lit "RC0402-4K7";
     Digikey_PN := []; Mouser_PN := []; Description := []; Symbol := [];
     Datasheet := []; Projects := [lit "amp"]; Last_Used := lit "2024-01-15" |}.

(** The same part seen in another project, with a Mouser number. *)
Definition scanned_r1 : Part :=
  {| Type_ := lit "R"; Value := lit "4.7k"; Voltage := [];
     Tolerance := lit "1%"; Extra := []; Footprint := lit "0402"; Stock := [];
     Manufacturer := lit "Vishay"; MPN := lit "RC0402-4K7";
     Digikey_PN := []; Mouser_PN := lit "603-RC0402"; Description := [];
     Symbol := lit "Device:R"; Datasheet := []; Projects := [lit "psu"];
     Last_Used := lit "2024-03-02" |}.

(** The same part number with another footprint. *)
Definition scanned_r1_0603 : Part :=
  sample_part "R" "4.7k" "0603" "RC0402-4K7" "psu" "2024-03-02".

Definition sample_master : dict Part := [(lit "RC0402-4K7", stored_r1)].

(** The base id of an instance: its reference designator without the unit
    suffix. *)
Definition base_id (props : attrs) : str :=
  strip_designator_suffix (get_or_empty props (lit "Reference")).

Definition some_list (A : Type) (o : option A) : list A :=
  match o with Some a => [a] | None => [] end.

(** The instances of a file that pass the filters of
    [parse_schematic_file], in the order of the file. *)
Definition file_instances (content : str) : list attrs :=
  flat_map (fun block_text => some_list (instance_of_block block_text))
    (instance_blocks (remove_lib_symbols content)).

(** The dictionary [components] is keyed by base id. *)
Definition keyed_by_base (components : dict attrs) : Prop :=
  NoDup (List.map fst components) /\
  Forall (fun kv => base_id (snd kv) = fst kv) components.

(** The double quote is written as an apostrophe in the sample texts. *)
Definition quoted (s : string) : str :=
  List.map (fun c => if N.eqb c 39 then QUOTE else c) (lit s).

(** A sheet with the two units of one dual amplifier. *)
Definition two_unit_sheet : str :=
  quoted "(kicad_sch (symbol (lib_id 'Amp:LM358') (property 'Reference' 'U1A') (property 'Value' 'LM358') (property 'MPN' 'LM358DR') (property 'Footprint' 'SOIC-8')) (symbol (lib_id 'Amp:LM358') (property 'Reference' 'U1B') (property 'Value' 'LM358') (property 'MPN' 'LM358DR') (property 'Footprint' 'SOIC-8')))".

Definition unit_attrs (refdes : string) : attrs :=
  [(lit "Reference", lit refdes); (lit "Value", lit "LM358");
   (lit "MPN", lit "LM358DR"); (lit "Footprint", lit "SOIC-8");
   (lit "_lib_id", lit "Amp:LM358")].

(** Two observations of one part number in one project; only the second
    carries a Mouser number and a voltage. *)
Definition first_seen : attrs :=
  [(lit "Reference", lit "C1"); (lit "Value", lit "100n");
   (lit "MPN", lit "CL05B104"); (lit "Footprint", lit "0402")].

Definition seen_again : attrs :=
  [(lit "Reference", lit "C7"); (lit "Value", lit "100n");
   (lit "Voltage", lit "16V"); (lit "MPN", lit "CL05B104");
   (lit "Footprint", lit "0402"); (lit "Mouser PN", lit "187-CL05B104");
   (lit "Description", lit "MLCC")].

Definition sample_date (t : float) : str := lit "2024-03-02".

(** The record of [first_seen] in project [amp]. *)
Definition first_seen_part : Part :=
  {| Type_ := lit "C"; Value := lit "100n"; Voltage := []; Tolerance := [];
     Extra := []; Footprint := lit "0402"; Stock := []; Manufacturer := [];
     MPN := lit "CL05B104"; Digikey_PN := []; Mouser_PN := [];
     Description := []; Symbol := []; Datasheet := [];
     Projects := [lit "amp"]; Last_Used := lit "2024-03-02" |}.

(** ** Nesting depth, for the block extractor *)

(** The character at [j] is a double quote that no backslash precedes: it
    opens or closes a string literal. *)
Definition unescaped_quote (text : str) (j : nat) : bool :=
  N.eqb (nth j text 0%N) QUOTE
  && (Nat.eqb j 0 || negb (N.eqb (nth (j - 1) text 0%N) BACKSLASH)).

(** Position [i] lies inside a string literal of the block that starts at
    [start]: an odd number of quotes opened or closed a literal in
    [text[start:i]]. *)
Definition inside_string (text : str) (start i : nat) : bool :=
  Nat.odd (length (List.filter (unescaped_quote text) (seq start (i - start)))).

(** The character at [j] is the delimiter [c] and is not inside a string
    literal. *)
Definition counted (text : str) (start : nat) (c : char) (j : nat) : bool :=
  N.eqb (nth j text 0%N) c && negb (inside_string text start j).

Definition delta (text : str) (start j : nat) : Z :=
  if counted text start LPAREN j then 1%Z
  else if counted text start RPAREN j then (-1)%Z
  else 0%Z.

(** The nesting depth after [text[start:i]]: opening delimiters minus
    closing ones, those inside string literals not counted. *)
Definition depth_before (text : str) (start i : nat) : Z :=
  fold_right Z.add 0%Z (List.map (delta text start) (seq start (i - start))).

(** The nesting depth after the character at [i]. *)
Definition depth_at (text : str) (start i : nat) : Z :=
  depth_before text start (S i).

(** The result of the loop, in terms of the nesting depth: either the
    index of a closing delimiter outside any string literal, after which
    the depth is zero, or the length of the text. *)
Definition block_result (text : str) (start r : nat) : Prop :=
  (forall j, start <= j -> j < r -> (0 < depth_at text start j)%Z) /\
  ((r < length text /\ nth r text 0%N = RPAREN /\
    inside_string text start r = false /\ depth_at text start r = 0%Z)
   \/ r = length text).

(** ** Order, for the output rows *)

(** A float that is zero, positive and finite, or plus infinity: what
    [float] gives on a string of digits and dots, and what the product of
    two such floats is. *)
Definition nonneg_float (f : float) : Prop :=
  match f with
  | S754_zero _ => True
  | S754_finite false _ _ => True
  | S754_infinity false => True
  | _ => False
  end.

(** [eqb] and [ltb] are the equality and the strict order of a total
    preorder on the values that satisfy [dom]. *)
Record total_order (A : Type) (dom : A -> Prop) (eqb ltb : A -> A -> bool)
  : Prop := mkOrder {
  o_refl : forall a, dom a -> eqb a a = true;
  o_sym : forall a b, dom a -> dom b -> eqb a b = true -> eqb b a = true;
  o_eq_trans : forall a b c, dom a -> dom b -> dom c ->
    eqb a b = true -> eqb b c = true -> eqb a c = true;
  o_eq_lt : forall a b c, dom a -> dom b -> dom c ->
    eqb a b = true -> ltb b c = true -> ltb a c = true;
  o_lt_eq : forall a b c, dom a -> dom b -> dom c ->
    ltb a b = true -> eqb b c = true -> ltb a c = true;
  o_irrefl : forall a b, dom a -> dom b -> eqb a b = true -> ltb a b = false;
  o_trans : forall a b c, dom a -> dom b -> dom c ->
    ltb a b = true -> ltb b c = true -> ltb a c = true;
  o_total : forall a b, dom a -> dom b ->
    eqb a b = false -> ltb a b = false -> ltb b a = true
}.

(** The comparison of Python tuples: the first components that differ
    decide. *)
Definition pair_eqb (A B : Type) (eqa : A -> A -> bool) (eqb : B -> B -> bool)
  (x y : A * B) : bool :=
  eqa (fst x) (fst y) && eqb (snd x) (snd y).

Definition pair_ltb (A B : Type) (eqa lta : A -> A -> bool)
  (ltb : B -> B -> bool) (x y : A * B) : bool :=
  if negb (eqa (fst x) (fst y)) then lta (fst x) (fst y)
  else ltb (snd x) (snd y).

Definition pair_dom (A B : Type) (da : A -> Prop) (db : B -> Prop)
  (x : A * B) : Prop :=
  da (fst x) /\ db (snd x).

(** The key of [y] is not less than the key of [x]. *)
Definition not_after (K A : Type) (ltb : K -> K -> bool) (x y : K * A)
  : Prop :=
  ltb (fst y) (fst x) = false.

(** The keys [sort_key] builds: their floats are not negative and not
    NaN. *)
Definition key_dom (k : sort_key_t) : Prop :=
  let '(_, n, _, u, _, _) := k in nonneg_float n /\ nonneg_float u.

(** [a == b] on sort keys. *)
Definition key_eqb (a b : sort_key_t) : bool :=
  let '(t1, n1, v1, u1, f1, m1) := a in
  let '(t2, n2, v2, u2, f2, m2) := b in
  str_eqb t1 t2 && feqb n1 n2 && str_eqb v1 v2 && feqb u1 u2
  && str_eqb f1 f2 && str_eqb m1 m2.

(** Key [a] comes before key [b] or ties with it, component by component:
    Type, then the numeric value, then the value text, then the numeric
    voltage, then Footprint, then MPN. *)
Definition key_le (a b : sort_key_t) : Prop :=
  let '(t1, n1, v1, u1, f1, m1) := a in
  let '(t2, n2, v2, u2, f2, m2) := b in
  str_ltb t1 t2 = true \/
  (t1 = t2 /\
   (fltb n1 n2 = true \/
    (feqb n1 n2 = true /\
     (str_ltb v1 v2 = true \/
      (v1 = v2 /\
       (fltb u1 u2 = true \/
        (feqb u1 u2 = true /\
         (str_ltb f1 f2 = true \/
          (f1 = f2 /\ (str_ltb m1 m2 = true \/ m1 = m2)))))))))).

(** Row [x] comes before row [y] or ties with it in the output order. *)
Definition row_le (x y : Part) : Prop :=
  exists kx ky, sort_key x = Ok kx /\ sort_key y = Ok ky /\ key_le kx ky.

(** The value of a row of a value-bearing type can be read as a number:
    it is empty or has a token. *)
Definition readable_values (rows : list Part) : Prop :=
  Forall (fun x => mem_str (Type_ x) VALUE_PARSE_TYPES = true ->
                   Value x = [] \/ split (Value x) <> []) rows.

(** Three resistors, stored in an order that is not the output order, and
    whose part numbers are in the opposite of the order of their values:
    only the numeric value can put them in the output order. *)
Definition resistor (value mpn : string) : Part :=
  sample_part "R" value "0402" mpn "amp" "2024-01-15".

Definition unsorted_resistors : dict Part :=
  [(lit "M1", resistor "1M" "M1");
   (lit "M3", resistor "100R" "M3");
   (lit "M2", resistor "4.7k" "M2")].

(** ** Languages, for the patterns *)

(** The state [st] after the text [w] is read. *)
Definition reads (st : mstate) (w : str) (st' : mstate) : Prop :=
  m_rest st = w ++ m_rest st' /\ m_pos st' = m_pos st + length w.

(** The patterns without groups and anchors whose repetitions are over
    character classes. *)
Fixpoint simple (r : regex) : bool :=
  match r with
  | Eps | Cls _ => true
  | Seq a b | Alt a b => simple a && simple b
  | Star (Cls _) => true
  | _ => false
  end.

(** The texts a simple pattern matches. *)
Fixpoint lang (r : regex) (w : str) : Prop :=
  match r with
  | Eps => w = []
  | Cls p => exists c, w = [c] /\ p c = true
  | Seq a b => exists u v, w = u ++ v /\ lang a u /\ lang b v
  | Alt a b => lang a w \/ lang b w
  | Star (Cls p) => forallb p w = true
  | _ => False
  end.

(** The patterns of the program but one are sequences of anchors, groups
    around simple patterns and simple patterns. *)
Fixpoint flat (r : regex) : bool :=
  match r with
  | Seq a b => flat a && flat b
  | Grp a => simple a
  | Bol | Eol => true
  | _ => simple r
  end.

(** What a match of a flat pattern does to the state. *)
Fixpoint sem (r : regex) (st st' : mstate) : Prop :=
  match r with
  | Seq a b => exists mid, sem a st mid /\ sem b mid st'
  | Grp a =>
      exists w, lang a w /\ reads st w st' /\ m_caps st' = m_caps st ++ [w]
  | Bol => m_pos st = 0 /\ st' = st
  | Eol => (m_rest st = [] \/ m_rest st = [10%N]) /\ st' = st
  | _ => exists w, lang r w /\ reads st w st' /\ m_caps st' = m_caps st
  end.

(** ** Tokens *)

(** The length of the longest prefix of [s] in the class [p]. *)
Fixpoint span (p : char -> bool) (s : str) : nat :=
  match s with
  | c :: s' => if p c then S (span p s') else 0
  | [] => 0
  end.

Definition not_space (c : char) : bool := negb (is_space c).

(** A token: a non-empty text without white space. *)
Definition token (t : str) : Prop := t <> [] /\ forallb not_space t = true.

(** The text does not end with white space. *)
Definition ends_clean (s : str) : Prop :=
  s = [] \/ is_space (last s 0%N) = false.

(** [re.sub(r'\s+', ' ', s)], from any index. *)
Definition collapse_at (pos : nat) (s : str) : str :=
  sub_from (Plus ws) (lit " ") pos s 0.

(** ** The texts of the value patterns *)

(** [\d+]: a non-empty text of digits. *)
Definition digits (w : str) : Prop := w <> [] /\ forallb is_digit w = true.

(** The pattern [\d+ \.? \d*] of formats 1 and 4. *)
Definition number_pattern : regex :=
  Cat [Plus digit; Opt (Lit DOT); Star digit].

(** The texts of [number_pattern]: digits, then maybe a dot, then maybe
    more digits. *)
Definition number (w : str) : Prop :=
  exists ip dot fp,
    w = ip ++ dot ++ fp /\ digits ip /\ (dot = [] \/ dot = [DOT]) /\
    forallb is_digit fp = true.

(** A digit or a dot. *)
Definition numeric (c : char) : bool := is_digit c || N.eqb c DOT.

(** ** Units *)

(** The text [w] is the word [u], case ignored. *)
Fixpoint ci_word (u w : str) : bool :=
  match u, w with
  | [], [] => true
  | a :: u', c :: w' => ci_eq a c && ci_word u' w'
  | _, _ => false
  end.

(** The text [s] starts with the word [p], case ignored. *)
Fixpoint ci_prefix (p s : str) : bool :=
  match p, s with
  | [], _ => true
  | a :: p', c :: s' => ci_eq a c && ci_prefix p' s'
  | _ :: _, [] => false
  end.

(** The text [x] ends with the word [u], case ignored. *)
Definition ends_ci (u x : str) : bool := ci_prefix (rev u) (rev x).

(** The part of [normalize_value] that reads the first token: the
    normalised token, or [None] when no format matches. *)
Definition normalize_token (numeric_part : str) : option str :=
  let working_str := fold_left strip_unit units_to_strip numeric_part in
  match re_match format1 working_str with
  | Some m1 =>
      let num := nth 0 (groups m1) [] in
      let mult := canonical_mult (nth 1 (groups m1) []) in
      Some (num ++ mult)
  | None =>
  match re_match format2 working_str with
  | Some m2 =>
      let main := nth 0 (groups m2) [] in
      let mult := canonical_mult (nth 1 (groups m2) []) in
      let dec := nth 2 (groups m2) [] in
      Some ((main ++ lit "." ++ dec) ++ mult)
  | None =>
  match re_match format3 working_str with
  | Some m3 =>
      let main := nth 0 (groups m3) [] in
      let dec := nth 1 (groups m3) [] in
      Some (if truthy dec then main ++ lit "." ++ dec ++ lit "R"
            else main ++ lit "R")
  | None =>
  match re_match format4 working_str with
  | Some _ => Some working_str
  | None => None
  end end end end.

(** ** Voltages *)

(** A voltage text: digits, maybe a dot, maybe more digits, and [V]. *)
Definition voltage_text (w : str) : Prop :=
  exists num, number num /\ w = num ++ lit "V".

(** The text of [s] from index [i] on starts with [w]. *)
Definition occurs_at (w s : str) (i : nat) : Prop :=
  exists b, skipn i s = w ++ b.

(** A voltage text occurs in [s]. *)
Definition has_voltage (s : str) : Prop :=
  exists w i, voltage_text w /\ occurs_at w s i.

(** [w] is the first voltage text of [s]: no other starts further left. *)
Definition first_voltage (s w : str) : Prop :=
  exists i,
    voltage_text w /\ occurs_at w s i /\
    forall w' j, voltage_text w' -> occurs_at w' s j -> i <= j.

(** [re.sub(r, repl, s, count=1)]: the first match alone is replaced. *)
Definition sub_first (r : regex) (repl s : str) : str :=
  match re_search r s with
  | Some (start, m) => firstn start s ++ repl ++ skipn (m_pos m) s
  | None => s
  end.

(** The splitting of the voltage with the first match alone removed. *)
Definition split_voltage_first (value_str : str) : str * str :=
  if negb (truthy value_str) then (value_str, [])
  else
    match re_search voltage_pattern value_str with
    | Some (_, m) =>
        let voltage := nth 0 (groups m) [] in
        let cleaned_value :=
          strip (sub_first voltage_pattern (lit " ") value_str) in
        let cleaned_value := re_sub (Plus ws) (lit " ") cleaned_value in
        (cleaned_value, voltage)
    | None => (value_str, [])
    end.

(** A value string with two voltages. *)
Definition two_voltages : str := lit "100n 16V 25V".

(** ** Scanned records *)

(** A record as [scan_project_folder] builds them for a project: stored
    under its part number, with a footprint, no stock count, the project
    as its only project and a type made of upper-case letters. *)
Definition scanned_record (project_name mpn : str) (p : Part) : Prop :=
  MPN p = mpn /\ mpn <> [] /\ Footprint p <> [] /\ Stock p = [] /\
  Projects p = [project_name] /\
  Type_ p <> [] /\ forallb is_ascii_upper (Type_ p) = true.

(** A text without white space at either end. *)
Definition stripped (s : str) : Prop :=
  s = [] \/ (is_space (hd 0%N s) = false /\ is_space (last s 0%N) = false).

(** ** ASCII numbers *)

(** The class [[0-9\.]]. *)
Definition ascii_numeric (c : char) : bool := is_ascii_digit c || N.eqb c 46.

(** A non-empty text of ASCII digits. *)
Definition ascii_digits (w : str) : Prop :=
  w <> [] /\ forallb is_ascii_digit w = true.

(** ** Instances *)

(** An instance as [parse_schematic_file] returns them: it has a
    reference designator that does not start with [#], and a library
    symbol entry. *)
Definition kept_instance (props : attrs) : Prop :=
  get_or_empty props (lit "Reference") <> [] /\
  startswith (get_or_empty props (lit "Reference")) (lit "#") = false /\
  dict_mem props (lit "_lib_id") = true.

(** The block holds the marker [(key value)], with any white space
    between the two words. *)
Definition marked (key value block : str) : Prop :=
  exists a sp b,
    sp <> [] /\ forallb is_space sp = true /\
    block = a ++ (lit "(" ++ key ++ sp ++ value ++ lit ")") ++ b.

(** ** Segments *)

(** The text [w] is a segment of the text [s]. *)
Definition segment (w s : str) : Prop := exists a b, s = a ++ w ++ b.

(** The characters of a token that [normalize_value] has rewritten:
    digits, the dot, and the letters of the multipliers and of the
    ohm. *)
Definition value_char (c : char) : bool :=
  numeric c || mem_char c (lit "pnumkMGR").

(** ** The rows of the master file *)

(** [s.split(sep)] for a separator [sep] that is not empty: the texts
    between the occurrences of [sep], read from the left.  [cur] is the
    text being read, [skip] counts the characters of the separator still
    to pass over. *)
Fixpoint split_sep_from (sep cur s : str) (skip : nat) {struct s}
  : list str :=
  match s with
  | [] => [cur]
  | c :: s' =>
      match skip with
      | S k => split_sep_from sep cur s' k
      | O =>
          if startswith s sep
          then cur :: split_sep_from sep [] s' (length sep - 1)
          else split_sep_from sep (cur ++ [c]) s' 0
      end
  end.

Definition split_sep (s sep : str) : list str := split_sep_from sep [] s 0.

(** [sorted(l)] on strings: a stable sort, as [insert_by]. *)
Fixpoint insert_str (x : str) (l : list str) : list str :=
  match l with
  | [] => [x]
  | y :: l' => if str_ltb x y then x :: l else y :: insert_str x l'
  end.

Definition sorted_strs (l : list str) : list str :=
  fold_left (fun acc x => insert_str x acc) l [].

(** [set(l)]: the members of [l], each once. *)
Definition py_set (l : list str) : list str :=
  nodup (list_eq_dec N.eq_dec) l.

(** [", ".join(sorted(part['Projects']))], the [Used In] column that
    [main] writes. *)
Definition used_in (projects : list str) : str :=
  join (lit ", ") (sorted_strs projects).

(** [set(row['Used In'].split(', ')) if row['Used In'] else set()], the
    projects that [load_master_csv] reads. *)
Definition projects_of (used : str) : list str :=
  if truthy used then py_set (split_sep used (lit ", ")) else [].

(** The row [main] hands to the writer for a part: a copy of the part
    with [Used In] in the place of [Projects].  The writer and the reader
    of the [csv] module are outside the program: a row is the dictionary
    of its columns. *)
Definition row_of_part (part : Part) : dict str :=
  [(lit "Type", Type_ part); (lit "Value", Value part);
   (lit "Voltage", Voltage part); (lit "Tolerance", Tolerance part);
   (lit "Extra", Extra part); (lit "Footprint", Footprint part);
   (lit "Stock", Stock part); (lit "Manufacturer", Manufacturer part);
   (lit "MPN", MPN part); (lit "Digikey PN", Digikey_PN part);
   (lit "Mouser PN", Mouser_PN part); (lit "Description", Description part);
   (lit "Symbol", Symbol part); (lit "Datasheet", Datasheet part);
   (lit "Last Used", Last_Used part);
   (lit "Used In", used_in (Projects part))].

(** The loop body of [load_master_csv]: the part number and the part of
    a row.  [None] stands for the [KeyError] of [row[...]] on a column
    that the row does not have. *)
Definition part_of_row (row : dict str) : option (str * Part) :=
  match dict_get row (lit "MPN"), dict_get row (lit "Used In"),
        dict_get row (lit "Type"), dict_get row (lit "Value"),
        dict_get row (lit "Footprint"), dict_get row (lit "Digikey PN"),
        dict_get row (lit "Mouser PN"), dict_get row (lit "Last Used") with
  | Some mpn, Some used, Some type_, Some value, Some footprint,
    Some digikey, Some mouser, Some last_used =>
      Some (mpn,
            {| Type_ := type_; Value := value;
               Voltage := get_or_empty row (lit "Voltage");
               Tolerance := get_or_empty row (lit "Tolerance");
               Extra := get_or_empty row (lit "Extra");
               Footprint := footprint;
               Stock := get_or_empty row (lit "Stock");
               Manufacturer := get_or_empty row (lit "Manufacturer");
               MPN := mpn; Digikey_PN := digikey; Mouser_PN := mouser;
               Description := get_or_empty row (lit "Description");
               Symbol := get_or_empty row (lit "Symbol");
               Datasheet := get_or_empty row (lit "Datasheet");
               Projects := projects_of used; Last_Used := last_used |})
  | _, _, _, _, _, _, _, _ => None
  end.

(** The loop of [load_master_csv] over the rows of the file. *)
Definition load_rows (rows : list (dict str)) : option (dict Part) :=
  fold_left
    (fun parts row =>
       match parts, part_of_row row with
       | Some parts, Some (mpn, part) => Some (dict_set parts mpn part)
       | _, _ => None
       end)
    rows (Some []).

(** A part with another set of projects. *)
Definition with_projects (part : Part) (projects : list str) : Part :=
  {| Type_ := Type_ part; Value := Value part; Voltage := Voltage part;
     Tolerance := Tolerance part; Extra := Extra part;
     Footprint := Footprint part; Stock := Stock part;
     Manufacturer := Manufacturer part; MPN := MPN part;
     Digikey_PN := Digikey_PN part; Mouser_PN := Mouser_PN part;
     Description := Description part; Symbol := Symbol part;
     Datasheet := Datasheet part; Projects := projects;
     Last_Used := Last_Used part |}.

(** A set of project names that the [Used In] column can hold: no name
    twice, no empty name, no name with a comma and a space in it. *)
Definition writable_projects (projects : list str) : Prop :=
  NoDup projects /\
  Forall (fun p => p <> [] /\ ~ segment (lit ", ") p) projects.

(* ================================================================== *)
(** * Part II: properties *)
(* ================================================================== *)

Unset Implicit Arguments.

(** ** Strings and dictionaries *)

Lemma str_eqb_refl (a : str) : str_eqb a a = true.
Proof.
  induction a as [|x a IH]; simpl; auto.
  rewrite N.eqb_refl; exact IH.
Qed.

Lemma str_eqb_eq (a b : str) : str_eqb a b = true <-> a = b.
Proof.
  split.
  - revert b; induction a as [|x a IH]; intros [|y b] H; simpl in H;
      try discriminate; auto.
    apply andb_true_iff in H as [Hx Hr].
    apply N.eqb_eq in Hx; subst; f_equal; auto.
  - intros ->; apply str_eqb_refl.
Qed.

Lemma str_eqb_neq (a b : str) : str_eqb a b = false <-> a <> b.
Proof.
  split.
  - intros H E; apply str_eqb_eq in E; congruence.
  - intros H; destruct (str_eqb a b) eqn:E; auto.
    apply str_eqb_eq in E; contradiction.
Qed.

Lemma str_eqb_sym (a b : str) : str_eqb a b = str_eqb b a.
Proof.
  destruct (str_eqb a b) eqn:E.
  - apply str_eqb_eq in E; subst; symmetry; apply str_eqb_refl.
  - symmetry; apply str_eqb_neq; apply str_eqb_neq in E; congruence.
Qed.

Lemma truthy_false (s : str) : truthy s = false <-> s = [].
Proof. destruct s; simpl; split; congruence. Qed.

Lemma truthy_true (s : str) : truthy s = true <-> s <> [].
Proof. destruct s; simpl; split; congruence. Qed.

Lemma mem_str_In (s : str) (l : list str) : mem_str s l = true <-> In s l.
Proof.
  unfold mem_str; rewrite existsb_exists; split.
  - intros (x & Hx & E); apply str_eqb_eq in E; subst; auto.
  - intros H; exists s; split; auto using str_eqb_refl.
Qed.

Section DictFacts.
Context {V : Type}.
Implicit Types (d : dict V) (k : str) (v : V).

Lemma dict_get_set_same d k v : dict_get (dict_set d k v) k = Some v.
Proof.
  induction d as [|[k' v'] d IH]; simpl.
  - now rewrite str_eqb_refl.
  - destruct (str_eqb k k') eqn:E; simpl; rewrite E; auto.
Qed.

Lemma dict_get_set_other d k k' v :
  k <> k' -> dict_get (dict_set d k v) k' = dict_get d k'.
Proof.
  intros Hne; induction d as [|[k1 v1] d IH]; simpl.
  - assert (str_eqb k' k = false) as -> by (apply str_eqb_neq; congruence).
    reflexivity.
  - destruct (str_eqb k k1) eqn:E; simpl.
    + apply str_eqb_eq in E; subst k1.
      assert (str_eqb k' k = false) as -> by (apply str_eqb_neq; congruence).
      reflexivity.
    + destruct (str_eqb k' k1); auto.
Qed.

Lemma dict_get_In d k v : dict_get d k = Some v -> In (k, v) d.
Proof.
  induction d as [|[k' v'] d IH]; simpl; [discriminate|].
  destruct (str_eqb k k') eqn:E.
  - apply str_eqb_eq in E; subst; intros [= ->]; auto.
  - auto.
Qed.

Lemma dict_get_None d k : dict_get d k = None <-> ~ In k (List.map fst d).
Proof.
  induction d as [|[k' v'] d IH]; simpl; [tauto|].
  destruct (str_eqb k k') eqn:E.
  - apply str_eqb_eq in E; subst; split; [discriminate|tauto].
  - apply str_eqb_neq in E; rewrite IH; split; [intros H [H1|H1]|]; auto;
      try congruence; tauto.
Qed.

Lemma dict_get_Some_key d k v :
  dict_get d k = Some v -> In k (List.map fst d).
Proof.
  intros H; destruct (in_dec (list_eq_dec N.eq_dec) k (List.map fst d)); auto.
  apply dict_get_None in n; congruence.
Qed.

(** Assigning to a key that is present keeps the keys and their order. *)
Lemma dict_set_keys_present d k v :
  In k (List.map fst d) -> List.map fst (dict_set d k v) = List.map fst d.
Proof.
  induction d as [|[k' v'] d IH]; simpl; [tauto|].
  intros H; destruct (str_eqb k k') eqn:E; simpl; auto.
  apply str_eqb_neq in E; f_equal; apply IH; destruct H; congruence.
Qed.

(** Assigning to a new key appends it. *)
Lemma dict_set_keys_absent d k v :
  ~ In k (List.map fst d) ->
  List.map fst (dict_set d k v) = List.map fst d ++ [k].
Proof.
  induction d as [|[k' v'] d IH]; simpl; auto.
  intros H; destruct (str_eqb k k') eqn:E; simpl.
  - apply str_eqb_eq in E; subst; tauto.
  - f_equal; apply IH; tauto.
Qed.

Lemma dict_set_NoDup d k v :
  NoDup (List.map fst d) -> NoDup (List.map fst (dict_set d k v)).
Proof.
  intros H; destruct (in_dec (list_eq_dec N.eq_dec) k (List.map fst d)).
  - rewrite dict_set_keys_present; auto.
  - rewrite dict_set_keys_absent; auto.
    apply NoDup_rev in H; rewrite <- (rev_involutive (_ ++ _)).
    apply NoDup_rev; rewrite rev_app_distr; simpl; constructor; auto.
    rewrite <- in_rev; auto.
Qed.

Lemma dict_set_absent d k v :
  dict_get d k = None -> dict_set d k v = d ++ [(k, v)].
Proof.
  induction d as [|[k' v'] d IH]; simpl; auto.
  destruct (str_eqb k k'); [discriminate|].
  intros H; f_equal; auto.
Qed.

End DictFacts.

(** ** Merge engine *)

Arguments merge_part : simpl never.

Lemma merge_part_total (st : merge_state) (mpn : str) (new_part : Part) :
  Projects new_part <> [] -> exists st', merge_part st (mpn, new_part) = Ok st'.
Proof.
  intros Hp; destruct st as [[m ch] er]; unfold merge_part.
  destruct (dict_get m mpn) as [existing|]; [|eauto].
  destruct (_ || _); [eauto|].
  destruct (update_fields existing new_part) as [e' u].
  destruct (Projects new_part) as [|np ?]; [congruence|].
  destruct (negb _); [eauto|]. destruct u; eauto.
Qed.

Lemma merge_loop_total (items : list (str * Part)) :
  nonempty_projects items ->
  forall st, exists st', merge_loop st items = Ok st'.
Proof.
  induction 1 as [|[k p] items Hp _ IH]; intros st; simpl; [eauto|].
  destruct (merge_part_total st k p Hp) as [st1 ->]. apply IH.
Qed.

(** One step leaves the records and the conflicts of the other part
    numbers alone. *)
Lemma merge_part_other (m m' : dict Part) ch ch' er er' k p mpn :
  k <> mpn ->
  merge_part (m, ch, er) (k, p) = Ok (m', ch', er') ->
  dict_get m' mpn = dict_get m mpn /\
  conflicts_for mpn er' = conflicts_for mpn er.
Proof.
  intros Hne; unfold merge_part.
  assert (Hf : forall c, c_mpn c = k ->
             conflicts_for mpn (er ++ [c]) = conflicts_for mpn er).
  { intros c Hc; unfold conflicts_for; rewrite filter_app; simpl.
    assert (str_eqb (c_mpn c) mpn = false) as ->
        by (apply str_eqb_neq; congruence).
    apply app_nil_r. }
  destruct (dict_get m k) as [existing|].
  - destruct (_ || _).
    + intros [= <- <- <-]; split; auto.
    + destruct (update_fields existing p) as [e' u].
      destruct (Projects p) as [|np ?]; [discriminate|].
      destruct (negb _); [|destruct u]; intros [= <- <- <-];
        split; auto using dict_get_set_other.
  - intros [= <- <- <-]; split; auto using dict_get_set_other.
Qed.

Lemma merge_loop_other (items : list (str * Part)) mpn :
  ~ In mpn (List.map fst items) ->
  forall m ch er m' ch' er',
    merge_loop (m, ch, er) items = Ok (m', ch', er') ->
    dict_get m' mpn = dict_get m mpn /\
    conflicts_for mpn er' = conflicts_for mpn er.
Proof.
  induction items as [|[k p] items IH]; simpl; intros Hn m ch er m' ch' er'.
  - intros [= ? ? ?]; subst; auto.
  - destruct (merge_part (m, ch, er) (k, p)) as [[[m1 ch1] er1]|] eqn:E;
      [|discriminate].
    intros H; apply IH in H; [|tauto].
    apply merge_part_other with (mpn := mpn) in E; [|tauto].
    destruct H as [-> ->]; exact E.
Qed.

(** The keys of [new_data] are distinct, so the record of [mpn] is decided
    by the one step that handles [mpn]. *)
Lemma merge_loop_focus (items : list (str * Part)) mpn new_part :
  NoDup (List.map fst items) ->
  In (mpn, new_part) items ->
  forall m ch er m' ch' er',
    merge_loop (m, ch, er) items = Ok (m', ch', er') ->
    exists m1 ch1 er1 m2 ch2 er2,
      dict_get m1 mpn = dict_get m mpn /\
      conflicts_for mpn er1 = conflicts_for mpn er /\
      merge_part (m1, ch1, er1) (mpn, new_part) = Ok (m2, ch2, er2) /\
      dict_get m' mpn = dict_get m2 mpn /\
      conflicts_for mpn er' = conflicts_for mpn er2.
Proof.
  induction items as [|[k p] items IH]; simpl; intros Hnd Hin; [tauto|].
  inversion Hnd as [|? ? Hk Hnd']; subst.
  intros m ch er m' ch' er'.
  destruct (merge_part (m, ch, er) (k, p)) as [[[m1 ch1] er1]|] eqn:E;
    [|discriminate].
  intros Hl; destruct Hin as [[= -> ->]|Hin].
  - apply merge_loop_other with (mpn := mpn) in Hl; auto.
    exists m, ch, er, m1, ch1, er1; tauto.
  - assert (k <> mpn).
    { intros ->; apply Hk; change mpn with (fst (mpn, new_part));
        now apply in_map. }
    destruct (IH Hnd' Hin _ _ _ _ _ _ Hl)
      as (ma & cha & era & mb & chb & erb & H1 & H2 & H3 & H4 & H5).
    apply merge_part_other with (mpn := mpn) in E; auto.
    destruct E as [E1 E2].
    exists ma, cha, era, mb, chb, erb; repeat split; auto; congruence.
Qed.

(** A merge keeps the inventory a dictionary and never removes a key. *)
Lemma merge_part_keys (m m' : dict Part) ch ch' er er' k p :
  merge_part (m, ch, er) (k, p) = Ok (m', ch', er') ->
  (NoDup (List.map fst m) -> NoDup (List.map fst m')) /\
  (forall mpn, In mpn (List.map fst m) -> In mpn (List.map fst m')) /\
  (In k (List.map fst m) -> List.map fst m' = List.map fst m).
Proof.
  unfold merge_part; destruct (dict_get m k) as [existing|] eqn:G.
  - apply dict_get_Some_key in G.
    destruct (_ || _).
    + intros [= <- <- <-]; auto.
    + destruct (update_fields existing p) as [e' u].
      destruct (Projects p) as [|np ?]; [discriminate|].
      destruct (negb _); [|destruct u]; intros [= <- <- <-];
        rewrite dict_set_keys_present; auto.
  - intros [= <- <- <-]; apply dict_get_None in G.
    rewrite dict_set_keys_absent by auto.
    repeat split; try tauto.
    + intros H; apply NoDup_rev in H; rewrite <- (rev_involutive (_ ++ _)).
      apply NoDup_rev; rewrite rev_app_distr; simpl; constructor; auto.
      rewrite <- in_rev; auto.
    + intros; apply in_or_app; auto.
Qed.

Lemma merge_loop_keys (items : list (str * Part)) :
  forall m ch er m' ch' er',
    merge_loop (m, ch, er) items = Ok (m', ch', er') ->
    (NoDup (List.map fst m) -> NoDup (List.map fst m')) /\
    (forall mpn, In mpn (List.map fst m) -> In mpn (List.map fst m')).
Proof.
  induction items as [|[k p] items IH]; simpl; intros m ch er m' ch' er'.
  - intros [= ? ? ?]; subst; auto.
  - destruct (merge_part (m, ch, er) (k, p)) as [[[m1 ch1] er1]|] eqn:E;
      [|discriminate].
    intros H; apply IH in H; apply merge_part_keys in E.
    destruct H as [H1 H2], E as (E1 & E2 & _); split; auto.
Qed.

Lemma fill_fst (existing new : str) (updated : bool) :
  fst (fill existing new updated) = filled existing new.
Proof. unfold fill, filled; destruct (_ && _); reflexivity. Qed.

Lemma filled_fill_only (existing new : str) :
  fill_only existing new (filled existing new).
Proof.
  unfold fill_only, filled; destruct existing, new; simpl; split; congruence.
Qed.

(** What [update_fields] writes and what it leaves alone. *)
Lemma update_fields_spec (existing new_part : Part) :
  let e := fst (update_fields existing new_part) in
  Mouser_PN e = filled (Mouser_PN existing) (Mouser_PN new_part) /\
  Digikey_PN e = filled (Digikey_PN existing) (Digikey_PN new_part) /\
  Voltage e = filled (Voltage existing) (Voltage new_part) /\
  Tolerance e = filled (Tolerance existing) (Tolerance new_part) /\
  Manufacturer e = filled (Manufacturer existing) (Manufacturer new_part) /\
  Datasheet e = filled (Datasheet existing) (Datasheet new_part) /\
  Extra e = filled (Extra existing) (Extra new_part) /\
  Stock e = Stock existing /\
  Projects e = Projects existing /\
  Last_Used e = Last_Used existing.
Proof.
  unfold update_fields.
  repeat match goal with
         | |- context [fill ?a ?b ?u] =>
             let E := fresh "E" in
             destruct (fill a b u) eqn:E;
             apply (f_equal fst) in E; rewrite fill_fst in E; simpl in E
         end.
  repeat match goal with
         | |- context [refresh ?a ?b ?u] => destruct (refresh a b u)
         end.
  simpl; subst; repeat split; reflexivity.
Qed.

(** The step of [merge_data] on a record that conflicts with the stored
    one. *)
Lemma merge_part_conflict (m : dict Part) ch er mpn new_part existing :
  dict_get m mpn = Some existing ->
  Value existing <> Value new_part \/ Footprint existing <> Footprint new_part ->
  merge_part (m, ch, er) (mpn, new_part)
  = Ok (m, ch,
        er ++ [mkConflict mpn (Value existing) (Footprint existing)
                 (Value new_part) (Footprint new_part)]).
Proof.
  intros G H; unfold merge_part; rewrite G.
  assert (negb (str_eqb (Value existing) (Value new_part))
          || negb (str_eqb (Footprint existing) (Footprint new_part)) = true) as ->.
  { apply orb_true_iff; destruct H as [H|H]; [left|right];
      apply negb_true_iff, str_eqb_neq; exact H. }
  reflexivity.
Qed.

(** The step of [merge_data] on a record that agrees with the stored
    one. *)
Lemma merge_part_consistent (m m' : dict Part) ch ch' er er' mpn new_part
  existing new_proj rest :
  dict_get m mpn = Some existing ->
  consistent existing new_part ->
  Projects new_part = new_proj :: rest ->
  merge_part (m, ch, er) (mpn, new_part) = Ok (m', ch', er') ->
  let e := fst (update_fields existing new_part) in
  er' = er /\
  dict_get m' mpn =
    Some (if mem_str new_proj (Projects existing)
          then e else add_project e new_part new_proj).
Proof.
  intros G [Hv Hf] Hp; unfold merge_part; rewrite G, Hv, Hf, !str_eqb_refl.
  simpl. pose proof (update_fields_spec existing new_part) as S.
  destruct (update_fields existing new_part) as [e u]; simpl in *.
  destruct S as (_ & _ & _ & _ & _ & _ & _ & _ & SP & _).
  rewrite Hp, SP.
  destruct (mem_str new_proj (Projects existing)); simpl;
    [destruct u|]; intros [= ? ? ?]; subst; split; auto;
    apply dict_get_set_same.
Qed.

Lemma records_of_unique (d : dict Part) (mpn : str) (p : Part) :
  NoDup (List.map fst d) -> dict_get d mpn = Some p ->
  records_of mpn d = [(mpn, p)].
Proof.
  induction d as [|[k v] d IH]; simpl; [discriminate|].
  intros Hnd; inversion Hnd as [|? ? Hk Hnd']; subst.
  rewrite (str_eqb_sym k mpn).
  destruct (str_eqb mpn k) eqn:E.
  - apply str_eqb_eq in E; subst k; intros [= ->]; f_equal.
    unfold records_of.
    assert (forall x, In x d -> str_eqb (fst x) mpn = false) as H.
    { intros x Hx; apply str_eqb_neq; intros <-; apply Hk.
      now apply in_map. }
    clear -H; induction d as [|x d IH]; simpl; auto.
    rewrite H by (left; auto). apply IH; intros; apply H; right; auto.
  - intros G; apply IH; auto.
Qed.

(** Claim C1.  When an incoming record has a part number that is already in
    the inventory but its value or its footprint differs from the stored
    record, [merge_data] returns, its conflict log holds exactly one entry
    for that part number (naming both pairs of value and footprint), and
    the stored record is unchanged in every field. *)
Theorem merge_conflict_keeps_record
  (master_data new_data : dict Part) (mpn : str) (new_part existing : Part) :
  NoDup (List.map fst new_data) ->
  nonempty_projects new_data ->
  In (mpn, new_part) new_data ->
  dict_get master_data mpn = Some existing ->
  Value existing <> Value new_part \/ Footprint existing <> Footprint new_part ->
  exists master' changes errors,
    merge_data master_data new_data = Ok (master', changes, errors) /\
    dict_get master' mpn = Some existing /\
    conflicts_for mpn errors
    = [mkConflict mpn (Value existing) (Footprint existing)
         (Value new_part) (Footprint new_part)].
Proof.
  intros Hnd Hne Hin G Hdiff; unfold merge_data.
  destruct (merge_loop_total new_data Hne (master_data, [], []))
    as [[[m' ch'] er'] Hm].
  exists m', ch', er'; split; [exact Hm|].
  destruct (merge_loop_focus new_data mpn new_part Hnd Hin _ _ _ _ _ _ Hm)
    as (m1 & ch1 & er1 & m2 & ch2 & er2 & H1 & H2 & H3 & H4 & H5).
  rewrite G in H1.
  rewrite (merge_part_conflict m1 ch1 er1 mpn new_part existing H1 Hdiff) in H3.
  injection H3 as <- <- <-.
  split; [congruence|].
  rewrite H5; unfold conflicts_for in *; rewrite filter_app, H2; simpl.
  now rewrite str_eqb_refl.
Qed.

Lemma merge_conflict_keeps_record_witness :
  exists master' changes errors,
    merge_data sample_master [(lit "RC0402-4K7", scanned_r1_0603)]
    = Ok (master', changes, errors) /\
    dict_get master' (lit "RC0402-4K7") = Some stored_r1 /\
    conflicts_for (lit "RC0402-4K7") errors
    = [mkConflict (lit "RC0402-4K7") (Value stored_r1) (Footprint stored_r1)
         (Value scanned_r1_0603) (Footprint scanned_r1_0603)].
Proof.
  apply (merge_conflict_keeps_record sample_master
           [(lit "RC0402-4K7", scanned_r1_0603)] (lit "RC0402-4K7")
           scanned_r1_0603 stored_r1).
  - repeat constructor; simpl; tauto.
  - repeat constructor; simpl; discriminate.
  - simpl; tauto.
  - reflexivity.
  - right; vm_compute; discriminate.
Defined.

(** Stock is never written: one step keeps the stock of every stored
    record. *)
Lemma merge_part_stock (m m' : dict Part) ch ch' er er' k p :
  merge_part (m, ch, er) (k, p) = Ok (m', ch', er') ->
  forall mpn q, dict_get m mpn = Some q ->
    exists q', dict_get m' mpn = Some q' /\ Stock q' = Stock q.
Proof.
  intros H mpn q G.
  destruct (list_eq_dec N.eq_dec k mpn) as [->|Hne].
  - unfold merge_part in H; rewrite G in H.
    destruct (_ || _).
    + injection H as <- <- <-; eauto.
    + pose proof (update_fields_spec q p) as S.
      destruct (update_fields q p) as [e u]; simpl in S.
      destruct S as (_ & _ & _ & _ & _ & _ & _ & SS & _).
      destruct (Projects p) as [|np ?]; [discriminate|].
      destruct (negb _); [|destruct u]; injection H as <- <- <-;
        rewrite dict_get_set_same; eauto.
  - apply merge_part_other with (mpn := mpn) in H; auto.
    destruct H as [-> _]; eauto.
Qed.

Lemma merge_loop_stock (items : list (str * Part)) :
  forall m ch er m' ch' er',
    merge_loop (m, ch, er) items = Ok (m', ch', er') ->
    forall mpn q, dict_get m mpn = Some q ->
      exists q', dict_get m' mpn = Some q' /\ Stock q' = Stock q.
Proof.
  induction items as [|[k p] items IH]; simpl; intros m ch er m' ch' er'.
  - intros [= ? ? ?]; subst; eauto.
  - destruct (merge_part (m, ch, er) (k, p)) as [[[m1 ch1] er1]|] eqn:E;
      [|discriminate].
    intros H mpn q G.
    destruct (merge_part_stock _ _ _ _ _ _ _ _ E mpn q G) as (q1 & G1 & S1).
    destruct (IH _ _ _ _ _ _ H mpn q1 G1) as (q2 & G2 & S2).
    exists q2; split; auto; congruence.
Qed.

(** Claim C2.  [merge_data] returns, and (1) after it every record that
    was stored is still stored with the stock it had; (2) for an incoming
    record whose part number is stored with the same value and footprint,
    each of Mouser PN, Digikey PN, Voltage, Tolerance, Manufacturer,
    Datasheet and Extra ends as the incoming text where the stored text
    was empty and as the stored text where it was not. *)
Theorem merge_fill_only_and_stock (master_data new_data : dict Part) :
  NoDup (List.map fst new_data) ->
  nonempty_projects new_data ->
  exists master' changes errors,
    merge_data master_data new_data = Ok (master', changes, errors) /\
    (forall mpn q, dict_get master_data mpn = Some q ->
       exists q', dict_get master' mpn = Some q' /\ Stock q' = Stock q) /\
    (forall mpn new_part existing,
       In (mpn, new_part) new_data ->
       dict_get master_data mpn = Some existing ->
       consistent existing new_part ->
       exists e,
         dict_get master' mpn = Some e /\
         fill_only (Mouser_PN existing) (Mouser_PN new_part) (Mouser_PN e) /\
         fill_only (Digikey_PN existing) (Digikey_PN new_part) (Digikey_PN e) /\
         fill_only (Voltage existing) (Voltage new_part) (Voltage e) /\
         fill_only (Tolerance existing) (Tolerance new_part) (Tolerance e) /\
         fill_only (Manufacturer existing) (Manufacturer new_part)
           (Manufacturer e) /\
         fill_only (Datasheet existing) (Datasheet new_part) (Datasheet e) /\
         fill_only (Extra existing) (Extra new_part) (Extra e)).
Proof.
  intros Hnd Hne; unfold merge_data.
  destruct (merge_loop_total new_data Hne (master_data, [], []))
    as [[[m' ch'] er'] Hm].
  exists m', ch', er'; split; [exact Hm|]; split.
  - exact (merge_loop_stock new_data _ _ _ _ _ _ Hm).
  - intros mpn new_part existing Hin G Hc.
    destruct (merge_loop_focus new_data mpn new_part Hnd Hin _ _ _ _ _ _ Hm)
      as (m1 & ch1 & er1 & m2 & ch2 & er2 & H1 & _ & H3 & H4 & _).
    rewrite G in H1.
    assert (Hp : exists np rest, Projects new_part = np :: rest).
    { unfold nonempty_projects in Hne; rewrite Forall_forall in Hne.
      specialize (Hne _ Hin); simpl in Hne.
      destruct (Projects new_part) as [|np rest]; [congruence|eauto]. }
    destruct Hp as (np & rest & Hp).
    destruct (merge_part_consistent _ _ _ _ _ _ _ _ _ _ _ H1 Hc Hp H3)
      as [_ H2].
    rewrite H4, H2.
    pose proof (update_fields_spec existing new_part) as S; simpl in S.
    destruct S as (S1 & S2 & S3 & S4 & S5 & S6 & S7 & _).
    eexists; split; [reflexivity|].
    destruct (mem_str np (Projects existing)); simpl;
      rewrite S1, S2, S3, S4, S5, S6, S7;
      repeat split; apply filled_fill_only.
Qed.

Lemma merge_fill_only_and_stock_witness :
  exists master' changes errors,
    merge_data sample_master [(lit "RC0402-4K7", scanned_r1)]
    = Ok (master', changes, errors) /\
    (forall mpn q, dict_get sample_master mpn = Some q ->
       exists q', dict_get master' mpn = Some q' /\ Stock q' = Stock q) /\
    (forall mpn new_part existing,
       In (mpn, new_part) [(lit "RC0402-4K7", scanned_r1)] ->
       dict_get sample_master mpn = Some existing ->
       consistent existing new_part ->
       exists e,
         dict_get master' mpn = Some e /\
         fill_only (Mouser_PN existing) (Mouser_PN new_part) (Mouser_PN e) /\
         fill_only (Digikey_PN existing) (Digikey_PN new_part) (Digikey_PN e) /\
         fill_only (Voltage existing) (Voltage new_part) (Voltage e) /\
         fill_only (Tolerance existing) (Tolerance new_part) (Tolerance e) /\
         fill_only (Manufacturer existing) (Manufacturer new_part)
           (Manufacturer e) /\
         fill_only (Datasheet existing) (Datasheet new_part) (Datasheet e) /\
         fill_only (Extra existing) (Extra new_part) (Extra e)).
Proof.
  apply (merge_fill_only_and_stock sample_master
           [(lit "RC0402-4K7", scanned_r1)]).
  - repeat constructor; simpl; tauto.
  - repeat constructor; simpl; discriminate.
Defined.

(** Claim C6.  For an incoming record of project [new_proj] whose part
    number is stored with the same value and footprint, [merge_data]
    returns and the inventory still has exactly one row for the part
    number.  When the project is not in the stored set it is added, and the
    date becomes the incoming one exactly when the stored date is
    lexically smaller; when the project is already in the set, the set and
    the date stay as they were. *)
Theorem merge_project_membership
  (master_data new_data : dict Part) (mpn new_proj : str)
  (new_part existing : Part) :
  NoDup (List.map fst master_data) ->
  NoDup (List.map fst new_data) ->
  nonempty_projects new_data ->
  In (mpn, new_part) new_data ->
  dict_get master_data mpn = Some existing ->
  consistent existing new_part ->
  Projects new_part = [new_proj] ->
  exists master' changes errors e,
    merge_data master_data new_data = Ok (master', changes, errors) /\
    records_of mpn master' = [(mpn, e)] /\
    (~ In new_proj (Projects existing) ->
       Projects e = Projects existing ++ [new_proj] /\
       (str_ltb (Last_Used existing) (Last_Used new_part) = true ->
          Last_Used e = Last_Used new_part) /\
       (str_ltb (Last_Used existing) (Last_Used new_part) = false ->
          Last_Used e = Last_Used existing)) /\
    (In new_proj (Projects existing) ->
       Projects e = Projects existing /\ Last_Used e = Last_Used existing).
Proof.
  intros Hm0 Hnd Hne Hin G Hc Hp; unfold merge_data.
  destruct (merge_loop_total new_data Hne (master_data, [], []))
    as [[[m' ch'] er'] Hm].
  destruct (merge_loop_focus new_data mpn new_part Hnd Hin _ _ _ _ _ _ Hm)
    as (m1 & ch1 & er1 & m2 & ch2 & er2 & H1 & _ & H3 & H4 & _).
  rewrite G in H1.
  destruct (merge_part_consistent _ _ _ _ _ _ _ _ _ _ _ H1 Hc Hp H3)
    as [_ H2].
  rewrite H2 in H4.
  pose proof (update_fields_spec existing new_part) as S; simpl in S.
  destruct S as (_ & _ & _ & _ & _ & _ & _ & _ & SP & SL).
  destruct (merge_loop_keys new_data _ _ _ _ _ _ Hm) as [Hk _].
  eexists m', ch', er', _; split; [exact Hm|]; split.
  { apply records_of_unique; [auto|exact H4]. }
  split; intros Hmem.
  - assert (mem_str new_proj (Projects existing) = false) as ->.
    { destruct (mem_str _ _) eqn:E; auto; apply mem_str_In in E; tauto. }
    simpl; rewrite SP, SL; repeat split; intros ->; reflexivity.
  - apply mem_str_In in Hmem; rewrite Hmem; auto.
Qed.

Lemma merge_project_membership_witness :
  exists master' changes errors e,
    merge_data sample_master [(lit "RC0402-4K7", scanned_r1)]
    = Ok (master', changes, errors) /\
    records_of (lit "RC0402-4K7") master' = [(lit "RC0402-4K7", e)] /\
    (~ In (lit "psu") (Projects stored_r1) ->
       Projects e = Projects stored_r1 ++ [lit "psu"] /\
       (str_ltb (Last_Used stored_r1) (Last_Used scanned_r1) = true ->
          Last_Used e = Last_Used scanned_r1) /\
       (str_ltb (Last_Used stored_r1) (Last_Used scanned_r1) = false ->
          Last_Used e = Last_Used stored_r1)) /\
    (In (lit "psu") (Projects stored_r1) ->
       Projects e = Projects stored_r1 /\ Last_Used e = Last_Used stored_r1).
Proof.
  apply (merge_project_membership sample_master
           [(lit "RC0402-4K7", scanned_r1)] (lit "RC0402-4K7") (lit "psu")
           scanned_r1 stored_r1).
  - repeat constructor; simpl; tauto.
  - repeat constructor; simpl; tauto.
  - repeat constructor; simpl; discriminate.
  - simpl; tauto.
  - reflexivity.
  - split; reflexivity.
  - reflexivity.
Defined.

(** ** De-duplication in the record parser *)

Lemma add_component_keyed (components : dict attrs) (props : attrs) :
  keyed_by_base components -> keyed_by_base (add_component components props).
Proof.
  intros [Hnd Hk]; unfold add_component; fold (base_id props).
  unfold dict_mem; destruct (dict_get components (base_id props)) eqn:G; simpl.
  - split; auto.
  - split; [now apply dict_set_NoDup|].
    rewrite dict_set_absent by exact G.
    apply Forall_app; split; auto.
Qed.

Lemma add_component_get (components : dict attrs) (props : attrs) (b : str) :
  dict_get (add_component components props) b =
  match dict_get components b with
  | Some p => Some p
  | None => if str_eqb (base_id props) b then Some props else None
  end.
Proof.
  unfold add_component; fold (base_id props); unfold dict_mem.
  destruct (dict_get components (base_id props)) eqn:G; simpl.
  - destruct (dict_get components b) eqn:Gb; auto.
    destruct (str_eqb (base_id props) b) eqn:E; auto.
    apply str_eqb_eq in E; congruence.
  - destruct (str_eqb (base_id props) b) eqn:E.
    + apply str_eqb_eq in E; subst b; rewrite dict_get_set_same, G; auto.
    + apply str_eqb_neq in E; rewrite dict_get_set_other by exact E.
      destruct (dict_get components b); auto.
Qed.

(** The loop of [parse_schematic_file], from any dictionary: a base id
    keeps the record it has, and otherwise gets the first instance that
    has it. *)
Lemma collect_loop (blocks : list str) (b : str) :
  forall components,
    keyed_by_base components ->
    let out :=
      fold_left
        (fun components inst =>
           match inst with
           | Some props => add_component components props
           | None => components
           end)
        (List.map instance_of_block blocks) components in
    keyed_by_base out /\
    dict_get out b =
    match dict_get components b with
    | Some p => Some p
    | None =>
        find (fun p => str_eqb (base_id p) b)
          (flat_map (fun t => some_list (instance_of_block t)) blocks)
    end.
Proof.
  induction blocks as [|t blocks IH]; simpl; intros components Hk.
  - split; auto. destruct (dict_get components b); auto.
  - destruct (instance_of_block t) as [props|]; simpl.
    + destruct (IH (add_component components props)
                  (add_component_keyed _ _ Hk)) as [H1 H2].
      split; auto. rewrite H2, add_component_get.
      destruct (dict_get components b); auto.
      destruct (str_eqb (base_id props) b); auto.
    + apply IH; auto.
Qed.

Lemma values_with_base (components : dict attrs) (b : str) :
  keyed_by_base components ->
  List.filter (fun p => str_eqb (base_id p) b) (dict_values components)
  = some_list (dict_get components b).
Proof.
  intros [Hnd Hk]; induction components as [|[k p] d IH]; simpl; auto.
  inversion Hnd as [|? ? Hn Hnd']; inversion Hk as [|? ? Hp Hk']; subst.
  simpl in Hp; rewrite Hp, (str_eqb_sym k b).
  destruct (str_eqb b k) eqn:E.
  - apply str_eqb_eq in E; simpl; f_equal.
    rewrite IH by auto.
    destruct (dict_get d b) eqn:G; auto.
    apply dict_get_Some_key in G; rewrite <- E in Hn; contradiction.
  - apply IH; auto.
Qed.


(** ** De-duplication in the project scan *)

Lemma record_part_present (extracted : dict Part) warnings refdes part_data
  existing :
  dict_get extracted (MPN part_data) = Some existing ->
  fst (record_part (extracted, warnings) refdes part_data) = extracted.
Proof.
  intros G; unfold record_part; rewrite G.
  destruct (_ || _); reflexivity.
Qed.

Lemma record_part_keeps (extracted : dict Part) warnings refdes part_data
  mpn existing :
  dict_get extracted mpn = Some existing ->
  dict_get (fst (record_part (extracted, warnings) refdes part_data)) mpn
  = Some existing.
Proof.
  intros G; unfold record_part.
  destruct (dict_get extracted (MPN part_data)) eqn:G1.
  - destruct (_ || _); exact G.
  - simpl; rewrite dict_get_set_other; auto.
    intros E; rewrite E in G1; congruence.
Qed.

Section ScanFacts.
Variable strftime_date : float -> str.
Variable today : str.
Variable project_name : str.

Lemma scan_components_keep (found : list attrs) (mpn : str) (existing : Part) :
  forall latest (st : scan_state),
    dict_get (fst st) mpn = Some existing ->
    dict_get
      (fst (fold_left
              (scan_component strftime_date today project_name latest)
              found st)) mpn
    = Some existing.
Proof.
  induction found as [|props found IH]; simpl; intros latest st G; auto.
  apply IH; unfold scan_component.
  destruct (part_data_of _ _ props) as [[refdes pd]|]; auto.
  destruct st as [extracted warnings]; now apply record_part_keeps.
Qed.

Lemma scan_sheets_keep (sheets : list (float * str)) (mpn : str)
  (existing : Part) :
  forall latest (st : scan_state),
    dict_get (fst st) mpn = Some existing ->
    dict_get
      (fst (snd (fold_left (scan_sheet strftime_date today project_name)
                   sheets (latest, st)))) mpn
    = Some existing.
Proof.
  induction sheets as [|[mtime content] sheets IH]; simpl; intros latest st G;
    auto.
  apply IH; now apply scan_components_keep.
Qed.

(** Claim C10.  Once a part number is recorded in a scan, an observation
    of the same part number leaves [extracted_parts] as it is, whatever
    its fields are and whether or not its value and footprint agree with
    the record; and the record stays the one first stored through the
    rest of the scan. *)
Theorem scan_keeps_first_seen (extracted : dict Part)
  (warnings : list scan_warning) (mpn : str) (existing : Part) :
  dict_get extracted mpn = Some existing ->
  (forall latest props refdes part_data,
     part_data_of project_name (date_str_of strftime_date today latest) props
     = Some (refdes, part_data) ->
     MPN part_data = mpn ->
     fst (scan_component strftime_date today project_name latest
          (extracted, warnings) props) = extracted) /\
  (forall latest sheets,
     dict_get
       (fst (snd (fold_left (scan_sheet strftime_date today project_name)
                    sheets (latest, (extracted, warnings))))) mpn
     = Some existing).
Proof.
  intros G; split.
  - intros latest props refdes pd Hpd Hm.
    unfold scan_component; rewrite Hpd.
    apply record_part_present with (existing := existing); congruence.
  - intros latest sheets; now apply scan_sheets_keep.
Qed.

End ScanFacts.

Lemma scan_keeps_first_seen_witness :
  (forall latest props refdes part_data,
     part_data_of (lit "amp") (date_str_of sample_date [] latest) props
     = Some (refdes, part_data) ->
     MPN part_data = lit "CL05B104" ->
     fst (scan_component sample_date [] (lit "amp") latest
            ([(lit "CL05B104", first_seen_part)], []) props)
     = [(lit "CL05B104", first_seen_part)]) /\
  (forall latest sheets,
     dict_get
       (fst (snd (fold_left (scan_sheet sample_date [] (lit "amp")) sheets
                    (latest, ([(lit "CL05B104", first_seen_part)], [])))))
       (lit "CL05B104")
     = Some first_seen_part).
Proof.
  apply (scan_keeps_first_seen sample_date [] (lit "amp")
           [(lit "CL05B104", first_seen_part)] [] (lit "CL05B104")
           first_seen_part).
  reflexivity.
Defined.

(** The sample observations: the second one has the value and footprint of
    the first and brings a Mouser number, a voltage and a description; the
    scan stores the first and keeps it, without a warning. *)
Example scan_sample_first_seen :
  let t := float_of_ratio 1700000000 1 in
  scan_component sample_date [] (lit "amp") t ([], []) first_seen
  = ([(lit "CL05B104", first_seen_part)], []) /\
  scan_component sample_date [] (lit "amp") t
    ([(lit "CL05B104", first_seen_part)], []) seen_again
  = ([(lit "CL05B104", first_seen_part)], []).
Proof. split; vm_compute; reflexivity. Qed.

(** ** Block extractor *)

Lemma seq_snoc (start i : nat) :
  start <= i -> seq start (S i - start) = seq start (i - start) ++ [i].
Proof.
  intros H; replace (S i - start) with (S (i - start)) by lia.
  rewrite seq_S; do 2 f_equal; lia.
Qed.

Lemma depth_before_S (text : str) (start i : nat) :
  start <= i ->
  depth_before text start (S i)
  = (depth_before text start i + delta text start i)%Z.
Proof.
  intros H; unfold depth_before; rewrite seq_snoc by exact H.
  rewrite map_app; simpl.
  generalize (List.map (delta text start) (seq start (i - start))) as l.
  induction l as [|x l IH]; simpl; [lia|rewrite IH; lia].
Qed.

Lemma inside_string_S (text : str) (start i : nat) :
  start <= i ->
  inside_string text start (S i)
  = if unescaped_quote text i then negb (inside_string text start i)
    else inside_string text start i.
Proof.
  intros H; unfold inside_string; rewrite seq_snoc by exact H.
  rewrite filter_app; simpl.
  destruct (unescaped_quote text i); simpl.
  - rewrite length_app; simpl; rewrite Nat.add_1_r, Nat.odd_succ.
    now rewrite <- Nat.negb_odd.
  - now rewrite app_nil_r.
Qed.

Lemma depth_before_start (text : str) (start : nat) :
  depth_before text start start = 0%Z.
Proof. unfold depth_before; now rewrite Nat.sub_diag. Qed.

Lemma inside_string_start (text : str) (start : nat) :
  inside_string text start start = false.
Proof. unfold inside_string; now rewrite Nat.sub_diag. Qed.

Lemma block_loop_spec (text : str) (start : nat) :
  forall fuel i depth in_string,
    i + fuel = length text ->
    start < i ->
    depth = depth_before text start i ->
    in_string = inside_string text start i ->
    (forall j, start <= j -> j < i -> (0 < depth_at text start j)%Z) ->
    block_result text start (block_loop text fuel i depth in_string).
Proof.
  induction fuel as [|fuel IH]; intros i depth in_string Hlen Hi Hd Hs Hpos.
  - simpl; split; [|right; reflexivity].
    intros j Hj1 Hj2; apply Hpos; lia.
  - assert (Hdpos : (0 < depth)%Z).
    { rewrite Hd; specialize (Hpos (i - 1)).
      unfold depth_at in Hpos; replace (S (i - 1)) with i in Hpos by lia.
      apply Hpos; lia. }
    assert (Hstep : forall d s,
               d = depth_before text start (S i) ->
               s = inside_string text start (S i) ->
               (0 < d)%Z ->
               block_result text start (block_loop text fuel (S i) d s)).
    { intros d s Hd' Hs' Hd0; apply IH; auto; try lia.
      intros j Hj1 Hj2; destruct (Nat.eq_dec j i) as [->|Hne].
      - unfold depth_at; rewrite <- Hd'; exact Hd0.
      - apply Hpos; lia. }
    pose proof (depth_before_S text start i ltac:(lia)) as HdS.
    pose proof (inside_string_S text start i ltac:(lia)) as HsS.
    unfold delta, counted in HdS; unfold unescaped_quote in HsS.
    rewrite <- Hs in HdS, HsS; rewrite <- Hd in HdS.
    cbn [block_loop].
    destruct (N.eqb (nth i text 0%N) QUOTE) eqn:Eq.
    + (* a double quote *)
      apply N.eqb_eq in Eq.
      assert (N.eqb (nth i text 0%N) LPAREN = false) as El
          by (rewrite Eq; reflexivity).
      assert (N.eqb (nth i text 0%N) RPAREN = false) as Er
          by (rewrite Eq; reflexivity).
      rewrite El, Er in HdS; simpl in HdS.
      destruct (Nat.eqb i 0 || negb (N.eqb (nth (i - 1) text 0%N) BACKSLASH));
        simpl in *.
      * apply Hstep; auto; lia.
      * destruct in_string; [|rewrite El, Er]; apply Hstep; auto; lia.
    + simpl in *. destruct in_string.
      * rewrite !andb_false_r in HdS; apply Hstep; auto; lia.
      * rewrite !andb_true_r in HdS.
        destruct (N.eqb (nth i text 0%N) LPAREN) eqn:El.
        { apply Hstep; auto; lia. }
        destruct (N.eqb (nth i text 0%N) RPAREN) eqn:Er.
        { destruct (Z.eqb (depth - 1) 0) eqn:Ez.
          - apply Z.eqb_eq in Ez; split.
            + intros j Hj1 Hj2; apply Hpos; lia.
            + left; repeat split; try lia.
              * now apply N.eqb_eq.
              * now rewrite <- Hs.
              * unfold depth_at; lia.
          - apply Z.eqb_neq in Ez; apply Hstep; auto; lia. }
        apply Hstep; auto; lia.
Qed.

(** Claim C5.  When [text[start]] is an opening delimiter,
    [get_balanced_block] returns an index [r] such that the nesting depth
    (delimiters inside double-quoted string literals not counted, a quote
    after a backslash not ending a literal) is positive after every
    character from [start] up to [r], and either [r] is the index of a
    closing delimiter outside any string literal after which the depth is
    zero, or no such delimiter exists and [r] is the length of the text. *)
Theorem get_balanced_block_spec (text : str) (start : nat) :
  start < length text ->
  nth start text 0%N = LPAREN ->
  let r := get_balanced_block text start in
  (forall j, start <= j -> j < r -> (0 < depth_at text start j)%Z) /\
  ((r < length text /\ nth r text 0%N = RPAREN /\
    inside_string text start r = false /\ depth_at text start r = 0%Z)
   \/
   (r = length text /\
    forall j, start <= j -> j < length text -> (0 < depth_at text start j)%Z)).
Proof.
  intros Hlt Hopen r.
  assert (R : block_result text start r).
  { unfold r, get_balanced_block.
    destruct (length text - start) as [|fuel] eqn:Ef; [lia|].
    cbn [block_loop]; rewrite Hopen; simpl.
    assert (D1 : depth_before text start (S start) = 1%Z).
    { rewrite depth_before_S by lia.
      unfold delta, counted; rewrite Hopen, inside_string_start,
        depth_before_start; reflexivity. }
    apply block_loop_spec; auto; try lia.
    - rewrite inside_string_S by lia.
      unfold unescaped_quote; rewrite Hopen, inside_string_start; reflexivity.
    - intros j Hj1 Hj2; assert (j = start) as -> by lia.
      unfold depth_at; lia. }
  destruct R as [R1 R2]; split; [exact R1|].
  destruct R2 as [R2|R2]; [left; exact R2|right; split; [exact R2|]].
  intros j Hj1 Hj2; apply R1; lia.
Qed.

Lemma get_balanced_block_spec_witness :
  let text := lit "(a (b) c) d" in
  let r := get_balanced_block text 0 in
  (forall j, 0 <= j -> j < r -> (0 < depth_at text 0 j)%Z) /\
  ((r < length text /\ nth r text 0%N = RPAREN /\
    inside_string text 0 r = false /\ depth_at text 0 r = 0%Z)
   \/
   (r = length text /\
    forall j, 0 <= j -> j < length text -> (0 < depth_at text 0 j)%Z)).
Proof.
  apply (get_balanced_block_spec (lit "(a (b) c) d") 0).
  - simpl; lia.
  - reflexivity.
Defined.

(** ** Numeric projection *)

Lemma split_blank (v : str) : forallb is_space v = true -> split v = [].
Proof.
  unfold split; induction v as [|c v IH]; simpl; auto.
  intros H; apply andb_true_iff in H as [Hc Hv]; rewrite Hc; auto.
Qed.

(** A string made of white space only makes [value_str.split()[0]]
    fail. *)
Lemma parse_value_to_float_blank (v : str) :
  v <> [] -> forallb is_space v = true ->
  parse_value_to_float v = Raise IndexError.
Proof.
  intros Hne Hb; unfold parse_value_to_float.
  destruct v; [congruence|]; simpl truthy; simpl negb; cbv iota.
  now rewrite split_blank.
Qed.

(** That is the only failure: with a token to read, a float comes back. *)
Lemma parse_value_to_float_token (v : str) :
  split v <> [] -> exists f, parse_value_to_float v = Ok f.
Proof.
  intros Hs; unfold parse_value_to_float.
  destruct (negb (truthy v)); [eauto|].
  destruct (split v) as [|s parts]; [congruence|].
  repeat match goal with
         | |- context [match ?x with _ => _ end] => destruct x; eauto
         end.
Qed.

(** Claim C7, which the code breaks.  [parse_value_to_float] raises
    [IndexError] on a string that holds a single space, where the claim
    promises a float; [normalize_value] guards the same case and returns
    the empty string. *)
Theorem parse_value_to_float_raises_on_blank :
  parse_value_to_float (lit " ") = Raise IndexError /\
  normalize_value (lit " ") (lit "R") = [].
Proof. split; vm_compute; reflexivity. Qed.

(** ** Floats that are not negative *)

Lemma shr_1_nonneg (mrs : shr_record) :
  (0 <= shr_m mrs)%Z -> (0 <= shr_m (shr_1 mrs))%Z.
Proof.
  destruct mrs as [m r s]; simpl; intros H.
  destruct m as [|p|p]; [simpl; lia| |lia].
  destruct p; simpl; lia.
Qed.

Lemma iter_shr_1_nonneg (p : positive) :
  forall mrs, (0 <= shr_m mrs)%Z -> (0 <= shr_m (iter_pos shr_1 p mrs))%Z.
Proof.
  induction p as [p IH|p IH|]; intros mrs H; simpl.
  - apply IH, IH, shr_1_nonneg, H.
  - apply IH, IH, H.
  - apply shr_1_nonneg, H.
Qed.

Lemma shr_fexp_nonneg (m e : Z) (l : location) :
  (0 <= m)%Z -> (0 <= shr_m (fst (shr_fexp prec emax m e l)))%Z.
Proof.
  intros H; unfold shr_fexp, shr.
  assert (H0 : (0 <= shr_m (shr_record_of_loc m l))%Z)
    by (destruct l as [|[| |]]; exact H).
  destruct (_ - e)%Z; simpl; auto using iter_shr_1_nonneg.
Qed.

Lemma round_nearest_even_nonneg (m : Z) (l : location) :
  (0 <= m)%Z -> (0 <= round_nearest_even m l)%Z.
Proof.
  intros H; destruct l as [|[| |]]; simpl; try lia.
  destruct (Z.even m); lia.
Qed.

Lemma binary_round_aux_nonneg (mx ex : Z) (lx : location) :
  (0 <= mx)%Z -> nonneg_float (binary_round_aux prec emax false mx ex lx).
Proof.
  intros H; unfold binary_round_aux.
  pose proof (shr_fexp_nonneg mx ex lx H) as H1.
  destruct (shr_fexp prec emax mx ex lx) as [mrs' e']; simpl in H1.
  pose proof (shr_fexp_nonneg _ e' loc_Exact
                (round_nearest_even_nonneg _ (loc_of_shr_record mrs') H1)) as H2.
  destruct (shr_fexp prec emax _ e' loc_Exact) as [mrs'' e'']; simpl in H2.
  destruct (shr_m mrs'') as [|p|p]; simpl; auto; try lia.
  destruct (Z.leb _ _); simpl; auto.
Qed.

Lemma float_of_ratio_nonneg (n d : N) : nonneg_float (float_of_ratio n d).
Proof.
  unfold float_of_ratio; destruct n as [|pn]; [exact I|].
  destruct d as [|pd]; [exact I|].
  unfold SFdiv.
  destruct (SFdiv_core_binary prec emax (Zpos pn) 0 (Zpos pd) 0)
    as [[mz ez] lz] eqn:E.
  apply binary_round_aux_nonneg.
  unfold SFdiv_core_binary in E.
  match type of E with
  | context [Z.div_eucl ?a ?b] =>
      assert (A : (0 <= a)%Z);
      [|pose proof (Z_div_mod a b ltac:(lia)) as D;
        destruct (Z.div_eucl a b) as [q r]]
  end.
  - match goal with
    | |- (0 <= match ?s with _ => _ end)%Z => destruct s; try lia
    end.
    apply Z.shiftl_nonneg; lia.
  - injection E as <- _ _. nia.
Qed.

Lemma fmul_nonneg (x : float) (my : positive) (ey : Z) :
  nonneg_float x -> nonneg_float (fmul x (S754_finite false my ey)).
Proof.
  intros Hx; unfold fmul, SFmul.
  destruct x as [sx|sx| |sx mx ex]; simpl in *; auto.
  - destruct sx; tauto.
  - destruct sx; [tauto|]; simpl.
    apply binary_round_aux_nonneg; lia.
Qed.

Lemma some_inj (A : Type) (x y : A) : Some x = Some y -> x = y.
Proof. congruence. Qed.

Lemma ok_inj (A : Type) (x y : A) : Ok x = Ok y -> x = y.
Proof. congruence. Qed.

Lemma multipliers_finite (mult : str) (f : float) :
  multipliers mult = Some f -> exists m e, f = S754_finite false m e.
Proof.
  unfold multipliers.
  repeat match goal with
         | |- context [if ?c then _ else _] =>
             destruct c;
             [intros H; apply some_inj in H; rewrite <- H; vm_compute; eauto|]
         end.
  discriminate.
Qed.

Lemma scale_nonneg (val : float) (mult : str) :
  nonneg_float val -> nonneg_float (scale val mult).
Proof.
  intros H; unfold scale.
  destruct (multipliers mult) as [f|] eqn:E; auto.
  apply multipliers_finite in E as (m & e & ->).
  now apply fmul_nonneg.
Qed.

Lemma py_float_nonneg (s : str) (f : float) :
  py_float s = Ok f -> nonneg_float f.
Proof.
  unfold py_float; destruct (_ && _); [|discriminate].
  intros H; apply ok_inj in H; rewrite <- H; apply float_of_ratio_nonneg.
Qed.

Lemma parse_value_to_float_nonneg (v : str) (f : float) :
  parse_value_to_float v = Ok f -> nonneg_float f.
Proof.
  unfold parse_value_to_float.
  destruct (negb (truthy v)); [intros H; apply ok_inj in H; now subst|].
  destruct (split v) as [|s parts]; [discriminate|].
  repeat match goal with
         | |- context [match re_match ?r ?x with _ => _ end] =>
             destruct (re_match r x)
         | |- context [match py_float ?x with _ => _ end] =>
             let E := fresh "E" in
             destruct (py_float x) eqn:E; [apply py_float_nonneg in E|]
         | |- context [if truthy ?x then _ else _] => destruct (truthy x)
         end;
    intros H; apply ok_inj in H; subst f; auto using scale_nonneg; exact I.
Qed.

Lemma parse_voltage_to_float_nonneg (v : str) :
  nonneg_float (parse_voltage_to_float v).
Proof.
  unfold parse_voltage_to_float.
  destruct (negb (truthy v)); [exact I|].
  destruct (re_search _ v) as [[i m]|]; [|exact I].
  destruct (py_float _) eqn:E; [|exact I].
  now apply py_float_nonneg in E.
Qed.

(** ** The orders of the key components *)

Lemma str_ltb_irrefl (a : str) : str_ltb a a = false.
Proof.
  induction a as [|x a IH]; simpl; auto.
  now rewrite N.ltb_irrefl, N.eqb_refl.
Qed.

Lemma str_ltb_trans (a b c : str) :
  str_ltb a b = true -> str_ltb b c = true -> str_ltb a c = true.
Proof.
  revert b c; induction a as [|x a IH]; intros [|y b] [|z c]; simpl;
    try discriminate; auto.
  destruct (N.ltb_spec x y), (N.ltb_spec y z), (N.ltb_spec x z);
    destruct (N.eqb_spec x y), (N.eqb_spec y z), (N.eqb_spec x z);
    try discriminate; try lia; auto.
  apply IH.
Qed.

Lemma str_ltb_total (a b : str) :
  a <> b -> str_ltb a b = false -> str_ltb b a = true.
Proof.
  revert b; induction a as [|x a IH]; intros [|y b]; simpl;
    try discriminate; try congruence; auto.
  destruct (N.ltb_spec x y), (N.ltb_spec y x);
    destruct (N.eqb_spec x y), (N.eqb_spec y x);
    try discriminate; try lia; auto.
  intros Hne; apply IH; congruence.
Qed.

Lemma str_total_order : total_order (fun _ : str => True) str_eqb str_ltb.
Proof.
  constructor; intros.
  - apply str_eqb_refl.
  - now rewrite str_eqb_sym.
  - apply str_eqb_eq; transitivity b; now apply str_eqb_eq.
  - match goal with H : str_eqb _ _ = true |- _ => apply str_eqb_eq in H end.
    congruence.
  - match goal with H : str_eqb _ _ = true |- _ => apply str_eqb_eq in H end.
    congruence.
  - match goal with H : str_eqb _ _ = true |- _ => apply str_eqb_eq in H end.
    subst; apply str_ltb_irrefl.
  - eapply str_ltb_trans; eauto.
  - apply str_ltb_total; auto. now apply str_eqb_neq.
Qed.

Ltac float_cases :=
  unfold feqb, fltb, SFeqb, SFltb, SFcompare, nonneg_float in *;
  repeat match goal with
         | x : float |- _ => destruct x as [[]|[]| |[] ? ?]
         end;
  simpl in *; try tauto; try congruence;
  change (Pos.compare_cont Eq) with Pos.compare in *;
  repeat match goal with
         | H : context [Z.compare ?a ?b] |- _ => destruct (Z.compare_spec a b)
         | |- context [Z.compare ?a ?b] => destruct (Z.compare_spec a b)
         | H : context [Pos.compare ?a ?b] |- _ =>
             destruct (Pos.compare_spec a b)
         | |- context [Pos.compare ?a ?b] => destruct (Pos.compare_spec a b)
         end;
  subst; try congruence; try lia.

Lemma float_total_order : total_order nonneg_float feqb fltb.
Proof.
  constructor; intros; float_cases.
Qed.

(** The comparison of pairs is a total preorder when the comparisons of
    the components are. *)
Lemma pair_total_order (A B : Type) (da : A -> Prop) (db : B -> Prop)
  (eqa lta : A -> A -> bool) (eqb ltb : B -> B -> bool) :
  total_order da eqa lta -> total_order db eqb ltb ->
  total_order (pair_dom da db) (pair_eqb eqa eqb) (pair_ltb eqa lta ltb).
Proof.
  intros OA OB.
  assert (NE : forall a b, da a -> da b -> lta a b = true -> eqa a b = false).
  { intros a b Ha Hb L; destruct (eqa a b) eqn:E; auto.
    rewrite (o_irrefl OA a b Ha Hb E) in L; discriminate. }
  constructor; unfold pair_dom, pair_eqb, pair_ltb;
    intros [a1 b1]; simpl.
  - intros [Ha Hb]; rewrite (o_refl OA), (o_refl OB); auto.
  - intros [a2 b2] [Ha1 Hb1] [Ha2 Hb2]; simpl; intros H.
    apply andb_true_iff in H as [H1 H2].
    rewrite (o_sym OA a1 a2), (o_sym OB b1 b2); auto.
  - intros [a2 b2] [a3 b3] [Ha1 Hb1] [Ha2 Hb2] [Ha3 Hb3]; simpl; intros H H'.
    apply andb_true_iff in H as [H1 H2], H' as [H3 H4].
    rewrite (o_eq_trans OA a1 a2 a3), (o_eq_trans OB b1 b2 b3); auto.
  - intros [a2 b2] [a3 b3] [Ha1 Hb1] [Ha2 Hb2] [Ha3 Hb3]; simpl; intros H.
    apply andb_true_iff in H as [H1 H2].
    destruct (eqa a2 a3) eqn:E23; simpl; intros H'.
    + rewrite (o_eq_trans OA a1 a2 a3 Ha1 Ha2 Ha3 H1 E23); simpl.
      exact (o_eq_lt OB b1 b2 b3 Hb1 Hb2 Hb3 H2 H').
    + pose proof (o_eq_lt OA a1 a2 a3 Ha1 Ha2 Ha3 H1 H') as L.
      rewrite (NE a1 a3 Ha1 Ha3 L); simpl; exact L.
  - intros [a2 b2] [a3 b3] [Ha1 Hb1] [Ha2 Hb2] [Ha3 Hb3]; simpl; intros H H'.
    apply andb_true_iff in H' as [H1 H2].
    destruct (eqa a1 a2) eqn:E12; simpl in H.
    + rewrite (o_eq_trans OA a1 a2 a3 Ha1 Ha2 Ha3 E12 H1); simpl.
      exact (o_lt_eq OB b1 b2 b3 Hb1 Hb2 Hb3 H H2).
    + pose proof (o_lt_eq OA a1 a2 a3 Ha1 Ha2 Ha3 H H1) as L.
      rewrite (NE a1 a3 Ha1 Ha3 L); simpl; exact L.
  - intros [a2 b2] [Ha1 Hb1] [Ha2 Hb2]; simpl; intros H.
    apply andb_true_iff in H as [H1 H2]; rewrite H1; simpl.
    exact (o_irrefl OB b1 b2 Hb1 Hb2 H2).
  - intros [a2 b2] [a3 b3] [Ha1 Hb1] [Ha2 Hb2] [Ha3 Hb3]; simpl.
    destruct (eqa a1 a2) eqn:E12, (eqa a2 a3) eqn:E23; simpl; intros H H'.
    + rewrite (o_eq_trans OA a1 a2 a3 Ha1 Ha2 Ha3 E12 E23); simpl.
      exact (o_trans OB b1 b2 b3 Hb1 Hb2 Hb3 H H').
    + pose proof (o_eq_lt OA a1 a2 a3 Ha1 Ha2 Ha3 E12 H') as L.
      rewrite (NE a1 a3 Ha1 Ha3 L); simpl; exact L.
    + pose proof (o_lt_eq OA a1 a2 a3 Ha1 Ha2 Ha3 H E23) as L.
      rewrite (NE a1 a3 Ha1 Ha3 L); simpl; exact L.
    + pose proof (o_trans OA a1 a2 a3 Ha1 Ha2 Ha3 H H') as L.
      rewrite (NE a1 a3 Ha1 Ha3 L); simpl; exact L.
  - intros [a2 b2] [Ha1 Hb1] [Ha2 Hb2]; simpl.
    destruct (eqa a1 a2) eqn:E12; simpl; intros H H'.
    + rewrite (o_sym OA a1 a2 Ha1 Ha2 E12); simpl.
      exact (o_total OB b1 b2 Hb1 Hb2 H H').
    + assert (E21 : eqa a2 a1 = false).
      { destruct (eqa a2 a1) eqn:E; auto.
        rewrite (o_sym OA a2 a1 Ha2 Ha1 E) in E12; discriminate. }
      rewrite E21; simpl. exact (o_total OA a1 a2 Ha1 Ha2 E12 H').
Qed.

(** ** The order of the sort keys *)

Lemma total_order_ext (A : Type) (dom dom' : A -> Prop)
  (eqb ltb eqb' ltb' : A -> A -> bool) :
  (forall a, dom' a -> dom a) ->
  (forall a b, eqb' a b = eqb a b) -> (forall a b, ltb' a b = ltb a b) ->
  total_order dom eqb ltb -> total_order dom' eqb' ltb'.
Proof.
  intros Hd He Hl [O1 O2 O3 O4 O5 O6 O7 O8].
  constructor; intros; rewrite ?He, ?Hl in *.
  - apply O1; auto.
  - apply O2; auto.
  - apply O3 with b; auto.
  - apply O4 with b; auto.
  - apply O5 with b; auto.
  - apply O6; auto.
  - apply O7 with b; auto.
  - apply O8; auto.
Qed.

Lemma key_total_order : total_order key_dom key_eqb key_ltb.
Proof.
  pose proof str_total_order as S; pose proof float_total_order as F.
  pose proof (pair_total_order _ _ _ _ _ _ _ _
                (pair_total_order _ _ _ _ _ _ _ _
                   (pair_total_order _ _ _ _ _ _ _ _
                      (pair_total_order _ _ _ _ _ _ _ _
                         (pair_total_order _ _ _ _ _ _ _ _ S F) S) F) S) S)
    as K.
  refine (total_order_ext _ _ _ _ _ _ _ _ _ _ K).
  - intros [[[[[t n] v] u] f] m]; unfold key_dom, pair_dom; simpl; tauto.
  - intros [[[[[t1 n1] v1] u1] f1] m1] [[[[[t2 n2] v2] u2] f2] m2].
    reflexivity.
  - intros [[[[[t1 n1] v1] u1] f1] m1] [[[[[t2 n2] v2] u2] f2] m2].
    unfold key_ltb, pair_ltb, pair_eqb; simpl.
    destruct (str_eqb t1 t2), (feqb n1 n2), (str_eqb v1 v2), (feqb u1 u2),
      (str_eqb f1 f2); simpl; auto.
    destruct (str_eqb m1 m2) eqn:E; simpl; auto.
    apply str_eqb_eq in E; subst; symmetry; apply str_ltb_irrefl.
Qed.

(** A key that is not greater than another comes before it or ties with
    it, component by component. *)
Lemma key_ltb_false_le (a b : sort_key_t) :
  key_dom a -> key_dom b -> key_ltb b a = false -> key_le a b.
Proof.
  destruct a as [[[[[t1 n1] v1] u1] f1] m1], b as [[[[[t2 n2] v2] u2] f2] m2].
  unfold key_dom, key_ltb, key_le; intros [Hn1 Hu1] [Hn2 Hu2].
  pose proof str_total_order as S; pose proof float_total_order as F.
  assert (SS : forall x y : str,
             str_eqb y x = false -> str_ltb y x = false -> str_ltb x y = true).
  { intros x y E L; apply (o_total S); auto. }
  assert (FF : forall x y : float, nonneg_float x -> nonneg_float y ->
             feqb y x = false -> fltb y x = false -> fltb x y = true).
  { intros x y Hx Hy E L; apply (o_total F); auto. }
  intros H.
  destruct (str_eqb t2 t1) eqn:Et; simpl in H; [|left; auto].
  apply str_eqb_eq in Et; subst t2; right; split; [reflexivity|].
  destruct (feqb n2 n1) eqn:En; simpl in H; [|left; auto].
  right; split; [apply (o_sym F); auto|].
  destruct (str_eqb v2 v1) eqn:Ev; simpl in H; [|left; auto].
  apply str_eqb_eq in Ev; subst v2; right; split; [reflexivity|].
  destruct (feqb u2 u1) eqn:Eu; simpl in H; [|left; auto].
  right; split; [apply (o_sym F); auto|].
  destruct (str_eqb f2 f1) eqn:Ef; simpl in H; [|left; auto].
  apply str_eqb_eq in Ef; subst f2; right; split; [reflexivity|].
  destruct (str_eqb m2 m1) eqn:Em; simpl in H; [|left; auto].
  apply str_eqb_eq in Em; subst m2; right; reflexivity.
Qed.

(** ** Insertion into a sorted list *)

Section Sorting.
Context {K A : Type} (dom : K -> Prop) (eqb ltb : K -> K -> bool).
Hypothesis O : total_order dom eqb ltb.

Lemma not_after_trans (x y z : K * A) :
  dom (fst x) -> dom (fst y) -> dom (fst z) ->
  not_after ltb x y -> not_after ltb y z -> not_after ltb x z.
Proof.
  unfold not_after; intros Hx Hy Hz Hxy Hyz.
  destruct (ltb (fst z) (fst x)) eqn:L; auto; exfalso.
  assert (I : forall a, dom a -> ltb a a = false)
    by (intros a Ha; apply (o_irrefl O); auto; apply (o_refl O); auto).
  destruct (eqb (fst y) (fst x)) eqn:E1.
  - (* y ties with x *)
    pose proof (o_lt_eq O _ _ _ Hz Hx Hy L (o_sym O _ _ Hy Hx E1)) as L'.
    congruence.
  - pose proof (o_total O _ _ Hy Hx E1 Hxy) as L1.
    pose proof (o_trans O _ _ _ Hz Hx Hy L L1) as L'.
    congruence.
Qed.

Lemma insert_by_perm (x : K * A) (l : list (K * A)) :
  Permutation (x :: l) (insert_by ltb x l).
Proof.
  induction l as [|y l IH]; simpl; auto.
  destruct (ltb (fst x) (fst y)); auto.
  apply perm_trans with (y :: x :: l); [apply perm_swap|auto].
Qed.

Lemma insert_by_sorted (x : K * A) (l : list (K * A)) :
  dom (fst x) -> Forall (fun y => dom (fst y)) l ->
  StronglySorted (not_after ltb) l ->
  StronglySorted (not_after ltb) (insert_by ltb x l).
Proof.
  intros Hx Hd Hs; induction Hs as [|y l Hs IH Hy]; simpl.
  - repeat constructor.
  - inversion Hd as [|? ? Hdy Hdl]; subst.
    destruct (ltb (fst x) (fst y)) eqn:L.
    + constructor; [constructor; auto|].
      assert (Nxy : not_after ltb x y).
      { unfold not_after; destruct (ltb (fst y) (fst x)) eqn:L'; auto.
        pose proof (o_trans O _ _ _ Hx Hdy Hx L L') as C.
        rewrite (o_irrefl O _ _ Hx Hx (o_refl O _ Hx)) in C; discriminate. }
      constructor; auto.
      rewrite Forall_forall in *; intros z Hz.
      apply not_after_trans with y; auto.
    + constructor; auto.
      apply Permutation_Forall with (x :: l); [apply insert_by_perm|].
      constructor; auto.
Qed.

Lemma sort_by_spec (l : list (K * A)) :
  Forall (fun y => dom (fst y)) l ->
  forall acc,
    Forall (fun y => dom (fst y)) acc ->
    StronglySorted (not_after ltb) acc ->
    let out := fold_left (fun acc x => insert_by ltb x acc) l acc in
    Permutation (acc ++ l) out /\ StronglySorted (not_after ltb) out.
Proof.
  induction 1 as [|x l Hx Hl IH]; intros acc Hacc Hs; simpl.
  - rewrite app_nil_r; auto.
  - destruct (IH (insert_by ltb x acc)) as [P S].
    + apply Permutation_Forall with (x :: acc); [apply insert_by_perm|].
      constructor; auto.
    + apply insert_by_sorted; auto.
    + split; auto.
      apply perm_trans with (insert_by ltb x acc ++ l); auto.
      apply perm_trans with ((x :: acc) ++ l).
      * symmetry; apply Permutation_middle.
      * apply Permutation_app_tail, insert_by_perm.
Qed.

End Sorting.

(** ** The output order *)

Lemma sort_key_dom (x : Part) (k : sort_key_t) :
  sort_key x = Ok k -> key_dom k.
Proof.
  unfold sort_key.
  destruct (mem_str (Type_ x) VALUE_PARSE_TYPES).
  - destruct (parse_value_to_float (Value x)) as [f|e] eqn:E; [|discriminate].
    intros H; apply ok_inj in H; subst k; simpl; split.
    + exact (parse_value_to_float_nonneg _ _ E).
    + apply parse_voltage_to_float_nonneg.
  - intros H; apply ok_inj in H; subst k; simpl; split.
    + exact I.
    + apply parse_voltage_to_float_nonneg.
Qed.

Lemma sort_key_total (x : Part) :
  (mem_str (Type_ x) VALUE_PARSE_TYPES = true ->
   Value x = [] \/ split (Value x) <> []) ->
  exists k, sort_key x = Ok k.
Proof.
  intros H; unfold sort_key.
  destruct (mem_str (Type_ x) VALUE_PARSE_TYPES); [|eauto].
  destruct (H eq_refl) as [E|E].
  - rewrite E; simpl; eauto.
  - destruct (parse_value_to_float_token _ E) as [f ->]; eauto.
Qed.

Lemma keyed_total (rows : list Part) :
  readable_values rows -> exists l, keyed rows = Ok l.
Proof.
  induction 1 as [|x rows Hx _ IH]; simpl; [eauto|].
  destruct (sort_key_total x Hx) as [k ->], IH as [l ->]; eauto.
Qed.

Lemma keyed_spec (rows : list Part) :
  forall l, keyed rows = Ok l ->
    List.map snd l = rows /\
    Forall (fun kx => sort_key (snd kx) = Ok (fst kx)) l.
Proof.
  induction rows as [|x rows IH]; simpl; intros l.
  - intros H; apply ok_inj in H; subst; auto.
  - destruct (sort_key x) as [k|] eqn:E; [|discriminate].
    destruct (keyed rows) as [l'|]; [|discriminate].
    intros H; apply ok_inj in H; subst l.
    destruct (IH l' eq_refl) as [H1 H2]; simpl; split.
    + now rewrite H1.
    + constructor; auto.
Qed.

(** A key is built only for a row whose value can be read. *)
Lemma sort_key_readable (x : Part) (k : sort_key_t) :
  sort_key x = Ok k ->
  mem_str (Type_ x) VALUE_PARSE_TYPES = true ->
  Value x = [] \/ split (Value x) <> [].
Proof.
  unfold sort_key; intros H Hv; rewrite Hv in H.
  unfold parse_value_to_float in H.
  destruct (Value x) as [|c v]; [now left|right].
  cbn [truthy negb] in H.
  destruct (split (c :: v)); [discriminate|discriminate].
Qed.

Lemma keyed_readable (rows : list Part) :
  forall l, keyed rows = Ok l -> readable_values rows.
Proof.
  induction rows as [|x rows IH]; simpl; intros l H; [constructor|].
  destruct (sort_key x) as [k|] eqn:E; [|discriminate].
  destruct (keyed rows) as [l'|]; [|discriminate].
  constructor; [exact (sort_key_readable x k E)|exact (IH l' eq_refl)].
Qed.



(** ** The matcher on simple patterns *)

Lemma reads_nil (st : mstate) : reads st [] st.
Proof. split; simpl; auto. Qed.

Lemma reads_app (st st1 st2 : mstate) (u v : str) :
  reads st u st1 -> reads st1 v st2 -> reads st (u ++ v) st2.
Proof.
  intros [H1 H2] [H3 H4]; split.
  - rewrite H1, H3, app_assoc; reflexivity.
  - rewrite H4, H2, length_app; lia.
Qed.

(** A state is determined by what it still has to read, its index and its
    groups. *)
Lemma mstate_eq (st st' : mstate) :
  m_pos st = m_pos st' -> m_rest st = m_rest st' -> m_caps st = m_caps st' ->
  st = st'.
Proof. destruct st, st'; simpl; intros; subst; reflexivity. Qed.

Lemma reads_length (st st' : mstate) (w : str) :
  reads st w st' -> length (m_rest st) = length w + length (m_rest st').
Proof. intros [H _]; rewrite H, length_app; reflexivity. Qed.

Lemma star_loop_S (step : mstate -> list mstate) (fuel : nat) (st : mstate) :
  star_loop step (S fuel) st
  = flat_map
      (fun st' =>
         if Nat.ltb (length (m_rest st')) (length (m_rest st))
         then star_loop step fuel st' else [])
      (step st)
    ++ [st].
Proof. reflexivity. Qed.

Lemma parses_Cls_cons (p : char -> bool) (pos : nat) (c : char) (s : str)
  (caps : list str) :
  parses (Cls p) (MState pos (c :: s) caps)
  = if p c then [MState (S pos) s caps] else [].
Proof. reflexivity. Qed.

(** The repetition of a class: every prefix made of characters of the
    class, the longest first. *)
Ltac reads_tac :=
  unfold reads in *; simpl in *; repeat split; subst; simpl; auto;
  try lia; try congruence.

Lemma star_cls_in (p : char -> bool) :
  forall (rest : str) (pos : nat) (caps : list str) (st' : mstate),
    In st' (star_loop (parses (Cls p)) (length rest) (MState pos rest caps))
    <-> exists w, forallb p w = true /\ reads (MState pos rest caps) w st'
                  /\ m_caps st' = caps.
Proof.
  induction rest as [|c s IH]; intros pos caps st'.
  - simpl; split.
    + intros [<-|[]]; exists []; reads_tac.
    + intros (w & Hw & [H1 H2] & H3); simpl in *.
      symmetry in H1; apply app_eq_nil in H1 as [-> H1]; simpl in H2.
      left; apply mstate_eq; simpl; auto; lia.
  - change (length (c :: s)) with (S (length s)).
    rewrite star_loop_S, parses_Cls_cons, in_app_iff.
    destruct (p c) eqn:Pc.
    + cbn [flat_map m_rest length].
      assert (Nat.ltb (length s) (S (length s)) = true) as ->
          by (apply Nat.ltb_lt; lia).
      rewrite app_nil_r, IH; split.
      * intros [(w & Hw & [H1 H2] & H3)|[<-|[]]].
        -- exists (c :: w); simpl; rewrite Pc, Hw; reads_tac.
        -- exists []; reads_tac.
      * intros (w & Hw & [H1 H2] & H3); simpl in *.
        destruct w as [|c' w]; simpl in *.
        -- right; left; apply mstate_eq; simpl; auto; lia.
        -- injection H1 as <- H1; apply andb_true_iff in Hw as [_ Hw].
           left; exists w; reads_tac.
    + cbn [flat_map]; split.
      * intros [[]|[<-|[]]]; exists []; reads_tac.
      * intros (w & Hw & [H1 H2] & H3); simpl in *.
        destruct w as [|c' w]; simpl in *.
        -- right; left; apply mstate_eq; simpl; auto; lia.
        -- injection H1 as <- H1; apply andb_true_iff in Hw as [Hc _].
           congruence.
Qed.

(** The matcher is sound and complete on simple patterns: the ends of the
    matches are the states after a text of the language, the groups
    untouched. *)
Theorem parses_simple (r : regex) :
  simple r = true ->
  forall st st',
    In st' (parses r st)
    <-> exists w, lang r w /\ reads st w st' /\ m_caps st' = m_caps st.
Proof.
  induction r as [|p|a IHa b IHb|a IHa b IHb|a IHa| | |];
    cbn [simple lang parses]; try discriminate; intros Hs st st'.
  - split.
    + intros [<-|[]]; exists []; reads_tac.
    + intros (w & -> & [H1 H2] & H3); left; simpl in *.
      apply mstate_eq; auto; lia.
  - destruct st as [pos rest caps]; cbn [m_rest m_pos m_caps].
    destruct rest as [|c s].
    + split; [intros []|].
      intros (w & (c & -> & _) & [H1 _] & _); discriminate.
    + destruct (p c) eqn:Pc; split.
      * intros [<-|[]]; exists [c]; split; [eauto|reads_tac].
      * intros (w & (c' & -> & _) & [H1 H2] & H3); simpl in *.
        injection H1 as <- H1; left; apply mstate_eq; simpl; auto; lia.
      * intros [].
      * intros (w & (c' & -> & Pc') & [H1 H2] & H3); simpl in *.
        injection H1 as <- H1; congruence.
  - apply andb_true_iff in Hs as [Ha Hb].
    rewrite in_flat_map; split.
    + intros (mid & H1 & H2).
      apply IHa in H1 as (u & Lu & Ru & Cu); auto.
      apply IHb in H2 as (v & Lv & Rv & Cv); auto.
      exists (u ++ v); repeat split; eauto using reads_app; try congruence.
      * destruct Ru as [R1 _], Rv as [R2 _]; rewrite R1, R2, app_assoc; auto.
      * destruct Ru as [_ R1], Rv as [_ R2]; rewrite R2, R1, length_app; lia.
    + intros (w & (u & v & -> & Lu & Lv) & [R1 R2] & C).
      exists (MState (m_pos st + length u) (v ++ m_rest st') (m_caps st)).
      split.
      * apply IHa; auto; exists u; repeat split; simpl; auto.
        now rewrite R1, app_assoc.
      * apply IHb; auto; exists v; repeat split; simpl; auto.
        rewrite R2, length_app; lia.
  - apply andb_true_iff in Hs as [Ha Hb].
    rewrite in_app_iff, IHa, IHb by auto; split.
    + intros [(w & L & R)|(w & L & R)]; exists w; tauto.
    + intros (w & [L|L] & R); [left|right]; exists w; tauto.
  - destruct a; try discriminate.
    destruct st as [pos rest caps]; apply star_cls_in.
Qed.

Lemma firstn_reads (st st' : mstate) (w : str) :
  reads st w st' -> firstn (m_pos st' - m_pos st) (m_rest st) = w.
Proof.
  intros [H1 H2]; rewrite H1, H2.
  replace (m_pos st + length w - m_pos st) with (length w + 0) by lia.
  rewrite firstn_app_2; simpl; apply app_nil_r.
Qed.

(** A group around a simple pattern records the text that was read. *)
Lemma parses_group (r : regex) :
  simple r = true ->
  forall st st',
    In st' (parses (Grp r) st)
    <-> exists w, lang r w /\ reads st w st' /\ m_caps st' = m_caps st ++ [w].
Proof.
  intros Hs st st'; cbn [parses]; rewrite in_map_iff; split.
  - intros (st1 & <- & H); apply parses_simple in H as (w & L & R & C); auto.
    exists w; split; auto; unfold close_group; simpl.
    rewrite (firstn_reads _ _ _ R), C; split; auto.
  - intros (w & L & R & C).
    exists (MState (m_pos st') (m_rest st') (m_caps st)); split.
    + unfold close_group; simpl.
      assert (R' : reads st w (MState (m_pos st') (m_rest st') (m_caps st)))
        by (destruct R; split; auto).
      pose proof (firstn_reads _ _ _ R') as F; simpl in F; rewrite F.
      apply mstate_eq; simpl; auto.
    + apply parses_simple; auto; exists w; repeat split; simpl; auto;
        destruct R; auto.
Qed.

(** The matcher is sound and complete on flat patterns. *)
Theorem parses_flat (r : regex) :
  flat r = true ->
  forall st st', In st' (parses r st) <-> sem r st st'.
Proof.
  induction r as [|p|a IHa b IHb|a IHa b IHb|a IHa|a IHa| |];
    intros Hf st st'.
  - now apply parses_simple.
  - now apply parses_simple.
  - cbn [flat] in Hf; apply andb_true_iff in Hf as [Ha Hb].
    cbn [parses sem]; rewrite in_flat_map; split.
    + intros (mid & H1 & H2); exists mid; split;
        [apply IHa|apply IHb]; auto.
    + intros (mid & H1 & H2); exists mid; split;
        [apply IHa|apply IHb]; auto.
  - now apply parses_simple.
  - now apply parses_simple.
  - now apply parses_group.
  - cbn [parses sem]; destruct (Nat.eqb_spec (m_pos st) 0) as [E|E]; split.
    + intros [<-|[]]; auto.
    + intros [_ ->]; left; auto.
    + intros [].
    + intros [H _]; contradiction.
  - cbn [parses sem]; destruct (m_rest st) as [|c [|c' s]] eqn:E.
    + split; [intros [<-|[]]; auto|intros [_ ->]; left; auto].
    + destruct (N.eqb_spec c 10) as [Ec|Ec]; split.
      * intros [<-|[]]; subst; auto.
      * intros [_ ->]; left; auto.
      * intros [].
      * intros [[H|H] _]; congruence.
    + split; [intros []|intros [[H|H] _]; discriminate].
Qed.

(** ** Matches and their first results *)

Lemma hd_error_In (A : Type) (l : list A) (x : A) :
  hd_error l = Some x -> In x l.
Proof. destruct l; simpl; [discriminate|intros [= ->]; auto]. Qed.

Lemma hd_error_unique (A : Type) (l : list A) (x : A) :
  In x l -> (forall y, In y l -> y = x) -> hd_error l = Some x.
Proof.
  destruct l as [|a l]; simpl; [tauto|].
  intros _ H; f_equal; apply H; auto.
Qed.

Lemma hd_error_None (A : Type) (l : list A) :
  hd_error l = None <-> l = [].
Proof. destruct l; simpl; split; congruence. Qed.

Lemma match_at_sem (r : regex) (pos : nat) (rest : str) (m : mstate) :
  flat r = true -> match_at r pos rest = Some m ->
  sem r (MState pos rest []) m.
Proof.
  intros Hf H; apply parses_flat; auto; now apply hd_error_In.
Qed.

Lemma match_at_None (r : regex) (pos : nat) (rest : str) :
  flat r = true ->
  (match_at r pos rest = None <-> forall m, ~ sem r (MState pos rest []) m).
Proof.
  intros Hf; unfold match_at; rewrite hd_error_None; split.
  - intros E m H; apply parses_flat in H; auto; rewrite E in H; exact H.
  - intros H; destruct (parses r _) as [|m l] eqn:E; auto.
    exfalso; apply (H m), parses_flat; auto; rewrite E; left; auto.
Qed.

Lemma match_at_exists (r : regex) (pos : nat) (rest : str) (m : mstate) :
  flat r = true -> sem r (MState pos rest []) m ->
  exists m', match_at r pos rest = Some m'.
Proof.
  intros Hf H; destruct (match_at r pos rest) eqn:E; eauto.
  exfalso; exact (proj1 (match_at_None r pos rest Hf) E m H).
Qed.

(** ** White space: [strip], [split] and [join] *)

Lemma lstrip_decomp (s : str) :
  exists t, s = t ++ lstrip s /\ forallb is_space t = true.
Proof.
  induction s as [|c s (t & E & Ht)]; simpl.
  - exists []; auto.
  - destruct (is_space c) eqn:Ec.
    + exists (c :: t); simpl; rewrite Ec, Ht; split; auto; congruence.
    + exists []; auto.
Qed.

Lemma lstrip_id (c : char) (s : str) :
  is_space c = false -> lstrip (c :: s) = c :: s.
Proof. intros H; simpl; now rewrite H. Qed.

Lemma rstrip_decomp (s : str) :
  exists t, s = rstrip s ++ t /\ forallb is_space t = true.
Proof.
  unfold rstrip; destruct (lstrip_decomp (rev s)) as (t & E & Ht).
  exists (rev t); split.
  - rewrite <- rev_app_distr, <- E; symmetry; apply rev_involutive.
  - rewrite forallb_forall in *; intros x Hx; apply Ht, in_rev, Hx.
Qed.

Lemma last_snoc (s : str) (c d : char) : last (s ++ [c]) d = c.
Proof. apply last_last. Qed.

Lemma last_In (s : str) : s <> [] -> In (last s 0%N) s.
Proof.
  destruct s as [|c s]; [congruence|intros _].
  revert c; induction s as [|d s IH]; intros c; [left; reflexivity|].
  right; exact (IH d).
Qed.

Lemma ends_clean_rstrip (s : str) : ends_clean (rstrip s).
Proof.
  unfold ends_clean, rstrip.
  destruct (lstrip (rev s)) as [|c u] eqn:E; [left; reflexivity|right].
  simpl; rewrite last_snoc.
  (* the head of a stripped text is not a space *)
  clear -E; induction (rev s) as [|x l IH]; simpl in E; [discriminate|].
  destruct (is_space x) eqn:Ex; auto.
  injection E as <- _; exact Ex.
Qed.

Lemma rstrip_id (s : str) : ends_clean s -> rstrip s = s.
Proof.
  unfold ends_clean, rstrip; intros [->|H]; [reflexivity|].
  destruct (rev s) as [|c u] eqn:E.
  - apply (f_equal (@rev char)) in E; rewrite rev_involutive in E; subst;
      reflexivity.
  - assert (Es : s = rev u ++ [c]).
    { apply (f_equal (@rev char)) in E; rewrite rev_involutive in E.
      exact E. }
    rewrite Es, last_snoc in H; simpl; rewrite H; simpl.
    now rewrite Es.
Qed.

Lemma ends_clean_app (a b : str) :
  b <> [] -> ends_clean (a ++ b) <-> ends_clean b.
Proof.
  intros Hb; unfold ends_clean.
  assert (L : last (a ++ b) 0%N = last b 0%N).
  { destruct b as [|c b]; [congruence|].
    induction a as [|x a IH]; simpl; auto.
    destruct (a ++ c :: b) eqn:E; auto.
    destruct a; discriminate. }
  rewrite L; split; intros [H|H]; auto.
  - apply app_eq_nil in H as [_ H]; auto.
  - congruence.
Qed.

(** *** [split] *)

Lemma split_from_nil (cur : str) :
  split_from cur [] = match cur with [] => [] | _ => [cur] end.
Proof. reflexivity. Qed.

Lemma split_from_token (t : str) :
  forallb not_space t = true ->
  forall cur r, split_from cur (t ++ r) = split_from (cur ++ t) r.
Proof.
  induction t as [|c t IH]; simpl; intros Ht cur r.
  - now rewrite app_nil_r.
  - apply andb_true_iff in Ht as [Hc Ht]; unfold not_space in Hc.
    apply negb_true_iff in Hc; rewrite Hc, IH, <- app_assoc; auto.
Qed.

Lemma split_from_space (cur : str) (c : char) (r : str) :
  is_space c = true ->
  split_from cur (c :: r)
  = match cur with [] => split r | _ => cur :: split r end.
Proof. intros H; simpl; rewrite H; reflexivity. Qed.

Lemma split_from_blank (t : str) :
  forallb is_space t = true ->
  forall cur, split_from cur t = split_from cur [].
Proof.
  induction t as [|c t IH]; simpl; intros Ht cur; auto.
  apply andb_true_iff in Ht as [Hc Ht]; rewrite Hc.
  destruct cur; rewrite IH; auto.
Qed.

Lemma split_from_app_blank (u t : str) :
  forallb is_space t = true ->
  forall cur, split_from cur (u ++ t) = split_from cur u.
Proof.
  intros Ht; induction u as [|c u IH]; intros cur.
  - simpl app; now apply split_from_blank.
  - simpl; destruct (is_space c); [destruct cur|]; rewrite ?IH; auto.
Qed.

Lemma split_rstrip (s : str) : split (rstrip s) = split s.
Proof.
  destruct (rstrip_decomp s) as (t & E & Ht); unfold split.
  rewrite E at 2; symmetry; now apply split_from_app_blank.
Qed.

Lemma split_lstrip (s : str) : split (lstrip s) = split s.
Proof.
  unfold split; induction s as [|c s IH]; simpl; auto.
  destruct (is_space c) eqn:E; auto.
  simpl; now rewrite E.
Qed.

Lemma split_strip (s : str) : split (strip s) = split s.
Proof. unfold strip; now rewrite split_lstrip, split_rstrip. Qed.

Lemma split_nil_blank (s : str) : split s = [] -> forallb is_space s = true.
Proof.
  unfold split.
  assert (G : forall s cur, split_from cur s = [] ->
                cur = [] /\ forallb is_space s = true).
  { clear s; induction s as [|c s IH]; simpl; intros cur H.
    - destruct cur; [auto|discriminate].
    - destruct (is_space c) eqn:E; simpl.
      + destruct cur; [|discriminate]. apply IH in H as [_ H]; auto.
      + apply IH in H as [H _]; destruct cur; discriminate. }
  intros H; apply G in H; tauto.
Qed.

(** The tokens [split] returns are tokens. *)
Lemma split_from_tokens (s : str) :
  forall cur, forallb not_space cur = true ->
    Forall token (split_from cur s).
Proof.
  induction s as [|c s IH]; simpl; intros cur Hc.
  - destruct cur; constructor; auto; split; auto; discriminate.
  - destruct (is_space c) eqn:E.
    + destruct cur; [apply IH; auto|].
      constructor; [split; auto; discriminate|apply IH; auto].
    + apply IH; rewrite forallb_app, Hc; simpl; unfold not_space; now rewrite E.
Qed.

Lemma split_tokens (s : str) : Forall token (split s).
Proof. now apply split_from_tokens. Qed.

Lemma split_token (t : str) : token t -> split t = [t].
Proof.
  intros [Hne Ht]; unfold split.
  pose proof (split_from_token t Ht [] []) as E.
  rewrite app_nil_r in E; rewrite E; simpl.
  destruct t; [congruence|reflexivity].
Qed.

Lemma split_token_space (t : str) (c : char) (r : str) :
  token t -> is_space c = true -> split (t ++ c :: r) = t :: split r.
Proof.
  intros [Hne Ht] Hc; unfold split.
  rewrite split_from_token, split_from_space by auto; simpl.
  destruct t; [congruence|reflexivity].
Qed.

(** *** [join] *)

Lemma join_cons (sep p : str) (ps : list str) :
  ps <> [] -> join sep (p :: ps) = p ++ sep ++ join sep ps.
Proof. destruct ps; [congruence|reflexivity]. Qed.

Lemma space_is_space : is_space 32%N = true.
Proof. reflexivity. Qed.

Lemma split_join (toks : list str) :
  Forall token toks -> split (join (lit " ") toks) = toks.
Proof.
  induction 1 as [|t toks Ht Hts IH]; [reflexivity|].
  destruct toks as [|t2 toks].
  - simpl; now apply split_token.
  - rewrite join_cons by discriminate.
    change (lit " " ++ ?x) with (32%N :: x).
    rewrite split_token_space; auto using space_is_space.
    now rewrite IH.
Qed.

Lemma token_head (t : str) :
  token t -> exists c u, t = c :: u /\ is_space c = false.
Proof.
  intros [Hne Ht]; destruct t as [|c u]; [congruence|].
  simpl in Ht; apply andb_true_iff in Ht as [Hc _].
  exists c, u; split; auto; now apply negb_true_iff.
Qed.

Lemma token_ends_clean (t : str) : token t -> ends_clean t.
Proof.
  intros [Hne Ht]; right.
  pose proof (last_In t Hne) as H.
  rewrite forallb_forall in Ht; apply Ht in H; now apply negb_true_iff.
Qed.

Lemma join_ends_clean (toks : list str) :
  Forall token toks -> ends_clean (join (lit " ") toks).
Proof.
  induction 1 as [|t toks Ht Hts IH]; [left; reflexivity|].
  destruct toks as [|t2 toks].
  - simpl; now apply token_ends_clean.
  - rewrite join_cons by discriminate.
    rewrite app_assoc; apply ends_clean_app; auto.
    inversion Hts as [|? ? H2 _]; subst.
    destruct (token_head _ H2) as (c & u & -> & _).
    destruct toks; simpl; discriminate.
Qed.

Lemma strip_join (toks : list str) :
  Forall token toks -> strip (join (lit " ") toks) = join (lit " ") toks.
Proof.
  intros H; unfold strip; rewrite rstrip_id by now apply join_ends_clean.
  destruct H as [|t toks Ht Hts]; [reflexivity|].
  destruct (token_head _ Ht) as (c & u & -> & Hc).
  destruct toks; simpl; now rewrite Hc.
Qed.

(** ** The first match of a repetition *)

Lemma span_le (p : char -> bool) (s : str) : span p s <= length s.
Proof.
  induction s as [|c s IH]; simpl; auto.
  destruct (p c); simpl; lia.
Qed.

Lemma span_skipn_lstrip (s : str) : skipn (span is_space s) s = lstrip s.
Proof.
  induction s as [|c s IH]; simpl; auto.
  destruct (is_space c); simpl; auto.
Qed.

Lemma hd_error_app (A : Type) (l l' : list A) :
  l <> [] -> hd_error (l ++ l') = hd_error l.
Proof. destruct l; [congruence|reflexivity]. Qed.

(** A greedy repetition of a class first takes all it can. *)
Lemma star_cls_hd (p : char -> bool) :
  forall (rest : str) (pos : nat) (caps : list str),
    hd_error (star_loop (parses (Cls p)) (length rest) (MState pos rest caps))
    = Some (MState (pos + span p rest) (skipn (span p rest) rest) caps).
Proof.
  induction rest as [|c s IH]; intros pos caps.
  - simpl; now rewrite Nat.add_0_r.
  - change (length (c :: s)) with (S (length s)).
    rewrite star_loop_S, parses_Cls_cons; simpl span.
    destruct (p c) eqn:Pc.
    + cbn [flat_map m_rest length].
      assert (Nat.ltb (length s) (S (length s)) = true) as ->
          by (apply Nat.ltb_lt; lia).
      rewrite app_nil_r, hd_error_app, IH.
      * simpl; do 2 f_equal; lia.
      * intros E; specialize (IH (S pos) caps); rewrite E in IH; discriminate.
    + simpl; now rewrite Nat.add_0_r.
Qed.

Lemma parses_Seq (a b : regex) (st : mstate) :
  parses (Seq a b) st = flat_map (parses b) (parses a st).
Proof. reflexivity. Qed.

Lemma parses_Star (a : regex) (st : mstate) :
  parses (Star a) st = star_loop (parses a) (length (m_rest st)) st.
Proof. reflexivity. Qed.

Lemma match_at_plus_cls (p : char -> bool) (pos : nat) (rest : str) :
  match_at (Plus (Cls p)) pos rest
  = match rest with
    | c :: s =>
        if p c
        then Some (MState (S pos + span p s) (skipn (span p s) s) [])
        else None
    | [] => None
    end.
Proof.
  unfold match_at, Plus; rewrite parses_Seq.
  destruct rest as [|c s]; [reflexivity|].
  rewrite parses_Cls_cons; destruct (p c); [|reflexivity].
  cbn [flat_map]; rewrite app_nil_r, parses_Star; apply star_cls_hd.
Qed.

(** ** Substitution *)

Lemma sub_from_skip (r : regex) (repl : str) :
  forall (k : nat) (rest : str) (pos : nat),
    k <= length rest ->
    sub_from r repl pos rest k = sub_from r repl (pos + k) (skipn k rest) 0.
Proof.
  induction k as [|k IH]; intros rest pos Hk.
  - now rewrite Nat.add_0_r.
  - destruct rest as [|c rest]; simpl in Hk; [lia|].
    simpl; rewrite IH by lia; f_equal; lia.
Qed.

Lemma collapse_nil (pos : nat) : collapse_at pos [] = [].
Proof. reflexivity. Qed.

Lemma collapse_char (pos : nat) (c : char) (s : str) :
  is_space c = false -> collapse_at pos (c :: s) = c :: collapse_at (S pos) s.
Proof.
  intros Hc; unfold collapse_at, ws; cbn [sub_from].
  now rewrite match_at_plus_cls, Hc.
Qed.

Lemma collapse_space (pos : nat) (c : char) (s : str) :
  is_space c = true ->
  collapse_at pos (c :: s)
  = 32%N :: collapse_at (S pos + span is_space s) (lstrip s).
Proof.
  intros Hc; unfold collapse_at, ws; cbn [sub_from].
  rewrite match_at_plus_cls, Hc; cbn [m_pos].
  replace (S pos + span is_space s - pos) with (S (span is_space s)) by lia.
  rewrite sub_from_skip by apply span_le.
  now rewrite span_skipn_lstrip.
Qed.

Lemma collapse_token (t : str) :
  forallb not_space t = true ->
  forall pos r, collapse_at pos (t ++ r) = t ++ collapse_at (pos + length t) r.
Proof.
  induction t as [|c t IH]; simpl; intros Ht pos r.
  - now rewrite Nat.add_0_r.
  - apply andb_true_iff in Ht as [Hc Ht]; apply negb_true_iff in Hc.
    rewrite collapse_char, IH by auto; simpl; repeat f_equal; lia.
Qed.

(** A text splits into its first token and the rest. *)
Lemma first_token (c : char) (s : str) :
  is_space c = false ->
  exists t r, c :: s = t ++ r /\ token t /\
              (r = [] \/ exists d r', r = d :: r' /\ is_space d = true).
Proof.
  revert c; induction s as [|d s IH]; intros c Hc.
  - exists [c], []; repeat split; simpl; auto; try discriminate.
    unfold not_space; now rewrite Hc.
  - destruct (is_space d) eqn:Ed.
    + exists [c], (d :: s); repeat split; simpl; eauto; try discriminate.
      unfold not_space; now rewrite Hc.
    + destruct (IH d Ed) as (t & r & E & [_ Ht] & Hr).
      exists (c :: t), r; repeat split; simpl; auto; try discriminate.
      * now rewrite E.
      * unfold not_space at 1; now rewrite Hc.
Qed.

(** Collapsing the white space of a stripped text joins its tokens with
    single spaces. *)
Lemma collapse_lstrip (n : nat) :
  forall (s : str) (pos : nat),
    length s <= n -> ends_clean s ->
    collapse_at pos (lstrip s) = join (lit " ") (split s).
Proof.
  induction n as [|n IH]; intros s pos Hn Hs.
  - destruct s; [reflexivity|simpl in Hn; lia].
  - destruct s as [|c s]; [reflexivity|].
    destruct (is_space c) eqn:Ec.
    + (* a leading space *)
      assert (E : split (c :: s) = split s)
        by (unfold split; simpl; now rewrite Ec).
      rewrite E; simpl lstrip; rewrite Ec.
      destruct s as [|d s]; [reflexivity|].
      apply IH; [simpl in *; lia|].
      exact (proj1 (ends_clean_app [c] (d :: s) ltac:(discriminate)) Hs).
    + rewrite lstrip_id by exact Ec.
      destruct (first_token c s Ec) as (t & r & E & Ht & Hr).
      rewrite E; destruct Ht as [Hne Ht'].
      rewrite collapse_token by exact Ht'.
      destruct Hr as [->|(d & r' & -> & Hd)].
      * rewrite collapse_nil, !app_nil_r.
        rewrite split_token by (split; auto); reflexivity.
      * rewrite split_token_space by (auto; split; auto).
        rewrite collapse_space by exact Hd.
        assert (Hr' : r' <> [] /\ ends_clean r').
        { rewrite E in Hs.
          apply (proj1 (ends_clean_app t (d :: r') ltac:(discriminate))) in Hs.
          destruct r' as [|e r'].
          - destruct Hs as [Hs|Hs]; [discriminate|simpl in Hs; congruence].
          - split; [discriminate|].
            exact (proj1 (ends_clean_app [d] (e :: r') ltac:(discriminate))
                     Hs). }
        destruct Hr' as [Hr1 Hr2].
        assert (Hlen : length r' <= n).
        { apply (f_equal (@length char)) in E; rewrite length_app in E.
          simpl in *; destruct t; [congruence|simpl in E; lia]. }
        rewrite (IH r' _ Hlen Hr2).
        assert (Hsp : split r' <> []).
        { intros Hnil; apply split_nil_blank in Hnil.
          destruct Hr2 as [Hr2|Hr2]; [contradiction|].
          rewrite forallb_forall in Hnil.
          assert (Hin : In (last r' 0%N) r')
            by (now apply last_In).
          apply Hnil in Hin; congruence. }
        rewrite join_cons by exact Hsp; reflexivity.
Qed.

Lemma collapse_strip (s : str) :
  re_sub (Plus ws) (lit " ") (strip s) = join (lit " ") (split s).
Proof.
  unfold re_sub, strip; fold (collapse_at 0 (lstrip (rstrip s))).
  rewrite (collapse_lstrip (length (rstrip s))); auto using ends_clean_rstrip.
  now rewrite split_rstrip.
Qed.

Lemma collapse_join (toks : list str) :
  Forall token toks ->
  re_sub (Plus ws) (lit " ") (join (lit " ") toks) = join (lit " ") toks.
Proof.
  intros H; rewrite <- (strip_join toks H) at 1.
  now rewrite collapse_strip, split_join.
Qed.

Lemma lang_plus_digit (w : str) : lang (Plus digit) w <-> digits w.
Proof.
  unfold Plus, digit, digits; simpl; split.
  - intros (u & v & -> & (c & -> & Hc) & Hv); split; [discriminate|].
    simpl; now rewrite Hc.
  - intros [Hne H]; destruct w as [|c w]; [congruence|].
    simpl in H; apply andb_true_iff in H as [Hc Hw].
    exists [c], w; repeat split; eauto.
Qed.

Lemma lang_number (w : str) : lang number_pattern w <-> number w.
Proof.
  unfold number_pattern, number.
  change (lang (Cat [Plus digit; Opt (Lit DOT); Star digit]) w)
    with (exists u v, w = u ++ v /\ lang (Plus digit) u /\
            exists u' v', v = u' ++ v' /\
              ((exists c, u' = [c] /\ N.eqb DOT c = true) \/ u' = []) /\
              forallb is_digit v' = true).
  split.
  - intros (u & v & -> & Hu & u' & v' & -> & Hd & Hv).
    apply lang_plus_digit in Hu.
    exists u, u', v'; split; [reflexivity|]; split; [exact Hu|]; split; auto.
    destruct Hd as [(c & -> & Hc)| ->]; auto.
    apply N.eqb_eq in Hc; subst; auto.
  - intros (ip & dot & fp & -> & Hip & Hd & Hfp).
    exists ip, (dot ++ fp); split; [reflexivity|].
    split; [now apply lang_plus_digit|].
    exists dot, fp; split; [reflexivity|]; split; auto.
    destruct Hd as [-> | ->]; auto.
    left; exists DOT; auto.
Qed.

(** ** The value formats *)

Lemma not_space_newline (a b : str) :
  forallb not_space (a ++ 10%N :: b) = true -> False.
Proof.
  rewrite forallb_app; simpl; intros H.
  apply andb_true_iff in H as [_ H]; discriminate.
Qed.

Lemma not_space_app (a b : str) :
  forallb not_space (a ++ b) = true
  <-> forallb not_space a = true /\ forallb not_space b = true.
Proof. rewrite forallb_app; apply andb_true_iff. Qed.

(** The end of a text without white space is its end. *)
Lemma eol_token (w a r : str) :
  forallb not_space w = true -> w = a ++ r -> r = [] \/ r = [10%N] -> r = [].
Proof.
  intros Hw -> [E|E]; auto; subst r.
  exfalso; exact (not_space_newline a [] Hw).
Qed.

Lemma format1_sem (w : str) (m : mstate) :
  re_match format1 w = Some m -> forallb not_space w = true ->
  exists num c,
    w = num ++ [c] /\ number num /\ mem_char c multiplier_letters = true /\
    groups m = [num; [c]].
Proof.
  intros Hm Hw; apply match_at_sem in Hm; [|reflexivity].
  cbn [format1 Cat sem] in Hm.
  destruct Hm as (m0 & [_ ->] & m1 & (num & Hnum & [R1 P1] & C1)
                  & m2 & (l & (c & -> & Hc) & [R2 P2] & C2) & He & ->).
  cbn [m_rest m_caps m_pos] in *.
  assert (E : w = (num ++ [c]) ++ m_rest m2)
    by (rewrite R1, R2, <- app_assoc; reflexivity).
  apply (eol_token _ _ _ Hw E) in He; rewrite He, app_nil_r in E.
  exists num, c; repeat split; auto.
  - now apply lang_number.
  - unfold groups; now rewrite C2, C1.
Qed.

Lemma format2_sem (w : str) (m : mstate) :
  re_match format2 w = Some m -> forallb not_space w = true ->
  exists main c dec,
    w = main ++ [c] ++ dec /\ digits main /\
    mem_char c multiplier_letters = true /\ digits dec /\
    groups m = [main; [c]; dec].
Proof.
  intros Hm Hw; apply match_at_sem in Hm; [|reflexivity].
  cbn [format2 Cat sem] in Hm.
  destruct Hm as (m0 & [_ ->] & m1 & (main & Hmain & [R1 P1] & C1)
                  & m2 & (l & (c & -> & Hc) & [R2 P2] & C2)
                  & m3 & (dec & Hdec & [R3 P3] & C3) & He & ->).
  cbn [m_rest m_caps m_pos] in *.
  assert (E : w = (main ++ [c] ++ dec) ++ m_rest m3)
    by (rewrite R1, R2, R3, <- !app_assoc; reflexivity).
  apply (eol_token _ _ _ Hw E) in He; rewrite He, app_nil_r in E.
  exists main, c, dec; repeat split; auto;
    try (apply lang_plus_digit; assumption).
  unfold groups; now rewrite C3, C2, C1.
Qed.

Lemma format3_sem (w : str) (m : mstate) :
  re_match format3 w = Some m -> forallb not_space w = true ->
  exists main r dec,
    w = main ++ [r] ++ dec /\ digits main /\ ci_eq 82%N r = true /\
    forallb is_digit dec = true /\ groups m = [main; dec].
Proof.
  intros Hm Hw; apply match_at_sem in Hm; [|reflexivity].
  cbn [format3 Cat sem] in Hm.
  destruct Hm as (m0 & [_ ->] & m1 & (main & Hmain & [R1 P1] & C1)
                  & m2 & (l & (c & -> & Hc) & [R2 P2] & C2)
                  & m3 & (dec & Hdec & [R3 P3] & C3) & He & ->).
  cbn [m_rest m_caps m_pos] in *.
  assert (E : w = (main ++ [c] ++ dec) ++ m_rest m3)
    by (rewrite R1, R2, R3, <- !app_assoc; reflexivity).
  apply (eol_token _ _ _ Hw E) in He; rewrite He, app_nil_r in E.
  exists main, c, dec; repeat split; auto;
    try (apply lang_plus_digit; assumption).
  unfold groups; now rewrite C3, C2, C1.
Qed.

Lemma format4_sem (w : str) (m : mstate) :
  re_match format4 w = Some m -> forallb not_space w = true -> number w.
Proof.
  intros Hm Hw; apply match_at_sem in Hm; [|reflexivity].
  cbn [format4 Cat sem] in Hm.
  destruct Hm as (m0 & [_ ->] & m1 & (num & Hnum & [R1 P1] & C1) & He & ->).
  cbn [m_rest m_caps m_pos] in *.
  apply (eol_token _ _ _ Hw R1) in He; rewrite He, app_nil_r in R1.
  subst w; now apply lang_number.
Qed.

(** Where a text of digits stops. *)
Lemma first_other (p : char -> bool) (a a' : str) (x x' : char) (b b' : str) :
  forallb p a = true -> forallb p a' = true -> p x = false -> p x' = false ->
  a ++ x :: b = a' ++ x' :: b' -> a = a' /\ x = x' /\ b = b'.
Proof.
  revert a'; induction a as [|c a IH]; intros [|c' a'] Ha Ha' Hx Hx' E;
    simpl in *.
  - injection E as -> ->; auto.
  - injection E as -> _; apply andb_true_iff in Ha' as [H _]; congruence.
  - injection E as -> _; apply andb_true_iff in Ha as [H _]; congruence.
  - injection E as -> E.
    apply andb_true_iff in Ha as [_ Ha]; apply andb_true_iff in Ha' as [_ Ha'].
    destruct (IH a' Ha Ha' Hx Hx' E) as (-> & -> & ->); auto.
Qed.

Lemma format1_match (num : str) (c : char) :
  number num -> mem_char c multiplier_letters = true ->
  forallb not_space (num ++ [c]) = true ->
  exists m, re_match format1 (num ++ [c]) = Some m /\ groups m = [num; [c]].
Proof.
  intros Hnum Hc Hw.
  destruct (match_at_exists format1 0 (num ++ [c])
              (MState (length num + 1) [] [num; [c]]) eq_refl) as [m Hm].
  { cbn [format1 Cat sem].
    exists (MState 0 (num ++ [c]) []); split; [split; reflexivity|].
    exists (MState (length num) [c] [num]); split.
    { exists num; split; [now apply lang_number|].
      split; [split|]; reflexivity. }
    exists (MState (length num + 1) [] [num; [c]]); split.
    { exists [c]; split; [now exists c|]; split; [split|]; reflexivity. }
    split; auto. }
  exists m; split; [exact Hm|].
  destruct (format1_sem _ _ Hm Hw) as (num' & c' & E & _ & _ & G).
  apply app_inj_tail in E as [-> ->]; exact G.
Qed.

Lemma ci_R (r : char) : ci_eq 82%N r = true -> r = 82%N \/ r = 114%N.
Proof.
  unfold ci_eq; simpl.
  destruct (N.eqb_spec r 82); auto; destruct (N.eqb_spec r 114); auto.
  discriminate.
Qed.

Lemma ci_R_not_digit (r : char) : ci_eq 82%N r = true -> is_digit r = false.
Proof. intros H; destruct (ci_R r H) as [-> | ->]; reflexivity. Qed.

Lemma format3_match (main : str) (r : char) :
  digits main -> ci_eq 82%N r = true ->
  forallb not_space (main ++ [r]) = true ->
  exists m, re_match format3 (main ++ [r]) = Some m /\ groups m = [main; []].
Proof.
  intros Hmain Hr Hw.
  destruct (match_at_exists format3 0 (main ++ [r])
              (MState (length main + 1 + 0) [] [main; []]) eq_refl) as [m Hm].
  { cbn [format3 Cat sem].
    exists (MState 0 (main ++ [r]) []); split; [split; reflexivity|].
    exists (MState (length main) [r] [main]); split.
    { exists main; split; [now apply lang_plus_digit|].
      split; [split|]; reflexivity. }
    exists (MState (length main + 1) [] [main]); split.
    { exists [r]; split; [now exists r|]; split; [split|]; reflexivity. }
    exists (MState (length main + 1 + 0) [] [main; []]); split.
    { exists []; split; [reflexivity|]; split; [split|]; reflexivity. }
    split; auto. }
  exists m; split; [exact Hm|].
  destruct (format3_sem _ _ Hm Hw)
    as (main' & r' & dec' & E & Hm' & Hr' & _ & G).
  rewrite G; clear G Hm.
  destruct (first_other is_digit main main' r r' [] dec') as (-> & _ & <-);
    auto using ci_R_not_digit; [apply Hmain|apply Hm'].
Qed.

Lemma format4_match (num : str) :
  number num -> exists m, re_match format4 num = Some m.
Proof.
  intros Hnum.
  apply (match_at_exists format4 0 num (MState (length num) [] [num]) eq_refl).
  cbn [format4 Cat sem].
  exists (MState 0 num []); split; [split; reflexivity|].
  exists (MState (length num) [] [num]); split; [|split; auto].
  exists num; split; [now apply lang_number|].
  split; [split|]; simpl; auto using app_nil_r.
  symmetry; apply app_nil_r.
Qed.

(** ** Units at the end of a token *)

Lemma flat_WordI (u : str) : flat (WordI u) = true.
Proof. induction u as [|a u IH]; simpl; auto. Qed.

Lemma flat_unit (u : str) : flat (Seq (WordI u) Eol) = true.
Proof. simpl; now rewrite flat_WordI. Qed.

Lemma sem_WordI (u : str) :
  forall st st', sem (WordI u) st st' ->
                 exists w, ci_word u w = true /\ reads st w st'.
Proof.
  induction u as [|a u IH]; intros st st' H.
  - destruct H as (w & -> & R & _); exists []; auto.
  - destruct H as (mid & (l & (c & -> & Hc) & R & _) & H).
    destruct (IH _ _ H) as (w & Hw & R').
    exists (c :: w); split; [simpl; now rewrite Hc|].
    exact (reads_app _ _ _ [c] w R R').
Qed.

Lemma ci_word_app (u u' w w' : str) :
  ci_word u w = true -> ci_word u' w' = true ->
  ci_word (u ++ u') (w ++ w') = true.
Proof.
  revert w; induction u as [|a u IH]; intros [|c w] H H'; simpl in *;
    try discriminate; auto.
  apply andb_true_iff in H as [Ha H]; rewrite Ha; simpl; auto.
Qed.

Lemma ci_word_rev (u : str) :
  forall w, ci_word u w = true -> ci_word (rev u) (rev w) = true.
Proof.
  induction u as [|a u IH]; intros [|c w] H; simpl in *; try discriminate; auto.
  apply andb_true_iff in H as [Ha H].
  apply ci_word_app; auto; simpl; now rewrite Ha.
Qed.

Lemma ci_word_prefix (p : str) :
  forall q t, ci_word p q = true -> ci_prefix p (q ++ t) = true.
Proof.
  induction p as [|a p IH]; intros [|c q] t H; simpl in *; try discriminate;
    auto.
  apply andb_true_iff in H as [Ha H]; rewrite Ha; simpl; auto.
Qed.

Lemma ci_word_ends (u a w : str) :
  ci_word u w = true -> ends_ci u (a ++ w) = true.
Proof.
  intros H; unfold ends_ci; rewrite rev_app_distr.
  apply ci_word_prefix, ci_word_rev, H.
Qed.

(** Without a match there is nothing to replace. *)
Lemma sub_from_no_match (r : regex) (repl : str) :
  forall (rest : str) (pos : nat),
    (forall k, k <= length rest ->
               match_at r (pos + k) (skipn k rest) = None) ->
    sub_from r repl pos rest 0 = rest.
Proof.
  induction rest as [|c rest IH]; intros pos H.
  - simpl; specialize (H 0 (Nat.le_0_l _)); rewrite Nat.add_0_r in H.
    simpl in H; now rewrite H.
  - cbn [sub_from].
    pose proof (H 0 (Nat.le_0_l _)) as H0; rewrite Nat.add_0_r in H0.
    simpl in H0; rewrite H0; f_equal; apply IH.
    intros k Hk; specialize (H (S k)); simpl in H.
    rewrite <- Nat.add_succ_comm in H; apply H; lia.
Qed.

(** The replacement of matches by nothing keeps what holds of every
    character. *)
Lemma sub_from_forallb (r : regex) (p : char -> bool) :
  forall (rest : str) (pos skip : nat),
    forallb p rest = true -> forallb p (sub_from r [] pos rest skip) = true.
Proof.
  induction rest as [|c rest IH]; intros pos skip H.
  - destruct skip; simpl; auto.
    destruct (match_at r pos []) as [m|]; auto.
    destruct (m_pos m - pos); auto.
  - simpl in H; apply andb_true_iff in H as [Hc H].
    destruct skip; cbn [sub_from]; auto.
    destruct (match_at r pos (c :: rest)) as [m|].
    + destruct (m_pos m - pos); simpl; auto.
      rewrite Hc; simpl; auto.
    + simpl; rewrite Hc; simpl; auto.
Qed.

Lemma strip_unit_forallb (p : char -> bool) (x u : str) :
  forallb p x = true -> forallb p (strip_unit x u) = true.
Proof. apply sub_from_forallb. Qed.

Lemma strip_units_forallb (p : char -> bool) (units : list str) :
  forall x, forallb p x = true ->
            forallb p (fold_left strip_unit units x) = true.
Proof.
  induction units as [|u units IH]; intros x H; simpl; auto.
  apply IH, strip_unit_forallb, H.
Qed.

(** A unit that is not at the end of the token is not stripped. *)
Lemma strip_unit_id (x u : str) :
  forallb not_space x = true -> ends_ci u x = false -> strip_unit x u = x.
Proof.
  intros Hx Hu; unfold strip_unit, re_sub; apply sub_from_no_match.
  intros k Hk; destruct (match_at _ _ _) as [m|] eqn:Hm; auto; exfalso.
  apply match_at_sem in Hm; [|apply flat_unit].
  destruct Hm as (mid & Hw & He & ->).
  destruct (sem_WordI _ _ _ Hw) as (w & Hcw & [R _]); simpl in R.
  assert (E : x = (firstn k x ++ w) ++ m_rest mid)
    by (rewrite <- app_assoc, <- R; symmetry; apply firstn_skipn).
  apply (eol_token _ _ _ Hx E) in He; rewrite He, app_nil_r in E.
  rewrite E, ci_word_ends in Hu; [discriminate|exact Hcw].
Qed.

Lemma strip_units_id (units : list str) (x : str) :
  forallb not_space x = true ->
  forallb (fun u => negb (ends_ci u x)) units = true ->
  fold_left strip_unit units x = x.
Proof.
  intros Hx; induction units as [|u units IH]; simpl; auto.
  intros H; apply andb_true_iff in H as [Hu H].
  rewrite strip_unit_id; auto; now apply negb_true_iff.
Qed.

(** ** Characters *)

Lemma mem_char_In (c : char) (l : list char) : mem_char c l = true <-> In c l.
Proof.
  unfold mem_char; rewrite existsb_exists; split.
  - intros (x & Hx & E); apply N.eqb_eq in E; now subst.
  - intros H; exists c; split; auto using N.eqb_refl.
Qed.

Ltac each_char H :=
  repeat (destruct H as [<-|H]; [try reflexivity|]); try contradiction.

Lemma numeric_not_space (c : char) : numeric c = true -> not_space c = true.
Proof.
  intros H; unfold not_space; destruct (is_space c) eqn:E; auto.
  apply mem_char_In in E; simpl in E.
  each_char E; discriminate.
Qed.

Lemma digit_numeric (c : char) : is_digit c = true -> numeric c = true.
Proof. unfold numeric; now intros ->. Qed.

Lemma digit_not_space (c : char) : is_digit c = true -> is_space c = false.
Proof.
  intros H; apply digit_numeric, numeric_not_space in H.
  now apply negb_true_iff.
Qed.

Lemma letter_not_numeric (c : char) :
  mem_char c multiplier_letters = true -> numeric c = false.
Proof. intros H; apply mem_char_In in H; simpl in H; each_char H. Qed.

Lemma letter_not_space (c : char) :
  mem_char c multiplier_letters = true -> not_space c = true.
Proof. intros H; apply mem_char_In in H; simpl in H; each_char H. Qed.

Lemma ci_R_not_numeric (r : char) : ci_eq 82%N r = true -> numeric r = false.
Proof. intros H; destruct (ci_R r H) as [-> | ->]; reflexivity. Qed.

(** The letter a multiplier is written with is a multiplier letter that is
    written as it is. *)
Lemma canonical_letter (c : char) :
  mem_char c multiplier_letters = true ->
  exists c', canonical_mult [c] = [c'] /\ In c' (lit "pnumkMG").
Proof.
  intros H; apply mem_char_In in H; simpl in H.
  repeat (destruct H as [<-|H]; [eexists; split; [reflexivity|simpl; tauto]|]).
  contradiction.
Qed.

Lemma canonical_fixed (c : char) :
  In c (lit "pnumkMG") ->
  canonical_mult [c] = [c] /\ mem_char c multiplier_letters = true.
Proof. intros H; simpl in H; each_char H; split; reflexivity. Qed.

(** ** Numbers *)

Lemma digits_numeric (w : str) :
  forallb is_digit w = true -> forallb numeric w = true.
Proof.
  rewrite !forallb_forall; intros H c Hc; apply digit_numeric; auto.
Qed.

Lemma number_numeric (w : str) : number w -> forallb numeric w = true.
Proof.
  intros (ip & dot & fp & -> & [_ Hip] & Hd & Hfp).
  rewrite !forallb_app, (digits_numeric ip), (digits_numeric fp) by auto.
  destruct Hd as [-> | ->]; reflexivity.
Qed.

Lemma number_nonempty (w : str) : number w -> w <> [].
Proof.
  intros (ip & dot & fp & -> & [Hne _] & _); destruct ip; [congruence|].
  discriminate.
Qed.

Lemma digits_number (w : str) : digits w -> number w.
Proof.
  intros H; exists w, [], []; rewrite !app_nil_r; repeat split; auto; apply H.
Qed.

Lemma decimal_number (main dec : str) :
  digits main -> forallb is_digit dec = true ->
  number (main ++ lit "." ++ dec).
Proof. intros H H'; exists main, [DOT], dec; repeat split; auto; apply H. Qed.

Lemma numeric_forall_not_space (w : str) :
  forallb numeric w = true -> forallb not_space w = true.
Proof.
  rewrite !forallb_forall; intros H c Hc; apply numeric_not_space; auto.
Qed.

(** The last character of a text. *)
Lemma rev_last (w : str) :
  w <> [] -> exists c tl, rev w = c :: tl /\ In c w.
Proof.
  intros H; destruct (rev w) as [|c tl] eqn:E.
  - apply (f_equal (@rev char)) in E; rewrite rev_involutive in E.
    contradiction.
  - exists c, tl; split; auto; apply in_rev; rewrite E; now left.
Qed.

Lemma rev_last_numeric (w : str) :
  w <> [] -> forallb numeric w = true ->
  exists c tl, rev w = c :: tl /\ numeric c = true.
Proof.
  intros H Hw; destruct (rev_last w H) as (c & tl & E & Hc).
  exists c, tl; split; auto; rewrite forallb_forall in Hw; auto.
Qed.

(** ** Normalised tokens carry no unit *)

Lemma ci_eq_numeric (a c : char) :
  existsb numeric (ci_class a) = false -> numeric c = true ->
  ci_eq a c = false.
Proof.
  intros Ha Hc; destruct (ci_eq a c) eqn:E; auto.
  apply mem_char_In in E.
  assert (existsb numeric (ci_class a) = true)
    by (apply existsb_exists; eauto).
  congruence.
Qed.

(** A unit does not end a text that ends with a digit or a dot. *)
Lemma ends_ci_numeric (u : str) (c : char) (tl : str) :
  match rev u with
  | a :: _ => negb (existsb numeric (ci_class a))
  | [] => false
  end = true ->
  numeric c = true -> ci_prefix (rev u) (c :: tl) = false.
Proof.
  destruct (rev u) as [|a p]; [discriminate|]; intros Ha Hc.
  apply negb_true_iff in Ha; simpl; now rewrite ci_eq_numeric.
Qed.

(** Nor a text that ends with a digit or a dot and a letter [c], when
    the unit ends with another letter or has a letter before it. *)
Lemma ends_ci_letter (u : str) (c d : char) (tl : str) :
  match rev u with
  | a :: b :: _ => negb (ci_eq a c) || negb (existsb numeric (ci_class b))
  | [a] => negb (ci_eq a c)
  | [] => false
  end = true ->
  numeric d = true -> ci_prefix (rev u) (c :: d :: tl) = false.
Proof.
  destruct (rev u) as [|a [|b p]]; [discriminate| |]; intros Ha Hd; simpl.
  - apply negb_true_iff in Ha; now rewrite Ha.
  - apply orb_true_iff in Ha as [Ha|Ha]; apply negb_true_iff in Ha.
    + now rewrite Ha.
    + rewrite (ci_eq_numeric b d) by auto; apply andb_false_r.
Qed.

Lemma units_numeric (x : str) :
  x <> [] -> forallb numeric x = true ->
  fold_left strip_unit units_to_strip x = x.
Proof.
  intros Hne Hx; destruct (rev_last_numeric x Hne Hx) as (c & tl & E & Hc).
  apply strip_units_id; [now apply numeric_forall_not_space|].
  apply forallb_forall; intros u Hu; apply negb_true_iff.
  unfold ends_ci; rewrite E; apply ends_ci_numeric; auto.
  revert u Hu; apply forallb_forall; reflexivity.
Qed.

Lemma units_letter (body : str) (c : char) :
  body <> [] -> forallb numeric body = true -> In c (lit "pnumkMGR") ->
  fold_left strip_unit units_to_strip (body ++ [c]) = body ++ [c].
Proof.
  intros Hne Hx Hc.
  destruct (rev_last_numeric body Hne Hx) as (d & tl & E & Hd).
  apply strip_units_id.
  - apply not_space_app; split; [now apply numeric_forall_not_space|].
    simpl in Hc; each_char Hc.
  - apply forallb_forall; intros u Hu; apply negb_true_iff.
    unfold ends_ci; rewrite rev_app_distr, E; apply ends_ci_letter; auto.
    revert u Hu; apply forallb_forall.
    simpl in Hc; each_char Hc.
Qed.

(** ** The normalised token is normalised to itself *)

Lemma format1_none (x : str) :
  forallb not_space x = true ->
  (forall num c, x = num ++ [c] -> mem_char c multiplier_letters = false) ->
  re_match format1 x = None.
Proof.
  intros Hx H; destruct (re_match format1 x) as [m|] eqn:Hm; auto.
  destruct (format1_sem _ _ Hm Hx) as (num & c & E & _ & Hc & _).
  rewrite (H _ _ E) in Hc; discriminate.
Qed.

Lemma format2_none (x : str) :
  forallb not_space x = true ->
  (forall a c, x = a ++ [c] -> is_digit c = false) ->
  re_match format2 x = None.
Proof.
  intros Hx H; destruct (re_match format2 x) as [m|] eqn:Hm; auto.
  destruct (format2_sem _ _ Hm Hx) as (main & c & dec & E & _ & _ & Hd & _).
  destruct Hd as [Hne Hd].
  destruct (exists_last Hne) as (dec' & e & ->).
  rewrite forallb_app in Hd; simpl in Hd.
  rewrite (H (main ++ [c] ++ dec') e), andb_false_r in Hd; [discriminate|].
  now rewrite E, <- !app_assoc.
Qed.

(** A number followed by the letter of its multiplier. *)
Lemma normalize_token_letter (num : str) (c : char) :
  number num -> In c (lit "pnumkMG") ->
  normalize_token (num ++ [c]) = Some (num ++ [c]).
Proof.
  intros Hnum Hc; unfold normalize_token.
  rewrite units_letter; auto using number_nonempty, number_numeric;
    [|simpl in *; tauto].
  destruct (canonical_fixed c Hc) as [Hcan Hmem].
  destruct (format1_match num c Hnum Hmem) as (m & -> & G).
  - apply not_space_app; split.
    + now apply numeric_forall_not_space, number_numeric.
    + simpl; now rewrite letter_not_space.
  - rewrite G; simpl; now rewrite Hcan.
Qed.

(** A number of ohms without a decimal part. *)
Lemma normalize_token_R (main : str) :
  digits main -> normalize_token (main ++ lit "R") = Some (main ++ lit "R").
Proof.
  intros Hmain; pose proof (digits_number _ Hmain) as Hnum.
  assert (Hx : forallb not_space (main ++ lit "R") = true).
  { apply not_space_app; split; [|reflexivity].
    now apply numeric_forall_not_space, number_numeric. }
  unfold normalize_token; change (lit "R") with [82%N] in *.
  rewrite units_letter; auto using number_nonempty, number_numeric;
    [|simpl; tauto].
  rewrite format1_none, format2_none; auto.
  - destruct (format3_match main 82%N Hmain eq_refl Hx) as (m & -> & G).
    now rewrite G.
  - intros a c E; apply app_inj_tail in E as [_ <-]; reflexivity.
  - intros a c E; apply app_inj_tail in E as [_ <-]; reflexivity.
Qed.

(** A number of ohms with a decimal part is left as it is. *)
Lemma normalize_token_R_dec (main dec : str) :
  digits main -> digits dec ->
  normalize_token (main ++ lit "." ++ dec ++ lit "R") = None.
Proof.
  intros Hmain Hdec.
  pose proof (decimal_number main dec Hmain (proj2 Hdec)) as Hnum.
  change (lit "R") with [82%N]; change (lit ".") with [DOT] in *.
  assert (E : main ++ [DOT] ++ dec ++ [82%N]
              = (main ++ [DOT] ++ dec) ++ [82%N])
    by now rewrite <- !app_assoc.
  assert (Hx : forallb not_space (main ++ [DOT] ++ dec ++ [82%N]) = true).
  { rewrite E; apply not_space_app; split; [|reflexivity].
    now apply numeric_forall_not_space, number_numeric. }
  unfold normalize_token.
  replace (fold_left strip_unit units_to_strip
             (main ++ [DOT] ++ dec ++ [82%N]))
    with (main ++ [DOT] ++ dec ++ [82%N])
    by (rewrite E; symmetry; apply units_letter;
        auto using number_nonempty, number_numeric; simpl; tauto).
  rewrite format1_none, format2_none; auto.
  - destruct (re_match format3 _) as [m|] eqn:Hm.
    + exfalso.
      destruct (format3_sem _ _ Hm Hx)
        as (main' & r & dec' & E' & Hm' & Hr & _).
      destruct (first_other is_digit main main' DOT r
                  (dec ++ [82%N]) dec') as (_ & <- & _);
        auto using ci_R_not_digit; try apply Hmain; try apply Hm'.
      discriminate.
    + destruct (re_match format4 _) as [m|] eqn:Hm4; auto.
      apply format4_sem, number_numeric in Hm4; auto.
      rewrite E, forallb_app in Hm4; simpl in Hm4.
      rewrite andb_false_r in Hm4; discriminate.
  - intros a c E'; rewrite E in E'.
    apply app_inj_tail in E' as [_ <-]; reflexivity.
  - intros a c E'; rewrite E in E'.
    apply app_inj_tail in E' as [_ <-]; reflexivity.
Qed.

Lemma in_last (a : str) (c : char) : In c (a ++ [c]).
Proof. apply in_or_app; right; now left. Qed.

(** A number without a multiplier. *)
Lemma normalize_token_number (x : str) :
  number x -> normalize_token x = Some x.
Proof.
  intros Hnum; pose proof (number_numeric _ Hnum) as Hx.
  pose proof (numeric_forall_not_space _ Hx) as Hs.
  unfold normalize_token.
  rewrite units_numeric; auto using number_nonempty.
  rewrite forallb_forall in Hx.
  assert (H1 : re_match format1 x = None).
  { destruct (re_match format1 x) as [m|] eqn:Hm; auto; exfalso.
    destruct (format1_sem _ _ Hm Hs) as (num & c & E & _ & Hc & _).
    apply letter_not_numeric in Hc; rewrite Hx in Hc; [discriminate|].
    rewrite E; apply in_last. }
  assert (H2 : re_match format2 x = None).
  { destruct (re_match format2 x) as [m|] eqn:Hm; auto; exfalso.
    destruct (format2_sem _ _ Hm Hs) as (main & l & dec & E' & _ & Hl & _).
    apply letter_not_numeric in Hl; rewrite Hx in Hl; [discriminate|].
    rewrite E'; apply in_or_app; right; now left. }
  assert (H3 : re_match format3 x = None).
  { destruct (re_match format3 x) as [m|] eqn:Hm; auto; exfalso.
    destruct (format3_sem _ _ Hm Hs) as (main & r & dec & E & _ & Hr & _).
    apply ci_R_not_numeric in Hr; rewrite Hx in Hr; [discriminate|].
    rewrite E; apply in_or_app; right; now left. }
  rewrite H1, H2, H3.
  now destruct (format4_match x Hnum) as (m & ->).
Qed.

(** What [normalize_value] makes of a first token it can read is a token
    it reads as itself, or cannot read at all. *)
Lemma normalize_token_fixed (n n' : str) :
  forallb not_space n = true -> normalize_token n = Some n' ->
  token n' /\ (normalize_token n' = Some n' \/ normalize_token n' = None).
Proof.
  intros Hn; unfold normalize_token at 1.
  pose proof (strip_units_forallb not_space units_to_strip n Hn) as Hw.
  set (w := fold_left strip_unit units_to_strip n) in *.
  destruct (re_match format1 w) as [m1|] eqn:H1.
  { destruct (format1_sem _ _ H1 Hw) as (num & c & E & Hnum & Hc & G).
    rewrite G; simpl; intros H; apply some_inj in H; subst n'.
    destruct (canonical_letter c Hc) as (c' & -> & Hc').
    rewrite normalize_token_letter by auto; split; auto.
    split; [destruct num; discriminate|].
    apply not_space_app; split.
    - now apply numeric_forall_not_space, number_numeric.
    - simpl; rewrite letter_not_space; auto; apply canonical_fixed, Hc'. }
  destruct (re_match format2 w) as [m2|] eqn:H2.
  { destruct (format2_sem _ _ H2 Hw)
      as (main & c & dec & E & Hmain & Hc & Hdec & G).
    rewrite G; simpl; intros H; apply some_inj in H; subst n'.
    destruct (canonical_letter c Hc) as (c' & -> & Hc').
    pose proof (decimal_number main dec Hmain (proj2 Hdec)) as Hnum.
    change (main ++ 46%N :: dec) with (main ++ lit "." ++ dec).
    rewrite normalize_token_letter by auto; split; auto.
    split; [destruct main; discriminate|].
    apply not_space_app; split.
    - now apply numeric_forall_not_space, number_numeric.
    - simpl; rewrite letter_not_space; auto; apply canonical_fixed, Hc'. }
  destruct (re_match format3 w) as [m3|] eqn:H3.
  { destruct (format3_sem _ _ H3 Hw)
      as (main & r & dec & E & Hmain & Hr & Hdec & G).
    rewrite G; cbn [nth]; intros H; apply some_inj in H; subst n'.
    destruct dec as [|d dec]; cbn [truthy].
    - rewrite normalize_token_R by auto; split; auto.
      split; [destruct main; discriminate|].
      apply not_space_app; split; [|reflexivity].
      now apply numeric_forall_not_space, number_numeric, digits_number.
    - assert (Hd : digits (d :: dec)) by (split; [discriminate|exact Hdec]).
      rewrite normalize_token_R_dec by auto; split; auto.
      split; [destruct main; discriminate|].
      apply not_space_app; split;
        [now apply numeric_forall_not_space, number_numeric, digits_number|].
      apply (not_space_app (lit ".")); split; [reflexivity|].
      apply not_space_app; split; [|reflexivity].
      now apply numeric_forall_not_space, number_numeric, digits_number. }
  destruct (re_match format4 w) as [m4|] eqn:H4; [|discriminate].
  intros H; apply some_inj in H; subst n'.
  pose proof (format4_sem _ _ H4 Hw) as Hnum.
  rewrite normalize_token_number by auto; split; auto.
  split; [now apply number_nonempty|exact Hw].
Qed.

(** [normalize_value] through the tokens of the value. *)
Lemma normalize_value_token (value_str component_type : str) :
  normalize_value value_str component_type
  = if negb (truthy value_str)
       || negb (mem_str component_type VALUE_PARSE_TYPES)
    then value_str
    else
      let value_str := re_sub (Plus ws) (lit " ") (strip value_str) in
      match split value_str with
      | [] => value_str
      | numeric_part :: rest =>
          match normalize_token numeric_part with
          | Some normalized =>
              with_suffix normalized
                (if Nat.ltb 1 (length (numeric_part :: rest))
                 then join (lit " ") rest else [])
          | None => value_str
          end
      end.
Proof.
  unfold normalize_value, normalize_token.
  destruct (negb (truthy value_str) || _); auto; cbv zeta.
  destruct (split _) as [|n rest]; auto.
  destruct (re_match format1 _); auto.
  destruct (re_match format2 _); auto.
  destruct (re_match format3 _); auto.
  destruct (re_match format4 _); auto.
Qed.

Lemma with_suffix_join (x : str) (rest : list str) :
  token x -> Forall token rest ->
  with_suffix x (if Nat.ltb 1 (length (x :: rest))
                 then join (lit " ") rest else [])
  = join (lit " ") (x :: rest).
Proof.
  intros Hx Hrest; destruct rest as [|y rest]; [reflexivity|].
  change (Nat.ltb 1 (length (x :: y :: rest))) with true; cbv iota.
  unfold with_suffix.
  assert (Hy : truthy (join (lit " ") (y :: rest)) = true).
  { inversion Hrest as [|? ? [Hne _] _]; subst.
    destruct y; [congruence|]; destruct rest; reflexivity. }
  rewrite Hy, <- join_cons by discriminate.
  apply strip_join; auto.
Qed.

(** The value of a readable type, by its tokens. *)
Lemma normalize_value_tokens (v t : str) :
  v <> [] -> mem_str t VALUE_PARSE_TYPES = true ->
  normalize_value v t
  = match split v with
    | [] => []
    | n :: rest =>
        join (lit " ")
          (match normalize_token n with Some x => x | None => n end :: rest)
    end.
Proof.
  intros Hv Ht; rewrite normalize_value_token, Ht.
  apply truthy_true in Hv; rewrite Hv; cbv iota zeta; simpl negb; cbv iota.
  rewrite collapse_strip, split_join by apply split_tokens.
  pose proof (split_tokens v) as Htok.
  destruct (split v) as [|n rest]; [reflexivity|].
  inversion Htok as [|? ? Hn Hrest]; subst.
  destruct (normalize_token n) as [x|] eqn:E; [|reflexivity].
  destruct (normalize_token_fixed n x (proj2 Hn) E) as [Hx _].
  change (length (n :: rest)) with (length (x :: rest)).
  now rewrite with_suffix_join.
Qed.

Lemma join_nonempty (x : str) (rest : list str) :
  token x -> join (lit " ") (x :: rest) <> [].
Proof.
  intros [Hne _]; destruct x; [congruence|]; destruct rest; discriminate.
Qed.

(** Claim C3.  Normalising is idempotent: for every value string [v] and every
    type prefix [t], a value-bearing one in particular,
    [normalize_value (normalize_value v t) t = normalize_value v t]. *)
Theorem normalize_value_idempotent (v t : str) :
  normalize_value (normalize_value v t) t = normalize_value v t.
Proof.
  destruct (mem_str t VALUE_PARSE_TYPES) eqn:Ht.
  2: { unfold normalize_value; rewrite Ht, !orb_true_r; reflexivity. }
  destruct v as [|c v]; [reflexivity|].
  rewrite (normalize_value_tokens (c :: v)) by (auto; discriminate).
  pose proof (split_tokens (c :: v)) as Htok.
  destruct (split (c :: v)) as [|n rest]; [reflexivity|].
  inversion Htok as [|? ? Hn Hrest]; subst.
  assert (Hx : exists x,
             match normalize_token n with Some x => x | None => n end = x /\
             token x /\
             match normalize_token x with Some y => y | None => x end = x).
  { destruct (normalize_token n) as [x|] eqn:E.
    - destruct (normalize_token_fixed n x (proj2 Hn) E) as [Hx [H|H]];
        exists x; rewrite H; auto.
    - exists n; rewrite E; auto. }
  destruct Hx as (x & -> & Hx & Hfix).
  rewrite normalize_value_tokens by (auto using join_nonempty).
  rewrite split_join by (constructor; auto).
  now rewrite Hfix.
Qed.

(** ** Searching *)

Lemma search_from_Some (r : regex) :
  forall (rest : str) (pos p : nat) (m : mstate),
    search_from r pos rest = Some (p, m) ->
    exists k,
      p = pos + k /\ k <= length rest /\
      match_at r p (skipn k rest) = Some m /\
      forall j, j < k -> match_at r (pos + j) (skipn j rest) = None.
Proof.
  induction rest as [|c rest IH]; intros pos p m H; simpl in H.
  - destruct (match_at r pos []) as [m'|] eqn:E; [|discriminate].
    injection H as <- <-; exists 0; rewrite Nat.add_0_r.
    repeat split; auto; intros j Hj; lia.
  - destruct (match_at r pos (c :: rest)) as [m'|] eqn:E.
    + injection H as <- <-; exists 0; rewrite Nat.add_0_r.
      repeat split; auto; [simpl; lia|intros j Hj; lia].
    + destruct (IH _ _ _ H) as (k & -> & Hk & Hm & Hmin).
      exists (S k); repeat split; simpl; try lia.
      * exact Hm.
      * intros [|j] Hj; [now rewrite Nat.add_0_r|].
        rewrite <- Nat.add_succ_comm; apply Hmin; lia.
Qed.

Lemma search_from_None (r : regex) :
  forall (rest : str) (pos : nat),
    search_from r pos rest = None ->
    forall k, k <= length rest -> match_at r (pos + k) (skipn k rest) = None.
Proof.
  induction rest as [|c rest IH]; intros pos H k Hk; simpl in H.
  - destruct (match_at r pos []) eqn:E; [discriminate|].
    simpl in Hk; replace k with 0 by lia; now rewrite Nat.add_0_r.
  - destruct (match_at r pos (c :: rest)) as [[]|] eqn:E; [discriminate|].
    destruct k as [|k]; [now rewrite Nat.add_0_r|].
    rewrite <- Nat.add_succ_comm; apply (IH (S pos)); auto; simpl in Hk; lia.
Qed.

(** ** The voltage pattern *)

Lemma lang_voltage (w : str) :
  lang (Cat [Plus digit; Opt (Lit DOT); Star digit; Lit 86%N]) w
  <-> voltage_text w.
Proof.
  change (lang (Cat [Plus digit; Opt (Lit DOT); Star digit; Lit 86%N]) w)
    with (exists u v, w = u ++ v /\ lang (Plus digit) u /\
            exists u' v', v = u' ++ v' /\
              ((exists c, u' = [c] /\ N.eqb DOT c = true) \/ u' = []) /\
              exists u2 v2, v' = u2 ++ v2 /\ forallb is_digit u2 = true /\
                exists c, v2 = [c] /\ N.eqb 86 c = true).
  unfold voltage_text; split.
  - intros (u & v & -> & Hu & u' & v' & -> & Hd & u2 & v2 & -> & H2
            & c & -> & Hc).
    apply N.eqb_eq in Hc; subst c; apply lang_plus_digit in Hu.
    exists (u ++ u' ++ u2); split; [|now rewrite <- !app_assoc].
    exists u, u', u2; repeat split; auto; try apply Hu.
    destruct Hd as [(c & -> & Hc)| ->]; auto.
    apply N.eqb_eq in Hc; subst; auto.
  - intros (num & (ip & dot & fp & -> & Hip & Hd & Hfp) & ->).
    exists ip, (dot ++ fp ++ [86%N]); split; [now rewrite <- !app_assoc|].
    split; [now apply lang_plus_digit|].
    exists dot, (fp ++ [86%N]); split; [reflexivity|]; split.
    + destruct Hd as [-> | ->]; auto; left; exists DOT; auto.
    + exists fp, [86%N]; repeat split; auto; now exists 86%N.
Qed.

(** A match of the voltage pattern: white space, a voltage text, white
    space. *)
Lemma voltage_pattern_sem (pos : nat) (rest : str) (m : mstate) :
  match_at voltage_pattern pos rest = Some m ->
  exists ws1 w ws2 tail,
    rest = ws1 ++ w ++ ws2 ++ tail /\
    forallb is_space ws1 = true /\ voltage_text w /\
    forallb is_space ws2 = true /\ groups m = [w] /\
    m_pos m = pos + length (ws1 ++ w ++ ws2).
Proof.
  intros Hm; apply match_at_sem in Hm; [|reflexivity].
  cbn [voltage_pattern Cat sem] in Hm.
  destruct Hm as (m1 & (ws1 & H1 & [R1 P1] & C1)
                  & m2 & (w & Hw & [R2 P2] & C2)
                  & (ws2 & H2 & [R3 P3] & C3)).
  cbn [m_rest m_caps m_pos] in *.
  exists ws1, w, ws2, (m_rest m); repeat split; auto.
  - now rewrite R1, R2, R3.
  - now apply lang_voltage.
  - unfold groups; now rewrite C3, C2, C1.
  - rewrite P3, P2, P1, !length_app; lia.
Qed.

Lemma voltage_pattern_match (pos : nat) (w tail : str) :
  voltage_text w -> exists m, match_at voltage_pattern pos (w ++ tail) = Some m.
Proof.
  intros Hw.
  apply (match_at_exists voltage_pattern pos (w ++ tail)
           (MState (pos + 0 + length w + 0) tail [w]) eq_refl).
  cbn [voltage_pattern Cat sem].
  exists (MState (pos + 0) (w ++ tail) []); split.
  { exists []; split; [reflexivity|]; split; [split|]; reflexivity. }
  exists (MState (pos + 0 + length w) tail [w]); split.
  { exists w; split; [now apply lang_voltage|]; split; [split|]; reflexivity. }
  exists []; split; [reflexivity|]; split; [split|]; reflexivity.
Qed.

(** ** Voltage texts *)

Lemma voltage_text_head (w : str) :
  voltage_text w -> exists c w', w = c :: w' /\ is_digit c = true.
Proof.
  intros (num & (ip & dot & fp & -> & [Hne Hip] & _) & ->).
  destruct ip as [|c ip]; [congruence|].
  simpl in Hip; apply andb_true_iff in Hip as [Hc _].
  exists c; eexists; split; [reflexivity|exact Hc].
Qed.

Lemma voltage_text_not_space (w : str) :
  voltage_text w -> forallb not_space w = true.
Proof.
  intros (num & Hnum & ->); apply not_space_app; split; [|reflexivity].
  now apply numeric_forall_not_space, number_numeric.
Qed.

Lemma voltage_text_nonempty (w : str) : voltage_text w -> w <> [].
Proof.
  intros H; destruct (voltage_text_head w H) as (c & w' & -> & _).
  discriminate.
Qed.

(** From one index on, at most one voltage text can be read. *)
Lemma voltage_text_unique (w w' b b' : str) :
  voltage_text w -> voltage_text w' -> w ++ b = w' ++ b' -> w = w'.
Proof.
  intros (num & Hnum & ->) (num' & Hnum' & ->) E.
  rewrite <- !app_assoc in E.
  destruct (first_other numeric num num' 86%N 86%N b b') as (-> & _);
    auto using number_numeric.
Qed.

Lemma occurs_at_lt (w s : str) (i : nat) :
  w <> [] -> occurs_at w s i -> i < length s.
Proof.
  intros Hne [b E]; destruct (Nat.lt_ge_cases i (length s)) as [|H]; auto.
  rewrite skipn_all2 in E by exact H.
  symmetry in E; apply app_eq_nil in E as [-> _]; congruence.
Qed.

Lemma occurs_at_match (w s : str) (i pos : nat) :
  voltage_text w -> occurs_at w s i ->
  exists m, match_at voltage_pattern pos (skipn i s) = Some m.
Proof. intros Hw [b ->]; now apply voltage_pattern_match. Qed.

(** What the search for the voltage pattern finds is a voltage text of the
    value. *)
Lemma search_voltage (s : str) (p : nat) (m : mstate) :
  re_search voltage_pattern s = Some (p, m) ->
  exists w i ws1,
    groups m = [w] /\ voltage_text w /\ occurs_at w s i /\
    i = p + length ws1 /\ forallb is_space ws1 = true /\
    (exists t, skipn p s = ws1 ++ t) /\
    forall j, j < p -> match_at voltage_pattern j (skipn j s) = None.
Proof.
  intros H; apply search_from_Some in H as (k & -> & Hk & Hm & Hmin).
  simpl in *.
  destruct (voltage_pattern_sem _ _ _ Hm)
    as (ws1 & w & ws2 & tail & E & H1 & Hw & H2 & G & _).
  exists w, (k + length ws1), ws1; repeat split; auto.
  - exists (ws2 ++ tail).
    rewrite Nat.add_comm, <- skipn_skipn, E, skipn_app, Nat.sub_diag.
    now rewrite skipn_all.
  - eauto.
Qed.

Lemma search_voltage_None (s : str) :
  re_search voltage_pattern s = None -> ~ has_voltage s.
Proof.
  intros H (w & i & Hw & Hi).
  pose proof (occurs_at_lt w s i (voltage_text_nonempty w Hw) Hi) as Hlt.
  destruct (occurs_at_match w s i i Hw Hi) as [m Hm].
  pose proof (search_from_None _ _ 0 H i ltac:(lia)) as Hn; simpl in Hn.
  congruence.
Qed.

Lemma search_voltage_has (s : str) (p : nat) (m : mstate) :
  re_search voltage_pattern s = Some (p, m) -> has_voltage s.
Proof.
  intros H; destruct (search_voltage s p m H) as (w & i & _ & _ & Hw & Hi & _).
  now exists w, i.
Qed.

(** The search finds the first voltage text. *)
Lemma search_voltage_first (s : str) (p : nat) (m : mstate) :
  re_search voltage_pattern s = Some (p, m) ->
  exists w, groups m = [w] /\ first_voltage s w.
Proof.
  intros H.
  destruct (search_voltage s p m H)
    as (w & i & ws1 & G & Hw & Hi & -> & H1 & [t Ht] & Hnone).
  exists w; split; auto; exists (p + length ws1); repeat split; auto.
  intros w' j Hw' Hj.
  destruct (Nat.le_gt_cases (p + length ws1) j) as [|Hlt]; auto; exfalso.
  destruct (Nat.le_gt_cases p j) as [Hp|Hp].
  2: { destruct (occurs_at_match w' s j j Hw' Hj) as [m' Hm'].
       rewrite (Hnone j Hp) in Hm'; discriminate. }
  (* a voltage text would start with white space *)
  destruct Hj as [b E].
  replace j with ((j - p) + p) in E by lia.
  rewrite <- skipn_skipn, Ht, skipn_app in E.
  replace (j - p - length ws1) with 0 in E by lia; simpl in E.
  destruct (voltage_text_head w' Hw') as (c & w1 & -> & Hc).
  destruct (skipn (j - p) ws1) as [|d l] eqn:El.
  - apply (f_equal (@length char)) in El; rewrite length_skipn in El.
    simpl in El; lia.
  - simpl in E; injection E as <- _.
    assert (Hin : In d ws1).
    { rewrite <- (firstn_skipn (j - p) ws1), El; apply in_or_app; right.
      now left. }
    rewrite forallb_forall in H1; apply H1 in Hin.
    apply digit_not_space in Hc; congruence.
Qed.

Lemma first_voltage_unique (s w w' : str) :
  first_voltage s w -> first_voltage s w' -> w = w'.
Proof.
  intros (i & Hw & Hi & Hmin) (i' & Hw' & Hi' & Hmin').
  assert (i = i')
    by (apply Nat.le_antisymm;
        [exact (Hmin _ _ Hw' Hi')|exact (Hmin' _ _ Hw Hi)]).
  subst i'; destruct Hi as [b E], Hi' as [b' E']; rewrite E in E'.
  exact (voltage_text_unique _ _ _ _ Hw Hw' E').
Qed.

(** ** What a replacement by a space keeps *)

(** A text without white space at the start of the result is at the
    start of the input. *)
Lemma sub_from_prefix (r : regex) :
  forall (rest : str) (pos : nat) (u x : str),
    forallb not_space u = true ->
    sub_from r (lit " ") pos rest 0 = u ++ x -> exists y, rest = u ++ y.
Proof.
  change (lit " ") with [32%N].
  induction rest as [|c rest IH]; intros pos u x Hu E;
    (destruct u as [|e u]; [now eexists|]);
    simpl in Hu; apply andb_true_iff in Hu as [He Hu]; cbn [sub_from] in E.
  - destruct (match_at r pos []) as [m|]; [|discriminate].
    destruct (m_pos m - pos); injection E as <- _; discriminate.
  - destruct (match_at r pos (c :: rest)) as [m|].
    + destruct (m_pos m - pos); injection E as <- _; discriminate.
    + injection E as <- E; destruct (IH _ _ _ Hu E) as [y ->]; now exists y.
Qed.

(** A text without white space in the result is in the input. *)
Lemma sub_from_segment (r : regex) :
  forall (rest : str) (pos skip : nat) (a u b : str),
    u <> [] -> forallb not_space u = true ->
    sub_from r (lit " ") pos rest skip = a ++ u ++ b ->
    exists a' b', rest = a' ++ u ++ b'.
Proof.
  change (lit " ") with [32%N].
  assert (Hsp : forall (u b l : str),
             u <> [] -> forallb not_space u = true ->
             32%N :: l = u ++ b -> False).
  { intros [|e u] b l Hne Hu E; [congruence|].
    injection E as <- _; discriminate. }
  assert (Hcons : forall (rest : str) (pos : nat) (c : char) (a u b : str),
             (forall pos skip a u b,
                 u <> [] -> forallb not_space u = true ->
                 sub_from r [32%N] pos rest skip = a ++ u ++ b ->
                 exists a' b', rest = a' ++ u ++ b') ->
             u <> [] -> forallb not_space u = true ->
             c :: sub_from r [32%N] pos rest 0 = a ++ u ++ b ->
             exists a' b', c :: rest = a' ++ u ++ b').
  { intros rest pos c a u b IH Hne Hu E; destruct a as [|c' a].
    - destruct u as [|e u]; [congruence|]; injection E as <- E.
      simpl in Hu; apply andb_true_iff in Hu as [_ Hu].
      destruct (sub_from_prefix r _ _ _ _ Hu E) as [y ->].
      now exists [], y.
    - injection E as <- E; destruct (IH _ _ _ _ _ Hne Hu E) as (a' & b' & ->).
      now exists (c :: a'), b'. }
  induction rest as [|c rest IH]; intros pos skip a u b Hne Hu E.
  - exfalso; destruct skip; cbn [sub_from] in E.
    + destruct (match_at r pos []) as [m|].
      * destruct a as [|c' a]; [destruct (m_pos m - pos); eauto|].
        destruct (m_pos m - pos); injection E as _ E;
          destruct a, u; try discriminate; congruence.
      * destruct a, u; try discriminate; congruence.
    + destruct a, u; try discriminate; congruence.
  - destruct skip; cbn [sub_from] in E.
    + destruct (match_at r pos (c :: rest)) as [m|]; [|eauto].
      destruct (m_pos m - pos) as [|k];
        (destruct a as [|c' a]; [exfalso; eauto|]); injection E as _ E.
      * eauto.
      * destruct (IH _ _ _ _ _ Hne Hu E) as (a' & b' & ->).
        now exists (c :: a'), b'.
    + destruct (IH _ _ _ _ _ Hne Hu E) as (a' & b' & ->).
      now exists (c :: a'), b'.
Qed.

Lemma strip_segment (x : str) : exists t1 t2, x = t1 ++ strip x ++ t2.
Proof.
  unfold strip; destruct (rstrip_decomp x) as (t2 & E2 & _).
  destruct (lstrip_decomp (rstrip x)) as (t1 & E1 & _).
  exists t1, t2; rewrite app_assoc, <- E1; exact E2.
Qed.

Lemma occurs_at_segment (w s : str) (i : nat) :
  occurs_at w s i -> exists a b, s = a ++ w ++ b.
Proof.
  intros [b E]; exists (firstn i s), b; rewrite <- E.
  symmetry; apply firstn_skipn.
Qed.

(** ** No voltage is left *)

Lemma voltage_pattern_end (pos : nat) : match_at voltage_pattern pos [] = None.
Proof. reflexivity. Qed.

Lemma sub_voltage_clean (n : nat) :
  forall (rest : str) (pos : nat),
    length rest <= n ->
    forall a w b,
      voltage_text w ->
      sub_from voltage_pattern (lit " ") pos rest 0 <> a ++ w ++ b.
Proof.
  induction n as [|n IH]; intros rest pos Hn a w b Hw E;
    destruct (voltage_text_head w Hw) as (d & w1 & -> & Hd).
  - destruct rest; [|simpl in Hn; lia].
    cbn [sub_from] in E; rewrite voltage_pattern_end in E.
    destruct a; discriminate.
  - destruct rest as [|c rest].
    { cbn [sub_from] in E; rewrite voltage_pattern_end in E.
      destruct a; discriminate. }
    cbn [sub_from] in E.
    destruct (match_at voltage_pattern pos (c :: rest)) as [m|] eqn:Hm.
    + destruct (voltage_pattern_sem _ _ _ Hm)
        as (ws1 & w0 & ws2 & tail & Er & _ & Hw0 & _ & _ & Hp).
      assert (Hlen : exists k, m_pos m - pos = S k /\ k <= length rest).
      { apply (f_equal (@length char)) in Er.
        rewrite app_assoc, (app_assoc _ ws2), <- (app_assoc ws1) in Er.
        rewrite (length_app _ tail) in Er; simpl in Er.
        destruct (voltage_text_head w0 Hw0) as (e & w2 & -> & _).
        rewrite !length_app in *; simpl in *.
        exists (m_pos m - pos - 1); split; lia. }
      destruct Hlen as (k & Ek & Hk); rewrite Ek in E.
      rewrite sub_from_skip in E by exact Hk.
      destruct a as [|c' a]; injection E as E1 E.
      * subst d; discriminate.
      * eapply (IH (skipn k rest)); [|exact Hw|exact E].
        rewrite length_skipn; simpl in Hn; lia.
    + destruct a as [|c' a]; injection E as E1 E.
      * subst d.
        assert (H1 : forallb not_space w1 = true).
        { apply voltage_text_not_space in Hw; simpl in Hw.
          now apply andb_true_iff in Hw as [_ Hw]. }
        destruct (sub_from_prefix _ _ _ _ _ H1 E) as [y ->].
        destruct (voltage_pattern_match pos (c :: w1) y Hw) as [m' Hm'].
        simpl in Hm'; congruence.
      * eapply (IH rest); [|exact Hw|exact E].
        simpl in Hn; lia.
Qed.

(** No voltage text is left in the value that is returned. *)
Lemma extract_voltage_clean (s : str) : ~ has_voltage (fst (extract_voltage s)).
Proof.
  unfold extract_voltage; destruct s as [|c s]; simpl negb; cbv iota.
  { intros (w & i & Hw & Hi).
    apply (occurs_at_lt _ _ _ (voltage_text_nonempty w Hw)) in Hi.
    simpl in Hi; lia. }
  destruct (re_search voltage_pattern (c :: s)) as [[p m]|] eqn:H;
    [|now apply search_voltage_None].
  cbv zeta; cbn [fst]; intros (w & i & Hw & Hi).
  apply occurs_at_segment in Hi as (a & b & E).
  apply sub_from_segment in E
    as (a1 & b1 & E); auto using voltage_text_nonempty, voltage_text_not_space.
  destruct (strip_segment (re_sub voltage_pattern (lit " ") (c :: s)))
    as (t1 & t2 & E').
  rewrite E, <- !app_assoc, app_assoc in E'.
  exact (sub_voltage_clean _ _ 0 (Nat.le_refl _) _ _ _ Hw E').
Qed.

(** ** The voltage of a value *)

(** Claim C4, which the code breaks.  The claim has the first match alone
    removed from the value, and the line of the code is commented as
    removing the voltage from the value string; but the substitution has
    no count and replaces every match.  The value with the two voltages
    16V and 25V loses both: 16V is returned as the voltage and 25V is in
    neither of the two texts returned, where the claim leaves it in the
    remainder. *)
Lemma extract_voltage_removes_every_match :
  extract_voltage two_voltages = (lit "100n", lit "16V") /\
  split_voltage_first two_voltages = (lit "100n 25V", lit "16V") /\
  extract_voltage two_voltages <> split_voltage_first two_voltages.
Proof.
  assert (H1 : extract_voltage two_voltages = (lit "100n", lit "16V"))
    by reflexivity.
  assert (H2 : split_voltage_first two_voltages = (lit "100n 25V", lit "16V"))
    by reflexivity.
  repeat split; auto; rewrite H1, H2; discriminate.
Qed.

(** What [extract_voltage] does as it is written.  For every value string
    in which a voltage text (digits, an optional decimal point, digits,
    the letter V) occurs, [extract_voltage] replaces every match of the
    pattern by a space, strips the result and collapses its white space,
    and returns this remainder, in which no voltage text is left, together
    with the first voltage text of the string; for every value string
    without a voltage text it returns the string unchanged with an empty
    voltage.  In particular '100n 16V' gives ('100n', '16V') and '10k'
    gives ('10k', ''). *)
Theorem extract_voltage_spec :
  (forall s, has_voltage s ->
     exists w,
       first_voltage s w /\
       extract_voltage s
       = (join (lit " ") (split (re_sub voltage_pattern (lit " ") s)), w) /\
       ~ has_voltage
           (join (lit " ") (split (re_sub voltage_pattern (lit " ") s)))) /\
  (forall s, ~ has_voltage s -> extract_voltage s = (s, [])) /\
  extract_voltage (lit "100n 16V") = (lit "100n", lit "16V") /\
  extract_voltage (lit "10k") = (lit "10k", []).
Proof.
  split; [|split; [|split; reflexivity]].
  - intros s Hs.
    destruct (re_search voltage_pattern s) as [[p m]|] eqn:H;
      [|now apply search_voltage_None in H].
    destruct (search_voltage_first s p m H) as (w & G & Hw).
    assert (E : extract_voltage s
                = (join (lit " ")
                     (split (re_sub voltage_pattern (lit " ") s)), w)).
    { unfold extract_voltage; rewrite H, G, collapse_strip.
      destruct s; [|reflexivity].
      discriminate H. }
    exists w; repeat split; auto.
    pose proof (extract_voltage_clean s) as Hc; now rewrite E in Hc.
  - intros s Hs; unfold extract_voltage.
    destruct (negb (truthy s)); auto.
    destruct (re_search voltage_pattern s) as [[p m]|] eqn:H; auto.
    now apply search_voltage_has in H.
Qed.

Lemma extract_voltage_spec_witness :
  (has_voltage two_voltages /\
   exists w,
    first_voltage two_voltages w /\
    extract_voltage two_voltages
    = (join (lit " ")
         (split (re_sub voltage_pattern (lit " ") two_voltages)), w) /\
    ~ has_voltage
        (join (lit " ")
           (split (re_sub voltage_pattern (lit " ") two_voltages)))) /\
  (~ has_voltage (lit "10k") /\
   extract_voltage (lit "10k") = (lit "10k", [])).
Proof.
  assert (H : has_voltage two_voltages).
  { exists (lit "16V"), 5; split; [|now exists (lit " 25V")].
    exists (lit "16"); split; [|reflexivity].
    exists (lit "16"), [], []; repeat split; auto; discriminate. }
  assert (H' : ~ has_voltage (lit "10k"))
    by (apply search_voltage_None; reflexivity).
  split; [split; [exact H|]|split; [exact H'|]].
  - exact (proj1 extract_voltage_spec two_voltages H).
  - exact (proj1 (proj2 extract_voltage_spec) (lit "10k") H').
Defined.

(** ** More on the merge engine *)

Lemma dict_set_same (V : Type) (d : dict V) (k : str) (v : V) :
  dict_get d k = Some v -> dict_set d k v = d.
Proof.
  induction d as [|[k' v'] d IH]; simpl; [discriminate|].
  destruct (str_eqb k k') eqn:E.
  - apply str_eqb_eq in E; subst k'; intros [= ->]; reflexivity.
  - intros H; f_equal; auto.
Qed.

(** A fill or a refresh that leaves the flag down has changed nothing. *)
Lemma fill_false (existing new x : str) (u : bool) :
  fill existing new u = (x, false) -> x = existing /\ u = false.
Proof. unfold fill; destruct (_ && _); intros [= -> ->]; auto. Qed.

Lemma refresh_false (existing new x : str) (u : bool) :
  refresh existing new u = (x, false) -> x = existing /\ u = false.
Proof.
  unfold refresh; destruct (_ && _); [|destruct (_ && _)];
    intros [= -> ->]; auto.
Qed.

Lemma update_fields_unchanged (existing new_part e : Part) :
  update_fields existing new_part = (e, false) -> e = existing.
Proof.
  unfold update_fields.
  destruct (fill (Mouser_PN existing) _ _) as [x1 u1] eqn:E1.
  destruct (fill (Digikey_PN existing) _ _) as [x2 u2] eqn:E2.
  destruct (fill (Voltage existing) _ _) as [x3 u3] eqn:E3.
  destruct (fill (Tolerance existing) _ _) as [x4 u4] eqn:E4.
  destruct (fill (Manufacturer existing) _ _) as [x5 u5] eqn:E5.
  destruct (fill (Datasheet existing) _ _) as [x6 u6] eqn:E6.
  destruct (fill (Extra existing) _ _) as [x7 u7] eqn:E7.
  destruct (refresh (Description existing) _ _) as [x8 u8] eqn:E8.
  destruct (refresh (Symbol existing) _ _) as [x9 u9] eqn:E9.
  intros [= <- ->].
  apply refresh_false in E9 as [-> ->]; apply refresh_false in E8 as [-> ->].
  apply fill_false in E7 as [-> ->]; apply fill_false in E6 as [-> ->].
  apply fill_false in E5 as [-> ->]; apply fill_false in E4 as [-> ->].
  apply fill_false in E3 as [-> ->]; apply fill_false in E2 as [-> ->].
  apply fill_false in E1 as [-> _].
  destruct existing; reflexivity.
Qed.

(** One step that logs no change leaves the inventory as it was. *)
Lemma merge_part_silent (m m' : dict Part) ch er er' k p :
  merge_part (m, ch, er) (k, p) = Ok (m', ch, er') -> m' = m.
Proof.
  assert (Hch : forall c : change, ch ++ [c] <> ch).
  { intros c H; apply (f_equal (@length change)) in H.
    rewrite length_app in H; simpl in H; lia. }
  unfold merge_part; destruct (dict_get m k) as [existing|] eqn:G.
  - destruct (_ || _); [now intros [= <- _]|].
    destruct (update_fields existing p) as [e' u] eqn:U.
    destruct (Projects p) as [|np ?]; [discriminate|].
    destruct (negb _); [intros [= _ H _]; now apply Hch in H|].
    destruct u; [intros [= _ H _]; now apply Hch in H|].
    intros [= <- _]; apply update_fields_unchanged in U; subst e'.
    now apply dict_set_same.
  - intros [= _ H _]; now apply Hch in H.
Qed.

(** The change log only grows. *)
Lemma merge_part_log (m m' : dict Part) ch ch' er er' k p :
  merge_part (m, ch, er) (k, p) = Ok (m', ch', er') ->
  exists l, ch' = ch ++ l.
Proof.
  unfold merge_part; destruct (dict_get m k) as [existing|].
  - destruct (_ || _); [intros [= _ <- _]; exists []; now rewrite app_nil_r|].
    destruct (update_fields existing p) as [e' u].
    destruct (Projects p) as [|np ?]; [discriminate|].
    destruct (negb _); [|destruct u]; intros [= _ <- _]; eauto.
    exists []; now rewrite app_nil_r.
  - intros [= _ <- _]; eauto.
Qed.

Lemma merge_loop_log (items : list (str * Part)) :
  forall m ch er m' ch' er',
    merge_loop (m, ch, er) items = Ok (m', ch', er') ->
    exists l, ch' = ch ++ l.
Proof.
  induction items as [|[k p] items IH]; simpl; intros m ch er m' ch' er'.
  - intros [= _ <- _]; exists []; now rewrite app_nil_r.
  - destruct (merge_part (m, ch, er) (k, p)) as [[[m1 ch1] er1]|] eqn:E;
      [|discriminate].
    intros H; apply IH in H as [l ->].
    apply merge_part_log in E as [l' ->].
    exists (l' ++ l); now rewrite app_assoc.
Qed.

Lemma merge_loop_silent (items : list (str * Part)) :
  forall m ch er m' er',
    merge_loop (m, ch, er) items = Ok (m', ch, er') -> m' = m.
Proof.
  induction items as [|[k p] items IH]; simpl; intros m ch er m' er'.
  - now intros [= <- _].
  - destruct (merge_part (m, ch, er) (k, p)) as [[[m1 ch1] er1]|] eqn:E;
      [|discriminate].
    intros H.
    pose proof (merge_part_log _ _ _ _ _ _ _ _ E) as [l1 E1].
    pose proof (merge_loop_log _ _ _ _ _ _ _ H) as [l2 E2].
    assert (l1 = []).
    { rewrite E1, <- app_assoc in E2.
      apply (f_equal (@length change)) in E2.
      rewrite !length_app in E2; destruct l1; [auto|simpl in E2; lia]. }
    subst l1; rewrite app_nil_r in E1; subst ch1.
    apply IH in H; subst m'; now apply merge_part_silent in E.
Qed.

(** Property X1.  When [merge_data] logs no change, the inventory is what it
    was: every row, in the same order, with the same fields.  [main] does
    not save in this case, and nothing is lost by it. *)
Theorem merge_without_changes_is_identity
  (master_data new_data master' : dict Part) (errors : list conflict) :
  merge_data master_data new_data = Ok (master', [], errors) ->
  master' = master_data.
Proof. apply merge_loop_silent. Qed.

Lemma merge_without_changes_is_identity_witness :
  exists master' errors,
    merge_data sample_master [(lit "RC0402-4K7", stored_r1)]
    = Ok (master', [], errors) /\
    master' = sample_master.
Proof.
  eexists _, _; split; [vm_compute; reflexivity|].
  apply (merge_without_changes_is_identity sample_master
           [(lit "RC0402-4K7", stored_r1)] _ []).
  vm_compute; reflexivity.
Defined.

(** What [update_fields] does to the fields it does not fill. *)
Lemma refresh_fst (existing new : str) (updated : bool) :
  fst (refresh existing new updated) = if truthy new then new else existing.
Proof.
  unfold refresh; destruct (str_eqb existing new) eqn:E; simpl.
  - apply str_eqb_eq in E; subst; destruct new; reflexivity.
  - destruct new, existing; reflexivity.
Qed.

Lemma update_fields_rest (existing new_part : Part) :
  let e := fst (update_fields existing new_part) in
  Type_ e = Type_ existing /\ Value e = Value existing /\
  Footprint e = Footprint existing /\ MPN e = MPN existing /\
  Description e
  = (if truthy (Description new_part) then Description new_part
     else Description existing) /\
  Symbol e
  = (if truthy (Symbol new_part) then Symbol new_part else Symbol existing).
Proof.
  unfold update_fields.
  repeat match goal with
         | |- context [fill ?a ?b ?u] => destruct (fill a b u)
         end.
  repeat match goal with
         | |- context [refresh ?a ?b ?u] =>
             let E := fresh "E" in
             destruct (refresh a b u) eqn:E;
             apply (f_equal fst) in E; rewrite refresh_fst in E; simpl in E
         end.
  simpl; subst; repeat split; reflexivity.
Qed.

(** One step never rewrites the fields that identify a stored record. *)
Lemma merge_part_identity (m m' : dict Part) ch ch' er er' k p :
  merge_part (m, ch, er) (k, p) = Ok (m', ch', er') ->
  forall mpn q, dict_get m mpn = Some q ->
    exists q', dict_get m' mpn = Some q' /\
               Type_ q' = Type_ q /\ Value q' = Value q /\
               Footprint q' = Footprint q /\ MPN q' = MPN q.
Proof.
  intros H mpn q G.
  destruct (list_eq_dec N.eq_dec k mpn) as [->|Hne].
  - unfold merge_part in H; rewrite G in H.
    destruct (_ || _).
    + injection H as <- <- <-; eauto 6.
    + pose proof (update_fields_rest q p) as S.
      destruct (update_fields q p) as [e u]; simpl in S.
      destruct S as (S1 & S2 & S3 & S4 & _).
      destruct (Projects p) as [|np ?]; [discriminate|].
      destruct (negb _); [|destruct u]; injection H as <- <- <-;
        rewrite dict_get_set_same; eexists; split; eauto.
  - apply merge_part_other with (mpn := mpn) in H; auto.
    destruct H as [-> _]; eauto 6.
Qed.

(** Property X2.  [merge_data] never rewrites the Type, the Value, the
    Footprint or the MPN of a record of the inventory: every stored record
    is still stored under its part number with these four fields as they
    were, whatever the incoming records hold. *)
Theorem merge_keeps_identity_fields (master_data new_data : dict Part) :
  nonempty_projects new_data ->
  exists master' changes errors,
    merge_data master_data new_data = Ok (master', changes, errors) /\
    forall mpn q, dict_get master_data mpn = Some q ->
      exists q', dict_get master' mpn = Some q' /\
                 Type_ q' = Type_ q /\ Value q' = Value q /\
                 Footprint q' = Footprint q /\ MPN q' = MPN q.
Proof.
  intros Hne; unfold merge_data.
  destruct (merge_loop_total new_data Hne (master_data, [], []))
    as [[[m' ch'] er'] Hm].
  exists m', ch', er'; split; [exact Hm|].
  revert Hm; generalize (@nil change) (@nil conflict); clear Hne.
  revert master_data.
  induction new_data as [|[k p] items IH]; simpl; intros m ch er.
  - intros [= <- _ _]; eauto 6.
  - destruct (merge_part (m, ch, er) (k, p)) as [[[m1 ch1] er1]|] eqn:E;
      [|discriminate].
    intros H mpn q G.
    destruct (merge_part_identity _ _ _ _ _ _ _ _ E mpn q G)
      as (q1 & G1 & T1 & V1 & F1 & M1).
    destruct (IH _ _ _ H mpn q1 G1) as (q2 & G2 & T2 & V2 & F2 & M2).
    exists q2; repeat split; auto; congruence.
Qed.

Lemma merge_keeps_identity_fields_witness :
  exists master' changes errors,
    merge_data sample_master [(lit "RC0402-4K7", scanned_r1)]
    = Ok (master', changes, errors) /\
    forall mpn q, dict_get sample_master mpn = Some q ->
      exists q', dict_get master' mpn = Some q' /\
                 Type_ q' = Type_ q /\ Value q' = Value q /\
                 Footprint q' = Footprint q /\ MPN q' = MPN q.
Proof.
  apply (merge_keeps_identity_fields sample_master
           [(lit "RC0402-4K7", scanned_r1)]).
  repeat constructor; simpl; discriminate.
Defined.

(** The loop of the merge, split at one incoming record. *)
Lemma merge_loop_app (pre post : list (str * Part)) :
  forall st st',
    merge_loop st (pre ++ post) = Ok st' ->
    exists st1, merge_loop st pre = Ok st1 /\ merge_loop st1 post = Ok st'.
Proof.
  induction pre as [|item pre IH]; simpl; intros st st' H; [eauto|].
  destruct (merge_part st item) as [st1|]; [|discriminate].
  now apply IH.
Qed.

Lemma merge_loop_at (items : list (str * Part)) mpn new_part :
  NoDup (List.map fst items) ->
  In (mpn, new_part) items ->
  forall st st',
    merge_loop st items = Ok st' ->
    exists pre post st1 st2,
      ~ In mpn (List.map fst pre) /\ ~ In mpn (List.map fst post) /\
      merge_loop st pre = Ok st1 /\
      merge_part st1 (mpn, new_part) = Ok st2 /\
      merge_loop st2 post = Ok st'.
Proof.
  intros Hnd Hin st st' H.
  apply in_split in Hin as (pre & post & ->).
  rewrite map_app in Hnd; simpl in Hnd.
  pose proof (NoDup_remove_2 _ _ _ Hnd) as Hn.
  apply merge_loop_app in H as (st1 & H1 & H2); simpl in H2.
  destruct (merge_part st1 (mpn, new_part)) as [st2|] eqn:E; [|discriminate].
  exists pre, post, st1, st2; repeat split; auto;
    intros Hc; apply Hn, in_or_app; auto.
Qed.

Lemma merge_loop_log_in (items : list (str * Part)) (c : change) :
  forall m ch er m' ch' er',
    merge_loop (m, ch, er) items = Ok (m', ch', er') -> In c ch -> In c ch'.
Proof.
  intros m ch er m' ch' er' H Hc.
  apply merge_loop_log in H as [l ->]; apply in_or_app; auto.
Qed.

(** Property X3.  An incoming record whose part number is not in the
    inventory is stored as it is under that part number, a [New Part]
    change is logged for it and no conflict. *)
Theorem merge_stores_new_part
  (master_data new_data : dict Part) (mpn : str) (new_part : Part) :
  NoDup (List.map fst new_data) ->
  nonempty_projects new_data ->
  In (mpn, new_part) new_data ->
  dict_get master_data mpn = None ->
  exists master' changes errors,
    merge_data master_data new_data = Ok (master', changes, errors) /\
    dict_get master' mpn = Some new_part /\
    In (NewPart (Type_ new_part) (Value new_part) mpn) changes /\
    conflicts_for mpn errors = [].
Proof.
  intros Hnd Hne Hin G; unfold merge_data.
  destruct (merge_loop_total new_data Hne (master_data, [], []))
    as [[[m' ch'] er'] Hm].
  exists m', ch', er'; split; [exact Hm|].
  destruct (merge_loop_at new_data mpn new_part Hnd Hin _ _ Hm)
    as (pre & post & [[m1 ch1] er1] & [[m2 ch2] er2] & Hpre & Hpost
        & H1 & H2 & H3).
  destruct (merge_loop_other pre mpn Hpre _ _ _ _ _ _ H1) as [G1 C1].
  destruct (merge_loop_other post mpn Hpost _ _ _ _ _ _ H3) as [G3 C3].
  unfold merge_part in H2; rewrite G1, G in H2.
  injection H2 as <- <- <-.
  rewrite G3, C3, C1, dict_get_set_same; repeat split; auto.
  apply (merge_loop_log_in post _ _ _ _ _ _ _ H3), in_or_app; right.
  now left.
Qed.

Lemma merge_stores_new_part_witness :
  exists master' changes errors,
    merge_data [] [(lit "RC0402-4K7", scanned_r1)]
    = Ok (master', changes, errors) /\
    dict_get master' (lit "RC0402-4K7") = Some scanned_r1 /\
    In (NewPart (Type_ scanned_r1) (Value scanned_r1) (lit "RC0402-4K7"))
      changes /\
    conflicts_for (lit "RC0402-4K7") errors = [].
Proof.
  apply (merge_stores_new_part [] [(lit "RC0402-4K7", scanned_r1)]).
  - repeat constructor; simpl; tauto.
  - repeat constructor; simpl; discriminate.
  - simpl; tauto.
  - reflexivity.
Defined.

(** The keys after one step. *)
Lemma merge_part_keys_exact (m m' : dict Part) ch ch' er er' k p :
  merge_part (m, ch, er) (k, p) = Ok (m', ch', er') ->
  List.map fst m'
  = List.map fst m ++ (if dict_mem m k then [] else [k]).
Proof.
  intros H; unfold dict_mem; destruct (dict_get m k) as [existing|] eqn:G.
  - rewrite app_nil_r.
    apply merge_part_keys in H as (_ & _ & H); apply H.
    now apply dict_get_Some_key in G.
  - unfold merge_part in H; rewrite G in H; injection H as <- _ _.
    apply dict_set_keys_absent; now apply dict_get_None.
Qed.

Lemma dict_mem_other (m m' : dict Part) ch ch' er er' k p mpn :
  k <> mpn ->
  merge_part (m, ch, er) (k, p) = Ok (m', ch', er') ->
  dict_mem m' mpn = dict_mem m mpn.
Proof.
  intros Hne H; unfold dict_mem.
  apply merge_part_other with (mpn := mpn) in H as [-> _]; auto.
Qed.

Lemma merge_loop_keys_exact (items : list (str * Part)) :
  NoDup (List.map fst items) ->
  forall m ch er m' ch' er',
    merge_loop (m, ch, er) items = Ok (m', ch', er') ->
    List.map fst m'
    = List.map fst m
      ++ List.filter (fun k => negb (dict_mem m k)) (List.map fst items).
Proof.
  induction items as [|[k p] items IH]; simpl; intros Hnd m ch er m' ch' er'.
  - intros [= <- _ _]; now rewrite app_nil_r.
  - inversion Hnd as [|? ? Hk Hnd']; subst.
    destruct (merge_part (m, ch, er) (k, p)) as [[[m1 ch1] er1]|] eqn:E;
      [|discriminate].
    intros H; rewrite (IH Hnd' _ _ _ _ _ _ H).
    rewrite (merge_part_keys_exact _ _ _ _ _ _ _ _ E), <- app_assoc.
    f_equal.
    assert (Hf : List.filter (fun k0 => negb (dict_mem m1 k0))
                   (List.map fst items)
                 = List.filter (fun k0 => negb (dict_mem m k0))
                     (List.map fst items)).
    { apply filter_ext_in; intros x Hx; f_equal.
      assert (Hkx : k <> x) by (intros ->; contradiction).
      exact (dict_mem_other _ _ _ _ _ _ _ _ _ Hkx E). }
    rewrite Hf; destruct (dict_mem m k); reflexivity.
Qed.

(** Property X4.  [merge_data] never deletes or reorders a row: the part
    numbers of the inventory after the merge are those it had, in the
    order they were in, followed by the incoming part numbers that were
    not stored, in the order of the incoming records. *)
Theorem merge_appends_new_rows (master_data new_data : dict Part) :
  NoDup (List.map fst new_data) ->
  nonempty_projects new_data ->
  exists master' changes errors,
    merge_data master_data new_data = Ok (master', changes, errors) /\
    List.map fst master'
    = List.map fst master_data
      ++ List.filter (fun k => negb (dict_mem master_data k))
           (List.map fst new_data).
Proof.
  intros Hnd Hne; unfold merge_data.
  destruct (merge_loop_total new_data Hne (master_data, [], []))
    as [[[m' ch'] er'] Hm].
  exists m', ch', er'; split; [exact Hm|].
  exact (merge_loop_keys_exact new_data Hnd _ _ _ _ _ _ Hm).
Qed.

Lemma merge_appends_new_rows_witness :
  exists master' changes errors,
    merge_data sample_master
      [(lit "CL05B104", first_seen_part); (lit "RC0402-4K7", scanned_r1)]
    = Ok (master', changes, errors) /\
    List.map fst master'
    = List.map fst sample_master
      ++ List.filter (fun k => negb (dict_mem sample_master k))
           [lit "CL05B104"; lit "RC0402-4K7"].
Proof.
  apply (merge_appends_new_rows sample_master
           [(lit "CL05B104", first_seen_part);
            (lit "RC0402-4K7", scanned_r1)]).
  - repeat constructor; simpl; intuition discriminate.
  - repeat constructor; simpl; discriminate.
Defined.

(** Property X5.  For an incoming record whose part number is stored with
    the same value and footprint, the stored Description and the stored
    Symbol are replaced by the incoming ones whenever these are not empty
    (they are not fill-only fields), and kept when the incoming ones are
    empty. *)
Theorem merge_takes_newest_description
  (master_data new_data : dict Part) (mpn : str) (new_part existing : Part) :
  NoDup (List.map fst new_data) ->
  nonempty_projects new_data ->
  In (mpn, new_part) new_data ->
  dict_get master_data mpn = Some existing ->
  consistent existing new_part ->
  exists master' changes errors e,
    merge_data master_data new_data = Ok (master', changes, errors) /\
    dict_get master' mpn = Some e /\
    Description e
    = (if truthy (Description new_part) then Description new_part
       else Description existing) /\
    Symbol e
    = (if truthy (Symbol new_part) then Symbol new_part
       else Symbol existing).
Proof.
  intros Hnd Hne Hin G Hc; unfold merge_data.
  destruct (merge_loop_total new_data Hne (master_data, [], []))
    as [[[m' ch'] er'] Hm].
  destruct (merge_loop_at new_data mpn new_part Hnd Hin _ _ Hm)
    as (pre & post & [[m1 ch1] er1] & [[m2 ch2] er2] & Hpre & Hpost
        & H1 & H2 & H3).
  destruct (merge_loop_other pre mpn Hpre _ _ _ _ _ _ H1) as [G1 _].
  destruct (merge_loop_other post mpn Hpost _ _ _ _ _ _ H3) as [G3 _].
  rewrite G in G1.
  assert (Hp : exists new_proj rest, Projects new_part = new_proj :: rest).
  { unfold nonempty_projects in Hne; rewrite Forall_forall in Hne.
    specialize (Hne _ Hin); simpl in Hne.
    destruct (Projects new_part); [congruence|eauto]. }
  destruct Hp as (new_proj & rest & Hp).
  destruct (merge_part_consistent _ _ _ _ _ _ _ _ _ _ _ G1 Hc Hp H2)
    as [_ G2].
  pose proof (update_fields_rest existing new_part) as S; simpl in S.
  destruct S as (_ & _ & _ & _ & SD & SS).
  rewrite <- G3 in G2.
  eexists m', ch', er', _; split; [exact Hm|]; split; [exact G2|].
  destruct (mem_str new_proj (Projects existing)); simpl; auto.
Qed.

Lemma merge_takes_newest_description_witness :
  exists master' changes errors e,
    merge_data sample_master [(lit "RC0402-4K7", scanned_r1)]
    = Ok (master', changes, errors) /\
    dict_get master' (lit "RC0402-4K7") = Some e /\
    Description e
    = (if truthy (Description scanned_r1) then Description scanned_r1
       else Description stored_r1) /\
    Symbol e
    = (if truthy (Symbol scanned_r1) then Symbol scanned_r1
       else Symbol stored_r1).
Proof.
  apply (merge_takes_newest_description sample_master
           [(lit "RC0402-4K7", scanned_r1)]).
  - repeat constructor; simpl; tauto.
  - repeat constructor; simpl; discriminate.
  - simpl; tauto.
  - reflexivity.
  - split; reflexivity.
Defined.

(** What one step adds to the conflict log. *)
Lemma merge_part_errors (m m' : dict Part) ch ch' er er' k p :
  merge_part (m, ch, er) (k, p) = Ok (m', ch', er') ->
  er' = er \/
  exists existing,
    dict_get m k = Some existing /\
    (Value existing <> Value p \/ Footprint existing <> Footprint p) /\
    er' = er ++ [mkConflict k (Value existing) (Footprint existing)
                   (Value p) (Footprint p)].
Proof.
  unfold merge_part; destruct (dict_get m k) as [existing|].
  - destruct (_ || _) eqn:D.
    + intros [= _ _ <-]; right; exists existing; repeat split; auto.
      apply orb_true_iff in D as [D|D]; [left|right];
        now apply negb_true_iff, str_eqb_neq in D.
    + destruct (update_fields existing p) as [e' u].
      destruct (Projects p) as [|np ?]; [discriminate|].
      destruct (negb (mem_str _ _)); [|destruct u]; intros [= _ _ <-]; auto.
  - intros [= _ _ <-]; auto.
Qed.

Lemma merge_loop_errors (items : list (str * Part)) :
  NoDup (List.map fst items) ->
  forall m ch er m' ch' er',
    merge_loop (m, ch, er) items = Ok (m', ch', er') ->
    forall c, In c er' ->
      In c er \/
      exists new_part existing,
        In (c_mpn c, new_part) items /\
        dict_get m (c_mpn c) = Some existing /\
        (Value existing <> Value new_part \/
         Footprint existing <> Footprint new_part) /\
        c = mkConflict (c_mpn c) (Value existing) (Footprint existing)
              (Value new_part) (Footprint new_part).
Proof.
  induction items as [|[k p] items IH]; simpl; intros Hnd m ch er m' ch' er'.
  - intros [= _ _ <-]; auto.
  - inversion Hnd as [|? ? Hk Hnd']; subst.
    destruct (merge_part (m, ch, er) (k, p)) as [[[m1 ch1] er1]|] eqn:E;
      [|discriminate].
    intros H c Hc.
    destruct (IH Hnd' _ _ _ _ _ _ H c Hc)
      as [Hc1|(np & ex & Hin & G & Hd & Ec)].
    + destruct (merge_part_errors _ _ _ _ _ _ _ _ E)
        as [->|(ex & G & Hd & ->)]; auto.
      apply in_app_or in Hc1 as [Hc1|[<-|[]]]; auto.
      right; exists p, ex; simpl; auto.
    + right; exists np, ex; repeat split; auto.
      assert (Hne : k <> c_mpn c).
      { intros ->; apply Hk.
        change (c_mpn c) with (fst (c_mpn c, np)); now apply in_map. }
      apply merge_part_other with (mpn := c_mpn c) in E as [<- _]; auto.
Qed.

(** Property X6.  Every entry of the conflict log of [merge_data] is about
    an incoming record whose part number was stored with another value or
    another footprint, and it names the two stored and the two incoming
    texts: no conflict is reported for a new part or for a record that
    agrees with the stored one. *)
Theorem merge_conflicts_are_real (master_data new_data : dict Part) :
  NoDup (List.map fst new_data) ->
  nonempty_projects new_data ->
  exists master' changes errors,
    merge_data master_data new_data = Ok (master', changes, errors) /\
    forall c, In c errors ->
      exists new_part existing,
        In (c_mpn c, new_part) new_data /\
        dict_get master_data (c_mpn c) = Some existing /\
        (Value existing <> Value new_part \/
         Footprint existing <> Footprint new_part) /\
        c = mkConflict (c_mpn c) (Value existing) (Footprint existing)
              (Value new_part) (Footprint new_part).
Proof.
  intros Hnd Hne; unfold merge_data.
  destruct (merge_loop_total new_data Hne (master_data, [], []))
    as [[[m' ch'] er'] Hm].
  exists m', ch', er'; split; [exact Hm|].
  intros c Hc.
  destruct (merge_loop_errors new_data Hnd _ _ _ _ _ _ Hm c Hc) as [[]|H].
  exact H.
Qed.

Lemma merge_conflicts_are_real_witness :
  exists master' changes errors,
    merge_data sample_master [(lit "RC0402-4K7", scanned_r1_0603)]
    = Ok (master', changes, errors) /\
    forall c, In c errors ->
      exists new_part existing,
        In (c_mpn c, new_part) [(lit "RC0402-4K7", scanned_r1_0603)] /\
        dict_get sample_master (c_mpn c) = Some existing /\
        (Value existing <> Value new_part \/
         Footprint existing <> Footprint new_part) /\
        c = mkConflict (c_mpn c) (Value existing) (Footprint existing)
              (Value new_part) (Footprint new_part).
Proof.
  apply (merge_conflicts_are_real sample_master
           [(lit "RC0402-4K7", scanned_r1_0603)]).
  - repeat constructor; simpl; tauto.
  - repeat constructor; simpl; discriminate.
Defined.

(** Property X7.  A stored record whose part number is not among the
    incoming ones is left by [merge_data] exactly as it was, and a part
    number that is neither stored nor incoming is not stored after the
    merge. *)
Theorem merge_leaves_other_records
  (master_data new_data : dict Part) (mpn : str) :
  nonempty_projects new_data ->
  ~ In mpn (List.map fst new_data) ->
  exists master' changes errors,
    merge_data master_data new_data = Ok (master', changes, errors) /\
    dict_get master' mpn = dict_get master_data mpn /\
    conflicts_for mpn errors = [].
Proof.
  intros Hne Hn; unfold merge_data.
  destruct (merge_loop_total new_data Hne (master_data, [], []))
    as [[[m' ch'] er'] Hm].
  exists m', ch', er'; split; [exact Hm|].
  exact (merge_loop_other new_data mpn Hn _ _ _ _ _ _ Hm).
Qed.

Lemma merge_leaves_other_records_witness :
  exists master' changes errors,
    merge_data sample_master [(lit "CL05B104", first_seen_part)]
    = Ok (master', changes, errors) /\
    dict_get master' (lit "RC0402-4K7")
    = dict_get sample_master (lit "RC0402-4K7") /\
    conflicts_for (lit "RC0402-4K7") errors = [].
Proof.
  apply (merge_leaves_other_records sample_master
           [(lit "CL05B104", first_seen_part)] (lit "RC0402-4K7")).
  - repeat constructor; simpl; discriminate.
  - simpl; intros [H|[]]; discriminate.
Defined.

(** ** Properties of reference designators *)

Lemma hd_error_map (A B : Type) (f : A -> B) (l : list A) :
  hd_error (List.map f l) = option_map f (hd_error l).
Proof. destruct l; reflexivity. Qed.

Lemma parses_Grp (a : regex) (st : mstate) :
  parses (Grp a) st = List.map (close_group st) (parses a st).
Proof. reflexivity. Qed.

(** The first result of [p+], whatever the groups closed so far. *)
Lemma plus_cls_hd (p : char -> bool) (pos : nat) (rest : str)
  (caps : list str) :
  hd_error (parses (Plus (Cls p)) (MState pos rest caps))
  = match rest with
    | c :: s =>
        if p c
        then Some (MState (S pos + span p s) (skipn (span p s) s) caps)
        else None
    | [] => None
    end.
Proof.
  unfold Plus; rewrite parses_Seq.
  destruct rest as [|c s]; [reflexivity|].
  rewrite parses_Cls_cons; destruct (p c); [|reflexivity].
  cbn [flat_map]; rewrite app_nil_r, parses_Star; apply star_cls_hd.
Qed.

Lemma span_firstn (p : char -> bool) (s : str) :
  forallb p (firstn (span p s) s) = true.
Proof.
  induction s as [|c s IH]; simpl; auto.
  destruct (p c) eqn:E; simpl; auto; now rewrite E.
Qed.

(** The match of [([A-Za-z]+)] at the start of a text. *)
Lemma letters_match (refdes : str) :
  re_match (Grp (Plus alpha)) refdes
  = if Nat.eqb (span is_ascii_alpha refdes) 0 then None
    else Some (MState (span is_ascii_alpha refdes)
                 (skipn (span is_ascii_alpha refdes) refdes)
                 [firstn (span is_ascii_alpha refdes) refdes]).
Proof.
  unfold re_match, match_at; rewrite parses_Grp, hd_error_map.
  unfold alpha; rewrite plus_cls_hd.
  destruct refdes as [|c s]; [reflexivity|]; simpl span.
  destruct (is_ascii_alpha c); [|reflexivity].
  simpl; unfold close_group; simpl; reflexivity.
Qed.

Lemma upper_is_upper (s : str) :
  forallb is_ascii_alpha s = true -> forallb is_ascii_upper (upper s) = true.
Proof.
  induction s as [|c s IH]; simpl; auto.
  intros H; apply andb_true_iff in H as [Hc H]; rewrite IH by auto.
  rewrite andb_true_r; unfold ascii_upper.
  unfold is_ascii_alpha in Hc; apply orb_true_iff in Hc.
  destruct (is_ascii_lower c) eqn:L.
  - unfold is_ascii_lower, is_ascii_upper in *.
    apply andb_true_iff in L as [L1 L2].
    apply N.leb_le in L1, L2; apply andb_true_iff; split; apply N.leb_le; lia.
  - destruct Hc as [Hc|Hc]; [exact Hc|congruence].
Qed.

Lemma get_designator_type_eq (refdes : str) :
  get_designator_type refdes
  = if Nat.eqb (span is_ascii_alpha refdes) 0 then lit "ZZ"
    else upper (firstn (span is_ascii_alpha refdes) refdes).
Proof.
  unfold get_designator_type; rewrite letters_match.
  destruct (Nat.eqb (span is_ascii_alpha refdes) 0); reflexivity.
Qed.

(** Property X8.  [get_designator_type] returns the leading ASCII letters
    of the reference designator in upper case, and [ZZ] when the designator
    does not start with a letter; so the type of a part is never empty and
    is made of upper-case ASCII letters only. *)
Theorem get_designator_type_spec (refdes : str) :
  get_designator_type refdes
  = (if Nat.eqb (span is_ascii_alpha refdes) 0 then lit "ZZ"
     else upper (firstn (span is_ascii_alpha refdes) refdes)) /\
  get_designator_type refdes <> [] /\
  forallb is_ascii_upper (get_designator_type refdes) = true.
Proof.
  rewrite get_designator_type_eq.
  destruct (Nat.eqb (span is_ascii_alpha refdes) 0) eqn:E.
  - repeat split; discriminate.
  - split; [reflexivity|]; split.
    + apply Nat.eqb_neq in E; destruct refdes as [|c s]; [easy|].
      simpl in *; destruct (is_ascii_alpha c); [discriminate|easy].
    + apply upper_is_upper, span_firstn.
Qed.

(** The results of [p*], in the order of the matcher: every prefix in the
    class, from the longest to the empty one. *)
Lemma star_cls_list (p : char -> bool) :
  forall (rest : str) (pos : nat) (caps : list str),
    star_loop (parses (Cls p)) (length rest) (MState pos rest caps)
    = List.map (fun k => MState (pos + k) (skipn k rest) caps)
        (rev (seq 0 (S (span p rest)))).
Proof.
  induction rest as [|c s IH]; intros pos caps.
  - simpl; now rewrite Nat.add_0_r.
  - change (length (c :: s)) with (S (length s)).
    rewrite star_loop_S, parses_Cls_cons; simpl span.
    destruct (p c) eqn:Pc.
    + cbn [flat_map m_rest length].
      assert (Nat.ltb (length s) (S (length s)) = true) as ->
          by (apply Nat.ltb_lt; lia).
      rewrite app_nil_r, IH.
      change (seq 0 (S (S (span p s)))) with (0 :: seq 1 (S (span p s))).
      rewrite <- seq_shift; cbn [rev]; rewrite map_app, <- map_rev, map_map.
      cbn [List.map skipn]; rewrite Nat.add_0_r; f_equal.
      apply map_ext; intros k; f_equal; lia.
    + simpl; now rewrite Nat.add_0_r.
Qed.

Lemma span_inside (p : char -> bool) :
  forall (s : str) (k : nat),
    k < span p s -> exists c s', skipn k s = c :: s' /\ p c = true.
Proof.
  induction s as [|c s IH]; simpl; intros k Hk; [lia|].
  destruct (p c) eqn:Pc; [|lia].
  destruct k as [|k]; [exists c, s; auto|].
  apply IH; lia.
Qed.

Lemma span_stop (p : char -> bool) (s : str) :
  match skipn (span p s) s with
  | c :: _ => p c = false
  | [] => True
  end.
Proof.
  induction s as [|c s IH]; simpl; auto.
  destruct (p c) eqn:Pc; simpl; auto.
Qed.

Lemma plus_cls_nil (p : char -> bool) (pos : nat) (c : char) (s : str)
  (caps : list str) :
  p c = false -> parses (Plus (Cls p)) (MState pos (c :: s) caps) = [].
Proof.
  intros Pc; unfold Plus; rewrite parses_Seq, parses_Cls_cons, Pc.
  reflexivity.
Qed.

Lemma flat_map_nil (A B : Type) (f : A -> list B) (l : list A) :
  (forall x, In x l -> f x = []) -> flat_map f l = [].
Proof.
  induction l as [|x l IH]; simpl; intros H; auto.
  rewrite H, IH; auto.
Qed.

(** The first result of [p+ q+] when no character is in both classes:
    all of the [p], then all of the [q]. *)
Lemma plus_plus_hd (p q : char -> bool) (pos : nat) (rest : str)
  (caps : list str) :
  (forall c, p c = true -> q c = false) ->
  hd_error (parses (Seq (Plus (Cls p)) (Plus (Cls q)))
              (MState pos rest caps))
  = let l := span p rest in
    let d := span q (skipn l rest) in
    if Nat.ltb 0 l && Nat.ltb 0 d
    then Some (MState (pos + (l + d)) (skipn (l + d) rest) caps)
    else None.
Proof.
  intros Hpq; rewrite parses_Seq.
  destruct rest as [|c s]; [reflexivity|].
  change (Plus (Cls p)) with (Seq (Cls p) (Star (Cls p))).
  rewrite parses_Seq, parses_Cls_cons; simpl span.
  destruct (p c) eqn:Pc; [|reflexivity].
  cbn [flat_map]; rewrite app_nil_r, parses_Star.
  cbn [m_rest]; rewrite star_cls_list.
  change (seq 0 (S (span p s))) with (seq 0 (1 + span p s)).
  rewrite Nat.add_comm, seq_app, rev_app_distr; cbn [seq rev app List.map].
  cbn [flat_map]; rewrite flat_map_nil, app_nil_r.
  2: { intros x Hx; apply in_map_iff in Hx as (k & <- & Hk).
       apply in_rev, in_seq in Hk.
       destruct (span_inside p s k ltac:(lia)) as (e & s' & -> & He).
       apply plus_cls_nil; auto. }
  rewrite plus_cls_hd; cbv zeta; cbn [skipn Nat.ltb Nat.leb andb].
  change (0 + span p s) with (span p s).
  destruct (skipn (span p s) s) as [|e s'] eqn:Es; [reflexivity|].
  simpl span; destruct (q e); [|reflexivity].
  cbn [Nat.leb]; f_equal; f_equal; [lia|].
  change (S (span p s) + S (span q s')) with (S (span p s + S (span q s'))).
  cbn [skipn]; rewrite Nat.add_comm, <- skipn_skipn, Es; reflexivity.
Qed.

Lemma span_firstn_min (p : char -> bool) :
  forall (s : str) (n : nat),
    span p (firstn n s) = Nat.min n (span p s).
Proof.
  induction s as [|c s IH]; intros [|n]; simpl; auto.
  destruct (p c); simpl; auto.
Qed.

Lemma alpha_not_digit (c : char) :
  is_ascii_alpha c = true -> is_digit c = false.
Proof.
  intros H; destruct (is_digit c) eqn:D; auto.
  unfold is_digit in D; apply existsb_exists in D as (r & Hr & Hc).
  unfold is_ascii_alpha, is_ascii_upper, is_ascii_lower in H.
  unfold in_run in Hc; apply andb_true_iff in Hc as [H1 H2].
  apply N.leb_le in H1; apply N.ltb_lt in H2.
  assert (Hc : (c <= 122)%N).
  { apply orb_true_iff in H as [H|H]; apply andb_true_iff in H as [_ H];
      apply N.leb_le in H; lia. }
  assert (Hc' : (65 <= c)%N).
  { apply orb_true_iff in H as [H|H]; apply andb_true_iff in H as [H _];
      apply N.leb_le in H; lia. }
  simpl in Hr; destruct Hr as [<-|Hr]; [lia|].
  assert (Hbig : (1632 <= r)%N).
  { repeat (destruct Hr as [<-|Hr]; [lia|]); contradiction. }
  lia.
Qed.

(** The match of [([A-Za-z]+\d+)] at the start of a text: all the leading
    letters, then all the digits that follow, when there are some of
    both. *)
Lemma strip_designator_suffix_eq (refdes : str) :
  strip_designator_suffix refdes
  = let l := span is_ascii_alpha refdes in
    let d := span is_digit (skipn l refdes) in
    if Nat.ltb 0 l && Nat.ltb 0 d then firstn (l + d) refdes else refdes.
Proof.
  unfold strip_designator_suffix, re_match, match_at.
  rewrite parses_Grp, hd_error_map; unfold alpha, digit.
  rewrite plus_plus_hd by apply alpha_not_digit; cbv zeta.
  destruct (Nat.ltb 0 _ && Nat.ltb 0 _); [|reflexivity].
  simpl; now rewrite Nat.sub_0_r.
Qed.

(** Property X9.  [strip_designator_suffix] keeps the leading letters of
    the reference designator and the digits that follow them, and returns
    the designator unchanged when it does not start with letters followed by
    a digit.  What it returns is a prefix of the designator, it is not
    changed by a second call, and it has the type of the designator. *)
Theorem strip_designator_suffix_spec (refdes : str) :
  strip_designator_suffix refdes
  = (let l := span is_ascii_alpha refdes in
     let d := span is_digit (skipn l refdes) in
     if Nat.ltb 0 l && Nat.ltb 0 d then firstn (l + d) refdes else refdes) /\
  (exists suffix, refdes = strip_designator_suffix refdes ++ suffix) /\
  strip_designator_suffix (strip_designator_suffix refdes)
  = strip_designator_suffix refdes /\
  get_designator_type (strip_designator_suffix refdes)
  = get_designator_type refdes.
Proof.
  split; [apply strip_designator_suffix_eq|].
  rewrite (strip_designator_suffix_eq refdes); cbv zeta.
  set (l := span is_ascii_alpha refdes).
  set (d := span is_digit (skipn l refdes)).
  destruct (Nat.ltb 0 l && Nat.ltb 0 d) eqn:E.
  2: { split; [exists []; now rewrite app_nil_r|].
       split; [|reflexivity].
       rewrite strip_designator_suffix_eq; cbv zeta; fold l; fold d.
       now rewrite E. }
  apply andb_true_iff in E as [El Ed].
  apply Nat.ltb_lt in El, Ed.
  assert (Hl : span is_ascii_alpha (firstn (l + d) refdes) = l)
    by (rewrite span_firstn_min; fold l; lia).
  assert (Hd : span is_digit (skipn l (firstn (l + d) refdes)) = d).
  { rewrite <- firstn_skipn_comm, span_firstn_min; fold d; lia. }
  split; [exists (skipn (l + d) refdes); symmetry; apply firstn_skipn|].
  split.
  - rewrite strip_designator_suffix_eq; cbv zeta; rewrite Hl, Hd.
    assert (Nat.ltb 0 l && Nat.ltb 0 d = true) as ->
        by (apply andb_true_iff; split; apply Nat.ltb_lt; auto).
    rewrite firstn_firstn; f_equal; lia.
  - rewrite !get_designator_type_eq, Hl; fold l.
    rewrite firstn_firstn; replace (Nat.min l (l + d)) with l by lia.
    reflexivity.
Qed.

(** ** Field values *)

Lemma lstrip_head (s : str) :
  lstrip s = [] \/ is_space (hd 0%N (lstrip s)) = false.
Proof.
  induction s as [|c s IH]; simpl; auto.
  destruct (is_space c) eqn:E; auto.
Qed.

Lemma lstrip_ends_clean (s : str) : ends_clean s -> ends_clean (lstrip s).
Proof.
  intros H; destruct (lstrip_decomp s) as (t & E & _).
  destruct (lstrip s) as [|c u] eqn:L; [now left|].
  rewrite E in H.
  exact (proj1 (ends_clean_app t (c :: u) ltac:(discriminate)) H).
Qed.

Lemma strip_stripped (s : str) : stripped (strip s).
Proof.
  unfold stripped, strip.
  pose proof (lstrip_ends_clean _ (ends_clean_rstrip s)) as [H|H]; auto.
  destruct (lstrip_head (rstrip s)) as [H'|H']; auto.
Qed.

Lemma stripped_strip (s : str) : stripped s -> strip s = s.
Proof.
  intros [->|[Hh Hl]]; [reflexivity|].
  unfold strip; rewrite rstrip_id by (now right).
  destruct s as [|c s]; [reflexivity|]; now apply lstrip_id.
Qed.

Lemma strip_blank (s : str) : forallb is_space s = true -> strip s = [].
Proof.
  intros H; unfold strip.
  assert (Hl : forall t, forallb is_space t = true -> lstrip t = []).
  { induction t as [|c t IH]; simpl; auto.
    intros Ht; apply andb_true_iff in Ht as [-> Ht]; auto. }
  unfold rstrip; rewrite (Hl (rev s)); [reflexivity|].
  rewrite forallb_forall in *; intros x Hx; apply H, in_rev, Hx.
Qed.

(** Property X10.  [clean_field_value] returns the empty text for a value
    that is blank or, once stripped, one of the placeholders [~] and [-],
    and the stripped value otherwise; the result has no white space at
    either end, is never a placeholder, and cleaning it again changes
    nothing. *)
Theorem clean_field_value_spec (value : str) :
  (forallb is_space value = true -> clean_field_value value = []) /\
  (clean_field_value value = [] \/ clean_field_value value = strip value) /\
  stripped (clean_field_value value) /\
  clean_field_value value <> lit "~" /\
  clean_field_value value <> lit "-" /\
  clean_field_value (clean_field_value value) = clean_field_value value.
Proof.
  unfold clean_field_value.
  split; [intros H; now rewrite strip_blank|].
  destruct (mem_str (strip value) [lit "~"; lit "-"]) eqn:E.
  - repeat split; auto; try discriminate; now left.
  - assert (H1 : strip value <> lit "~").
    { intros H; rewrite H in E; discriminate. }
    assert (H2 : strip value <> lit "-").
    { intros H; rewrite H in E; discriminate. }
    repeat split; auto using strip_stripped.
    rewrite (stripped_strip (strip value)) by apply strip_stripped.
    now rewrite E.
Qed.

Lemma clean_field_value_spec_witness :
  forallb is_space (lit "  ") = true /\ clean_field_value (lit "  ") = [].
Proof.
  split; [reflexivity|].
  apply (proj1 (clean_field_value_spec (lit "  "))); reflexivity.
Defined.

(** ** The records of a scan *)

Lemma get_designator_type_upper (refdes : str) :
  get_designator_type refdes <> [] /\
  forallb is_ascii_upper (get_designator_type refdes) = true.
Proof.
  rewrite get_designator_type_eq.
  destruct (Nat.eqb (span is_ascii_alpha refdes) 0) eqn:E.
  - split; [discriminate|reflexivity].
  - split; [|apply upper_is_upper, span_firstn].
    apply Nat.eqb_neq in E; destruct refdes as [|c s]; [easy|].
    simpl in *; destruct (is_ascii_alpha c); [discriminate|easy].
Qed.

Lemma part_data_of_scanned (project_name date_str : str) (props : attrs)
  (refdes : str) (pd : Part) :
  part_data_of project_name date_str props = Some (refdes, pd) ->
  scanned_record project_name (MPN pd) pd /\ Last_Used pd = date_str.
Proof.
  unfold part_data_of.
  destruct (truthy (extracted_field props (lit "MPN"))) eqn:Em;
    [|discriminate].
  destruct (truthy (clean_field_value (get_or_empty props (lit "Footprint"))))
    eqn:Ef; [|discriminate].
  cbn [negb].
  destruct (value_and_voltage _ _ _) as [val voltage].
  intros [= <- <-]; unfold scanned_record; cbn.
  apply truthy_true in Em, Ef.
  destruct (get_designator_type_upper (get_or_empty props (lit "Reference")))
    as [H1 H2].
  repeat split; auto.
Qed.

Lemma record_part_forall (P : str -> Part -> Prop)
  (extracted : dict Part) warnings refdes pd :
  P (MPN pd) pd ->
  Forall (fun kv => P (fst kv) (snd kv)) extracted ->
  Forall (fun kv => P (fst kv) (snd kv))
    (fst (record_part (extracted, warnings) refdes pd)).
Proof.
  intros Hpd Hall; unfold record_part.
  destruct (dict_get extracted (MPN pd)) eqn:G.
  - destruct (_ || _); simpl; auto.
  - simpl; rewrite dict_set_absent by exact G.
    apply Forall_app; split; auto.
Qed.

Lemma record_part_nodup (extracted : dict Part) warnings refdes pd :
  NoDup (List.map fst extracted) ->
  NoDup (List.map fst (fst (record_part (extracted, warnings) refdes pd))).
Proof.
  intros Hnd; unfold record_part.
  destruct (dict_get extracted (MPN pd)) eqn:G.
  - destruct (_ || _); simpl; auto.
  - simpl; now apply dict_set_NoDup.
Qed.

Section ScanRecords.
Variable strftime_date : float -> str.
Variable today : str.
Variable project_name : str.

(** What holds of every record the loop body builds holds of every record
    of the scan. *)
Section ScanInvariant.
Variable P : str -> Part -> Prop.
Hypothesis P_part_data :
  forall date_str props refdes pd,
    part_data_of project_name date_str props = Some (refdes, pd) ->
    P (MPN pd) pd.

Lemma scan_components_forall (found : list attrs) :
  forall latest (st : scan_state),
    Forall (fun kv => P (fst kv) (snd kv)) (fst st) ->
    Forall (fun kv => P (fst kv) (snd kv))
      (fst (fold_left
              (scan_component strftime_date today project_name latest)
              found st)).
Proof.
  induction found as [|props found IH]; simpl; intros latest st Hall; auto.
  apply IH; unfold scan_component.
  destruct (part_data_of _ _ props) as [[refdes pd]|] eqn:E; auto.
  destruct st as [extracted warnings].
  apply record_part_forall; auto; eapply P_part_data; eauto.
Qed.

Lemma scan_sheets_forall (sheets : list (float * str)) :
  forall latest (st : scan_state),
    Forall (fun kv => P (fst kv) (snd kv)) (fst st) ->
    Forall (fun kv => P (fst kv) (snd kv))
      (fst (snd (fold_left (scan_sheet strftime_date today project_name)
                   sheets (latest, st)))).
Proof.
  induction sheets as [|[mtime content] sheets IH]; simpl;
    intros latest st Hall; auto.
  apply IH; now apply scan_components_forall.
Qed.

Lemma scan_forall (sheets : list (float * str)) :
  Forall (fun kv => P (fst kv) (snd kv))
    (fst (scan_project_folder strftime_date today project_name sheets)).
Proof. unfold scan_project_folder; apply scan_sheets_forall; constructor. Qed.

End ScanInvariant.

Lemma scan_components_nodup (found : list attrs) :
  forall latest (st : scan_state),
    NoDup (List.map fst (fst st)) ->
    NoDup (List.map fst
             (fst (fold_left
                     (scan_component strftime_date today project_name latest)
                     found st))).
Proof.
  induction found as [|props found IH]; simpl; intros latest st Hnd; auto.
  apply IH; unfold scan_component.
  destruct (part_data_of _ _ props) as [[refdes pd]|] eqn:E; auto.
  destruct st as [extracted warnings]; now apply record_part_nodup.
Qed.

Lemma scan_sheets_nodup (sheets : list (float * str)) :
  forall latest (st : scan_state),
    NoDup (List.map fst (fst st)) ->
    NoDup (List.map fst
             (fst (snd (fold_left
                          (scan_sheet strftime_date today project_name)
                          sheets (latest, st))))).
Proof.
  induction sheets as [|[mtime content] sheets IH]; simpl;
    intros latest st Hnd; auto.
  apply IH; now apply scan_components_nodup.
Qed.

Lemma scan_scanned (sheets : list (float * str)) :
  Forall (fun kv => scanned_record project_name (fst kv) (snd kv))
    (fst (scan_project_folder strftime_date today project_name sheets)).
Proof.
  apply scan_forall; intros date_str props refdes pd E.
  now apply part_data_of_scanned in E.
Qed.

(** Property X11.  Every record [scan_project_folder] returns is stored
    under its own part number, which is not empty; it has a footprint, an
    empty Stock, the scanned project as its only project and a type made of
    upper-case letters; and no part number is returned twice. *)
Theorem scan_records_well_formed (sheets : list (float * str)) :
  let extracted_parts :=
    fst (scan_project_folder strftime_date today project_name sheets) in
  NoDup (List.map fst extracted_parts) /\
  Forall (fun kv => scanned_record project_name (fst kv) (snd kv))
    extracted_parts.
Proof.
  split; [|apply scan_scanned].
  unfold scan_project_folder; apply scan_sheets_nodup; constructor.
Qed.

(** Property X12.  What [scan_project_folder] returns can always be
    merged into an inventory whose cells are all text: every scanned
    record names its project, so the lookup of the first project in
    [merge_data] never raises [IndexError], the merge returns, and after
    it every scanned part number is stored in the inventory.  An inventory
    with a cell that is not a text, as a short row of the file gives, is
    outside the record type of the model. *)
Theorem merge_of_scan_returns (master_data : dict Part)
  (sheets : list (float * str)) :
  let new_data :=
    fst (scan_project_folder strftime_date today project_name sheets) in
  nonempty_projects new_data /\
  exists master' changes errors,
    merge_data master_data new_data = Ok (master', changes, errors) /\
    forall mpn part, In (mpn, part) new_data -> dict_mem master' mpn = true.
Proof.
  cbv zeta.
  set (new_data :=
         fst (scan_project_folder strftime_date today project_name sheets)).
  pose proof (scan_scanned sheets) as H; fold new_data in H.
  assert (Hnd : NoDup (List.map fst new_data)).
  { unfold new_data, scan_project_folder.
    apply scan_sheets_nodup; constructor. }
  assert (Hne : nonempty_projects new_data).
  { unfold nonempty_projects; rewrite Forall_forall in *; intros kv Hkv.
    destruct (H kv Hkv) as (_ & _ & _ & _ & -> & _); discriminate. }
  split; [exact Hne|].
  destruct (merge_loop_total _ Hne (master_data, [], [])) as [[[m ch] er] E].
  exists m, ch, er; split; [exact E|].
  intros mpn part Hin.
  pose proof (merge_loop_keys_exact new_data Hnd _ _ _ _ _ _ E) as Hk.
  assert (Hm : In mpn (List.map fst m)).
  { rewrite Hk; apply in_or_app.
    destruct (dict_mem master_data mpn) eqn:D.
    - left; unfold dict_mem in D.
      destruct (dict_get master_data mpn) as [q|] eqn:G; [|discriminate].
      exact (dict_get_Some_key _ _ _ G).
    - right; apply filter_In; split; [|now rewrite D].
      change mpn with (fst (mpn, part)); now apply in_map. }
  unfold dict_mem; destruct (dict_get m mpn) eqn:G; [reflexivity|].
  apply dict_get_None in G; contradiction.
Qed.

End ScanRecords.

(** ** More on the numeric projection *)

(** Property X13.  [parse_value_to_float] raises exactly on the values
    that are not empty and hold white space only: it raises [IndexError]
    on each of them, and on every other value it returns a float that is
    not negative and not NaN, as [parse_voltage_to_float] does on every
    voltage. *)
Theorem parse_value_to_float_domain (value_str : str) :
  (parse_value_to_float value_str = Raise IndexError <->
   value_str <> [] /\ forallb is_space value_str = true) /\
  (value_str = [] \/ forallb is_space value_str = false ->
   exists f, parse_value_to_float value_str = Ok f /\ nonneg_float f) /\
  nonneg_float (parse_voltage_to_float value_str).
Proof.
  assert (Hok : value_str = [] \/ forallb is_space value_str = false ->
                exists f, parse_value_to_float value_str = Ok f /\
                          nonneg_float f).
  { intros [->|Hb]; [exists fzero; split; [reflexivity|exact I]|].
    destruct (split value_str) as [|t rest] eqn:E.
    - apply split_nil_blank in E; congruence.
    - destruct (parse_value_to_float_token value_str) as [f Hf];
        [congruence|].
      exists f; split; [exact Hf|].
      exact (parse_value_to_float_nonneg _ _ Hf). }
  split; [split|split; [exact Hok|apply parse_voltage_to_float_nonneg]].
  - intros H; destruct value_str as [|c v]; [discriminate|].
    split; [discriminate|].
    destruct (forallb is_space (c :: v)) eqn:Hb; [reflexivity|].
    destruct (Hok (or_intror eq_refl)) as (f & Hf & _); congruence.
  - intros [Hne Hb]; now apply parse_value_to_float_blank.
Qed.

Lemma parse_value_to_float_domain_witness :
  (lit "  " <> [] /\ forallb is_space (lit "  ") = true /\
   parse_value_to_float (lit "  ") = Raise IndexError) /\
  (forallb is_space (lit "10k") = false /\
   exists f, parse_value_to_float (lit "10k") = Ok f /\ nonneg_float f).
Proof.
  split.
  - assert (H : lit "  " <> [] /\ forallb is_space (lit "  ") = true)
      by (split; [discriminate|reflexivity]).
    split; [exact (proj1 H)|split; [exact (proj2 H)|]].
    exact (proj2 (proj1 (parse_value_to_float_domain (lit "  "))) H).
  - split; [reflexivity|].
    apply (proj1 (proj2 (parse_value_to_float_domain (lit "10k")))).
    right; reflexivity.
Defined.

(** Property X14.  [parse_value_to_float] reads the first token of the
    value only: what follows the first white space does not change the
    result. *)
Theorem parse_value_to_float_first_token (value_str t : str)
  (rest : list str) :
  split value_str = t :: rest ->
  parse_value_to_float value_str = parse_value_to_float t.
Proof.
  intros E; pose proof (split_tokens value_str) as Ht; rewrite E in Ht.
  inversion Ht as [|? ? Htok _]; subst.
  unfold parse_value_to_float; rewrite E, (split_token t Htok).
  destruct Htok as [Hne _].
  destruct value_str as [|c v]; [discriminate|].
  destruct t; [congruence|reflexivity].
Qed.

Lemma parse_value_to_float_first_token_witness :
  split (lit "4k7 1% 0402") = [lit "4k7"; lit "1%"; lit "0402"] /\
  parse_value_to_float (lit "4k7 1% 0402") = parse_value_to_float (lit "4k7").
Proof.
  split; [reflexivity|].
  apply (parse_value_to_float_first_token _ _ [lit "1%"; lit "0402"]).
  reflexivity.
Defined.

(** ** The formats of the numeric projection *)

Lemma float_format1_sem (w : str) (m : mstate) :
  re_match float_format1 w = Some m -> forallb not_space w = true ->
  exists num mult,
    w = num ++ mult /\ num <> [] /\ forallb ascii_numeric num = true /\
    (mult = [] \/
     exists c, mult = [c] /\ mem_char c multiplier_letters = true) /\
    groups m = [num; mult].
Proof.
  intros Hm Hw; apply match_at_sem in Hm; [|reflexivity].
  cbn [float_format1 Cat sem] in Hm.
  destruct Hm as (m0 & [_ ->] & m1 & (num & Hnum & [R1 P1] & C1)
                  & m2 & (mult & Hmult & [R2 P2] & C2) & He & ->).
  cbn [m_rest m_caps m_pos] in *.
  assert (E : w = (num ++ mult) ++ m_rest m2)
    by (rewrite R1, R2, <- app_assoc; reflexivity).
  apply (eol_token _ _ _ Hw E) in He; rewrite He, app_nil_r in E.
  destruct Hnum as (u & v & -> & (c & -> & Hc) & Hv).
  exists ([c] ++ v), mult; repeat split; auto.
  - discriminate.
  - simpl; unfold ascii_numeric at 1; rewrite Hc; exact Hv.
  - destruct Hmult as [(c' & -> & Hc')| ->]; eauto.
  - unfold groups; now rewrite C2, C1.
Qed.

Lemma ascii_digit_is_digit (c : char) :
  is_ascii_digit c = true -> is_digit c = true.
Proof.
  intros H; unfold is_digit; simpl; unfold in_run at 1.
  unfold is_ascii_digit in H; apply andb_true_iff in H as [H1 H2].
  apply N.leb_le in H1, H2.
  assert (N.leb 48 c && N.ltb c (48 + 10) = true)%N as ->; [|reflexivity].
  apply andb_true_iff; split; [apply N.leb_le|apply N.ltb_lt]; lia.
Qed.

Lemma ascii_numeric_numeric (c : char) :
  ascii_numeric c = true -> numeric c = true.
Proof.
  unfold ascii_numeric, numeric; intros H.
  apply orb_true_iff in H as [H|H]; apply orb_true_iff; auto.
  left; now apply ascii_digit_is_digit.
Qed.

Lemma ascii_digits_digits (w : str) : ascii_digits w -> digits w.
Proof.
  intros [Hne H]; split; auto.
  rewrite forallb_forall in *; intros c Hc; apply ascii_digit_is_digit; auto.
Qed.

Lemma ascii_numeric_forall (w : str) :
  forallb ascii_numeric w = true -> forallb numeric w = true.
Proof.
  rewrite !forallb_forall; intros H c Hc; apply ascii_numeric_numeric; auto.
Qed.

(** No number with a multiplier can be read in a text that ends with
    another character. *)
Lemma float_format1_none (x : str) (e : char) :
  forallb not_space (x ++ [e]) = true ->
  numeric e = false -> mem_char e multiplier_letters = false ->
  re_match float_format1 (x ++ [e]) = None.
Proof.
  intros Hx He1 He2.
  destruct (re_match float_format1 (x ++ [e])) as [m|] eqn:Hm; auto.
  exfalso.
  destruct (float_format1_sem _ _ Hm Hx)
    as (num & mult & E & Hne & Hnum & Hmult & _).
  destruct Hmult as [->|(c & -> & Hc)].
  - rewrite app_nil_r in E; subst num.
    apply ascii_numeric_forall in Hnum.
    rewrite forallb_app in Hnum; simpl in Hnum.
    rewrite He1, andb_false_r in Hnum; discriminate.
  - apply app_inj_tail in E as [_ ->]; congruence.
Qed.

(** Nor in a text with a multiplier before its last character. *)
Lemma float_format1_mid (main dec : str) (c : char) :
  forallb not_space (main ++ [c] ++ dec) = true ->
  mem_char c multiplier_letters = true -> digits dec ->
  re_match float_format1 (main ++ [c] ++ dec) = None.
Proof.
  intros Hx Hc [Hne Hdec].
  destruct (re_match float_format1 _) as [m|] eqn:Hm; auto; exfalso.
  destruct (float_format1_sem _ _ Hm Hx)
    as (num & mult & E & _ & Hnum & Hmult & _).
  destruct (exists_last Hne) as (dec' & e & ->).
  rewrite forallb_app in Hdec; simpl in Hdec.
  apply andb_true_iff in Hdec as [_ He]; rewrite andb_true_r in He.
  destruct Hmult as [->|(c' & -> & Hc')].
  - rewrite app_nil_r in E; subst num.
    apply ascii_numeric_forall in Hnum.
    rewrite forallb_app in Hnum; simpl in Hnum.
    rewrite (letter_not_numeric c Hc), andb_false_r in Hnum; discriminate.
  - rewrite !app_assoc in E; apply app_inj_tail in E as [_ ->].
    apply letter_not_numeric in Hc'; apply digit_numeric in He; congruence.
Qed.

(** The number and the multiplier that are read in a text of ASCII digits
    and dots followed by a multiplier. *)
Lemma float_format1_match (num : str) (c : char) :
  num <> [] -> forallb ascii_numeric num = true ->
  mem_char c multiplier_letters = true ->
  exists m,
    re_match float_format1 (num ++ [c]) = Some m /\ groups m = [num; [c]].
Proof.
  intros Hne Hnum Hc.
  assert (Hx : forallb not_space (num ++ [c]) = true).
  { apply not_space_app; split.
    - now apply numeric_forall_not_space, ascii_numeric_forall.
    - simpl; now rewrite letter_not_space. }
  destruct num as [|d num]; [congruence|].
  simpl in Hnum; apply andb_true_iff in Hnum as [Hd Hnum].
  destruct (match_at_exists float_format1 0 ((d :: num) ++ [c])
              (MState (length (d :: num) + 1) [] [d :: num; [c]]) eq_refl)
    as [m Hm].
  { cbn [float_format1 Cat sem].
    exists (MState 0 ((d :: num) ++ [c]) []); split; [split; reflexivity|].
    exists (MState (length (d :: num)) [c] [d :: num]); split.
    { exists (d :: num); split; [|split; [split|]; reflexivity].
      exists [d], num; split; [reflexivity|].
      split; [exists d; split; [reflexivity|exact Hd]|exact Hnum]. }
    exists (MState (length (d :: num) + 1) [] [d :: num; [c]]); split.
    { exists [c]; split; [left; now exists c|].
      split; [split|]; reflexivity. }
    split; auto. }
  exists m; split; [exact Hm|].
  destruct (float_format1_sem _ _ Hm Hx)
    as (num' & mult & E & _ & Hnum' & Hmult & G).
  rewrite G; destruct Hmult as [->|(c' & -> & Hc')].
  - exfalso; rewrite app_nil_r in E; subst num'.
    apply ascii_numeric_forall in Hnum'.
    change (forallb numeric ((d :: num) ++ [c]) = true) in Hnum'.
    rewrite forallb_app in Hnum'; simpl in Hnum'.
    rewrite (letter_not_numeric c Hc), andb_false_r in Hnum'; discriminate.
  - apply app_inj_tail in E as [-> ->]; reflexivity.
Qed.

(** The groups of [format2] and of [format3] on the texts they match. *)
Lemma format2_match (main dec : str) (c : char) :
  digits main -> mem_char c multiplier_letters = true -> digits dec ->
  exists m,
    re_match format2 (main ++ [c] ++ dec) = Some m /\
    groups m = [main; [c]; dec].
Proof.
  intros Hmain Hc Hdec.
  assert (Hx : forallb not_space (main ++ [c] ++ dec) = true).
  { apply not_space_app; split;
      [now apply numeric_forall_not_space, number_numeric, digits_number|].
    apply not_space_app; split; [simpl; now rewrite letter_not_space|].
    now apply numeric_forall_not_space, number_numeric, digits_number. }
  destruct (match_at_exists format2 0 (main ++ [c] ++ dec)
              (MState (length main + 1 + length dec) [] [main; [c]; dec])
              eq_refl) as [m Hm].
  { cbn [format2 Cat sem].
    exists (MState 0 (main ++ [c] ++ dec) []); split; [split; reflexivity|].
    exists (MState (length main) ([c] ++ dec) [main]); split.
    { exists main; split; [now apply lang_plus_digit|].
      split; [split|]; reflexivity. }
    exists (MState (length main + 1) dec [main; [c]]); split.
    { exists [c]; split; [now exists c|]; split; [split|]; reflexivity. }
    exists (MState (length main + 1 + length dec) [] [main; [c]; dec]); split.
    { exists dec; split; [now apply lang_plus_digit|].
      split; [split|]; simpl; auto using app_nil_r.
      symmetry; apply app_nil_r. }
    split; auto. }
  exists m; split; [exact Hm|].
  destruct (format2_sem _ _ Hm Hx)
    as (main' & c' & dec' & E & Hm' & Hc' & _ & G).
  rewrite G.
  destruct (first_other is_digit main main' c c' dec dec')
    as (-> & -> & ->); auto; try apply Hmain; try apply Hm'.
  - destruct (is_digit c) eqn:D; auto.
    apply digit_numeric in D; apply letter_not_numeric in Hc; congruence.
  - destruct (is_digit c') eqn:D; auto.
    apply digit_numeric in D; apply letter_not_numeric in Hc'; congruence.
Qed.

Lemma format3_match_dec (main dec : str) (r : char) :
  digits main -> ci_eq 82%N r = true -> forallb is_digit dec = true ->
  exists m,
    re_match format3 (main ++ [r] ++ dec) = Some m /\ groups m = [main; dec].
Proof.
  intros Hmain Hr Hdec.
  assert (Hx : forallb not_space (main ++ [r] ++ dec) = true).
  { apply not_space_app; split;
      [now apply numeric_forall_not_space, number_numeric, digits_number|].
    apply not_space_app; split.
    - destruct (ci_R r Hr) as [-> | ->]; reflexivity.
    - now apply numeric_forall_not_space, digits_numeric. }
  destruct (match_at_exists format3 0 (main ++ [r] ++ dec)
              (MState (length main + 1 + length dec) [] [main; dec])
              eq_refl) as [m Hm].
  { cbn [format3 Cat sem].
    exists (MState 0 (main ++ [r] ++ dec) []); split; [split; reflexivity|].
    exists (MState (length main) ([r] ++ dec) [main]); split.
    { exists main; split; [now apply lang_plus_digit|].
      split; [split|]; reflexivity. }
    exists (MState (length main + 1) dec [main]); split.
    { exists [r]; split; [now exists r|]; split; [split|]; reflexivity. }
    exists (MState (length main + 1 + length dec) [] [main; dec]); split.
    { exists dec; split; [exact Hdec|].
      split; [split|]; simpl; auto using app_nil_r.
      symmetry; apply app_nil_r. }
    split; auto. }
  exists m; split; [exact Hm|].
  destruct (format3_sem _ _ Hm Hx)
    as (main' & r' & dec' & E & Hm' & Hr' & _ & G).
  rewrite G.
  destruct (first_other is_digit main main' r r' dec dec')
    as (-> & _ & ->); auto using ci_R_not_digit;
    [apply Hmain|apply Hm'].
Qed.

(** ** Normalised values and their numbers *)

Lemma units_last_numeric (body : str) (c : char) :
  forallb not_space (body ++ [c]) = true -> numeric c = true ->
  fold_left strip_unit units_to_strip (body ++ [c]) = body ++ [c].
Proof.
  intros Hx Hc; apply strip_units_id; auto.
  apply forallb_forall; intros u Hu; apply negb_true_iff.
  unfold ends_ci; rewrite rev_unit; apply ends_ci_numeric; auto.
  revert u Hu; apply forallb_forall; reflexivity.
Qed.

Lemma digits_last (w : str) :
  digits w -> exists w' e, w = w' ++ [e] /\ is_digit e = true.
Proof.
  intros [Hne H]; destruct (exists_last Hne) as (w' & e & ->).
  exists w', e; split; auto.
  rewrite forallb_app in H; simpl in H.
  apply andb_true_iff in H as [_ H]; now rewrite andb_true_r in H.
Qed.

Lemma digits_not_space (w : str) :
  forallb is_digit w = true -> forallb not_space w = true.
Proof. intros H; now apply numeric_forall_not_space, digits_numeric. Qed.

Lemma letter_not_digit (c : char) :
  mem_char c multiplier_letters = true -> is_digit c = false.
Proof.
  intros H; destruct (is_digit c) eqn:D; auto.
  apply digit_numeric in D; apply letter_not_numeric in H; congruence.
Qed.

(** The numeric projection of a token. *)
Lemma parse_value_to_float_unread (s : str) :
  token s ->
  re_match float_format1 s = None -> re_match format2 s = None ->
  re_match format3 s = None ->
  parse_value_to_float s = Ok fzero.
Proof.
  intros Hs H1 H2 H3; unfold parse_value_to_float.
  rewrite (split_token s Hs), H1, H2, H3.
  destruct Hs as [Hne _]; destruct s; [congruence|reflexivity].
Qed.

Lemma token_app (a b : str) :
  a <> [] -> forallb not_space a = true -> forallb not_space b = true ->
  token (a ++ b).
Proof.
  intros Hne Ha Hb; split; [destruct a; [congruence|discriminate]|].
  now apply not_space_app.
Qed.

(** Property X15.  A resistance written with [R] as its decimal point
    (digits, [R] or [r], digits) is normalised to the digits, a dot, the
    digits and [R]; and in this form [parse_value_to_float] reads it
    as 0.0, since none of its formats has a dot before the [R]. *)
Theorem decimal_ohms_read_as_zero (main dec : str) (r : char) (t : str) :
  digits main -> digits dec -> ci_eq 82%N r = true ->
  mem_str t VALUE_PARSE_TYPES = true ->
  normalize_value (main ++ [r] ++ dec) t
  = main ++ lit "." ++ dec ++ lit "R" /\
  parse_value_to_float (main ++ lit "." ++ dec ++ lit "R") = Ok fzero.
Proof.
  intros Hmain Hdec Hr Ht.
  pose proof (digits_not_space _ (proj2 Hmain)) as Sm.
  pose proof (digits_not_space _ (proj2 Hdec)) as Sd.
  assert (Sr : forallb not_space [r] = true)
    by (destruct (ci_R r Hr) as [-> | ->]; reflexivity).
  split.
  - assert (Hx : token (main ++ [r] ++ dec)).
    { apply token_app; auto; [apply Hmain|now apply not_space_app]. }
    rewrite normalize_value_tokens; auto; [|apply Hx].
    rewrite (split_token _ Hx).
    assert (E : normalize_token (main ++ [r] ++ dec)
                = Some (main ++ lit "." ++ dec ++ lit "R")).
    { unfold normalize_token.
      destruct (digits_last dec Hdec) as (dec' & e & Ed & He).
      assert (Ex : main ++ [r] ++ dec = (main ++ [r] ++ dec') ++ [e])
        by (rewrite Ed, <- !app_assoc; reflexivity).
      rewrite Ex, units_last_numeric, <- Ex;
        [|rewrite <- Ex; apply Hx|now apply digit_numeric].
      rewrite format1_none; [|apply Hx|].
      2: { intros num c E; rewrite Ex in E.
           apply app_inj_tail in E as [_ <-].
           destruct (mem_char e multiplier_letters) eqn:M; auto.
           apply letter_not_digit in M; congruence. }
      destruct (re_match format2 _) as [m2|] eqn:H2.
      { exfalso.
        destruct (format2_sem _ _ H2 (proj2 Hx))
          as (main' & c' & dec2 & E & Hm' & Hc' & _).
        destruct (first_other is_digit main main' r c' dec dec2)
          as (_ & -> & _); auto using ci_R_not_digit, letter_not_digit;
          try apply Hmain; try apply Hm'.
        destruct (ci_R c' Hr) as [-> | ->]; discriminate. }
      destruct (format3_match_dec main dec r Hmain Hr (proj2 Hdec))
        as (m3 & -> & G).
      rewrite G; cbn [nth].
      destruct Hdec as [Hne _]; destruct dec; [congruence|reflexivity]. }
    now rewrite E.
  - change (lit "R") with [82%N]; change (lit ".") with [DOT].
    assert (Ea : main ++ [DOT] ++ dec ++ [82%N]
                 = (main ++ [DOT] ++ dec) ++ [82%N])
      by now rewrite <- !app_assoc.
    assert (Hn : forallb not_space (main ++ [DOT] ++ dec) = true)
      by (apply numeric_forall_not_space, number_numeric;
          now apply decimal_number; [|apply Hdec]).
    assert (Hx : token (main ++ [DOT] ++ dec ++ [82%N])).
    { rewrite Ea; apply token_app; auto.
      destruct main; [destruct Hmain; congruence|discriminate]. }
    apply parse_value_to_float_unread; auto.
    + rewrite Ea; apply float_format1_none; auto.
      apply not_space_app; auto.
    + apply format2_none; [apply Hx|].
      intros a c E; rewrite Ea in E; apply app_inj_tail in E as [_ <-].
      reflexivity.
    + destruct (re_match format3 _) as [m|] eqn:Hm; auto; exfalso.
      destruct (format3_sem _ _ Hm (proj2 Hx))
        as (main' & r' & dec' & E' & Hm' & Hr' & _).
      destruct (first_other is_digit main main' DOT r'
                  (dec ++ [82%N]) dec') as (_ & <- & _);
        auto using ci_R_not_digit; try apply Hmain; try apply Hm'.
      discriminate.
Qed.

Lemma decimal_ohms_read_as_zero_witness :
  normalize_value (lit "2R2") (lit "R") = lit "2.2R" /\
  parse_value_to_float (lit "2.2R") = Ok fzero.
Proof.
  apply (decimal_ohms_read_as_zero (lit "2") (lit "2") 82%N (lit "R"));
    try reflexivity; split; try reflexivity; discriminate.
Defined.

Lemma digit_not_dot (c : char) : is_digit c = true -> is_dot c = false.
Proof.
  intros H; unfold is_dot.
  destruct (N.eqb_spec c DOT) as [E|]; [subst c; discriminate|reflexivity].
Qed.

Lemma filter_digits_dots (w : str) :
  forallb is_digit w = true ->
  List.filter is_dot w = [] /\
  List.filter (fun c => negb (is_dot c)) w = w.
Proof.
  induction w as [|c w IH]; simpl; auto.
  intros H; apply andb_true_iff in H as [Hc Hw].
  rewrite (digit_not_dot c Hc); simpl.
  destruct (IH Hw) as [-> ->]; auto.
Qed.

(** [float] reads digits, a dot and digits. *)
Lemma py_float_decimal (main dec : str) :
  digits main -> digits dec ->
  exists val, py_float (main ++ lit "." ++ dec) = Ok val.
Proof.
  intros [Hne Hm] [_ Hd]; unfold py_float.
  destruct (filter_digits_dots main Hm) as [F1 F2].
  destruct (filter_digits_dots dec Hd) as [F3 F4].
  rewrite !filter_app, F1, F2, F3, F4; simpl.
  rewrite forallb_app, Hm, Hd; simpl.
  destruct main; [congruence|]; simpl; eauto.
Qed.

(** The two spellings of a multiplier scale alike. *)
Lemma scale_canonical (val : float) (c : char) :
  mem_char c multiplier_letters = true ->
  scale val (canonical_mult [c]) = scale val [c].
Proof.
  intros H; apply mem_char_In in H; simpl in H.
  repeat (destruct H as [<-|H]; [reflexivity|]); contradiction.
Qed.

Lemma ascii_digits_numeric (w : str) :
  forallb is_ascii_digit w = true -> forallb ascii_numeric w = true.
Proof.
  rewrite !forallb_forall; intros H c Hc; unfold ascii_numeric.
  now rewrite H.
Qed.

(** Property X16.  A value written with the multiplier as its decimal
    point (ASCII digits, a multiplier letter, ASCII digits, as [4k7]) is
    normalised to the digits, a dot, the digits and the multiplier in its
    canonical spelling ([4.7k]), and [parse_value_to_float] reads the same
    number in both forms. *)
Theorem multiplier_point_keeps_number (main dec : str) (c : char) (t : str) :
  ascii_digits main -> ascii_digits dec ->
  mem_char c multiplier_letters = true ->
  mem_str t VALUE_PARSE_TYPES = true ->
  normalize_value (main ++ [c] ++ dec) t
  = (main ++ lit "." ++ dec) ++ canonical_mult [c] /\
  parse_value_to_float (normalize_value (main ++ [c] ++ dec) t)
  = parse_value_to_float (main ++ [c] ++ dec).
Proof.
  intros Am Ad Hc Ht.
  pose proof (ascii_digits_digits _ Am) as Hmain.
  pose proof (ascii_digits_digits _ Ad) as Hdec.
  pose proof (digits_not_space _ (proj2 Hmain)) as Sm.
  pose proof (digits_not_space _ (proj2 Hdec)) as Sd.
  assert (Sc : forallb not_space [c] = true)
    by (simpl; now rewrite letter_not_space).
  assert (Hx : token (main ++ [c] ++ dec)).
  { apply token_app; auto; [apply Hmain|now apply not_space_app]. }
  assert (N : normalize_value (main ++ [c] ++ dec) t
              = (main ++ lit "." ++ dec) ++ canonical_mult [c]).
  { rewrite normalize_value_tokens; auto; [|apply Hx].
    rewrite (split_token _ Hx).
    assert (E : normalize_token (main ++ [c] ++ dec)
                = Some ((main ++ lit "." ++ dec) ++ canonical_mult [c])).
    { unfold normalize_token.
      destruct (digits_last dec Hdec) as (dec' & e & Ed & He).
      assert (Ex : main ++ [c] ++ dec = (main ++ [c] ++ dec') ++ [e])
        by (rewrite Ed, <- !app_assoc; reflexivity).
      rewrite Ex, units_last_numeric, <- Ex;
        [|rewrite <- Ex; apply Hx|now apply digit_numeric].
      rewrite format1_none; [|apply Hx|].
      2: { intros num c' E; rewrite Ex in E.
           apply app_inj_tail in E as [_ <-].
           destruct (mem_char e multiplier_letters) eqn:M; auto.
           apply letter_not_digit in M; congruence. }
      destruct (format2_match main dec c Hmain Hc Hdec) as (m2 & -> & G).
      now rewrite G. }
    now rewrite E. }
  split; [exact N|rewrite N].
  destruct (py_float_decimal main dec Hmain Hdec) as [val Hval].
  destruct (canonical_letter c Hc) as (c' & Ec & Hc').
  destruct (canonical_fixed c' Hc') as [_ Hm'].
  transitivity (Ok (scale val [c])).
  - (* the normalised form: a number and its multiplier *)
    rewrite <- (scale_canonical val c Hc), Ec.
    assert (Hn : forallb ascii_numeric (main ++ lit "." ++ dec) = true).
    { rewrite !forallb_app, (ascii_digits_numeric main),
        (ascii_digits_numeric dec); [reflexivity|apply Ad|apply Am]. }
    assert (Hne : main ++ lit "." ++ dec <> [])
      by (destruct main; [destruct Hmain; congruence|discriminate]).
    destruct (float_format1_match _ c' Hne Hn Hm') as (m & Hm & G).
    assert (Hy : token ((main ++ lit "." ++ dec) ++ [c'])).
    { apply token_app; auto.
      - now apply numeric_forall_not_space, ascii_numeric_forall.
      - simpl; now rewrite letter_not_space. }
    unfold parse_value_to_float; rewrite (split_token _ Hy), Hm, G.
    cbn [nth]; rewrite Hval.
    destruct main; [destruct Hmain; congruence|reflexivity].
  - (* the form with the multiplier in the middle *)
    symmetry; unfold parse_value_to_float.
    rewrite (split_token _ Hx), float_format1_mid; auto; [|apply Hx].
    destruct (format2_match main dec c Hmain Hc Hdec) as (m2 & -> & G).
    rewrite G; cbn [nth]; rewrite Hval.
    destruct main; [destruct Hmain; congruence|reflexivity].
Qed.

Lemma multiplier_point_keeps_number_witness :
  normalize_value (lit "4K7") (lit "R") = lit "4.7k" /\
  parse_value_to_float (normalize_value (lit "4K7") (lit "R"))
  = parse_value_to_float (lit "4K7").
Proof.
  apply (multiplier_point_keeps_number (lit "4") (lit "7") 75%N (lit "R"));
    try reflexivity; split; try reflexivity; discriminate.
Defined.

(** ** More on the voltage and the normaliser *)

Lemma extract_voltage_none (s : str) :
  ~ has_voltage s -> extract_voltage s = (s, []).
Proof.
  intros Hs; unfold extract_voltage.
  destruct (negb (truthy s)); auto.
  destruct (re_search voltage_pattern s) as [[p m]|] eqn:H; auto.
  now apply search_voltage_has in H.
Qed.

(** Property X17.  Splitting the voltage off a second time finds nothing:
    the value [extract_voltage] returns is returned unchanged, with an
    empty voltage, by another call. *)
Theorem extract_voltage_twice (value_str : str) :
  extract_voltage (fst (extract_voltage value_str))
  = (fst (extract_voltage value_str), []).
Proof. apply extract_voltage_none, extract_voltage_clean. Qed.

(** Property X18.  For a value-bearing type, [normalize_value] rewrites
    the first token of the value only: the value it returns is made of
    as many tokens as the value it is given, joined by single spaces, and
    every token after the first is kept as it is. *)
Theorem normalize_value_keeps_suffix (v t : str) :
  mem_str t VALUE_PARSE_TYPES = true ->
  normalize_value v t = join (lit " ") (split (normalize_value v t)) /\
  length (split (normalize_value v t)) = length (split v) /\
  tl (split (normalize_value v t)) = tl (split v).
Proof.
  intros Ht; destruct v as [|c v]; [repeat split|].
  rewrite normalize_value_tokens by (auto; discriminate).
  pose proof (split_tokens (c :: v)) as Htok.
  destruct (split (c :: v)) as [|n rest]; [repeat split|].
  inversion Htok as [|? ? Hn Hrest]; subst.
  assert (Hx : token (match normalize_token n with
                      | Some x => x | None => n end)).
  { destruct (normalize_token n) as [x|] eqn:E; auto.
    now destruct (normalize_token_fixed n x (proj2 Hn) E). }
  rewrite split_join by (constructor; auto).
  repeat split.
Qed.

Lemma normalize_value_keeps_suffix_witness :
  normalize_value (lit " 4k7   1%  X7R ") (lit "R")
  = join (lit " ")
      (split (normalize_value (lit " 4k7   1%  X7R ") (lit "R"))) /\
  length (split (normalize_value (lit " 4k7   1%  X7R ") (lit "R")))
  = length (split (lit " 4k7   1%  X7R ")) /\
  tl (split (normalize_value (lit " 4k7   1%  X7R ") (lit "R")))
  = tl (split (lit " 4k7   1%  X7R ")).
Proof.
  apply (normalize_value_keeps_suffix (lit " 4k7   1%  X7R ") (lit "R")).
  reflexivity.
Defined.

(** ** The number of a voltage *)

(** The match of [([0-9\.]+)] at a position of a text. *)
Lemma number_match (pos : nat) (rest : str) :
  match_at (Grp (Plus digit_or_dot)) pos rest
  = match rest with
    | c :: s =>
        if ascii_numeric c
        then Some (MState (S pos + span ascii_numeric s)
                     (skipn (span ascii_numeric s) s)
                     [firstn (S (span ascii_numeric s)) rest])
        else None
    | [] => None
    end.
Proof.
  unfold match_at; rewrite parses_Grp, hd_error_map.
  unfold digit_or_dot.
  change (fun c : char => is_ascii_digit c || N.eqb c 46) with ascii_numeric.
  rewrite plus_cls_hd.
  destruct rest as [|c s]; [reflexivity|].
  destruct (ascii_numeric c); [|reflexivity].
  unfold close_group; cbn [option_map m_pos m_rest m_caps app].
  replace (S pos + span ascii_numeric s - pos)
    with (S (span ascii_numeric s)) by lia.
  reflexivity.
Qed.

Lemma span_all (p : char -> bool) (w rest : str) :
  forallb p w = true ->
  match rest with [] => True | c :: _ => p c = false end ->
  span p (w ++ rest) = length w.
Proof.
  intros Hw Hr; induction w as [|c w IH]; simpl in *.
  - destruct rest as [|c r]; [reflexivity|simpl; now rewrite Hr].
  - apply andb_true_iff in Hw as [Hc Hw]; rewrite Hc, IH; auto.
Qed.

Lemma search_number (pre num rest : str) :
  forall pos,
    forallb (fun c => negb (ascii_numeric c)) pre = true ->
    num <> [] ->
    forallb ascii_numeric num = true ->
    match rest with [] => True | c :: _ => ascii_numeric c = false end ->
    exists m,
      search_from (Grp (Plus digit_or_dot)) pos (pre ++ num ++ rest)
      = Some (pos + length pre, m) /\ groups m = [num].
Proof.
  induction pre as [|c pre IH]; intros pos Hpre Hne Hnum Hrest.
  - destruct num as [|d num]; [contradiction|].
    cbn [app]; cbn [forallb] in Hnum.
    apply andb_true_iff in Hnum as [Hd Hnum].
    cbn [search_from]; rewrite number_match, Hd.
    eexists; split; [cbn [length]; rewrite Nat.add_0_r; reflexivity|].
    cbn [groups m_caps]; rewrite (span_all _ num rest Hnum Hrest).
    cbn [firstn]; rewrite firstn_app, firstn_all, Nat.sub_diag.
    cbn [firstn]; now rewrite app_nil_r.
  - cbn [forallb] in Hpre; apply andb_true_iff in Hpre as [Hc Hpre].
    apply negb_true_iff in Hc.
    destruct (IH (S pos) Hpre Hne Hnum Hrest) as (m & Hm & Hg).
    exists m; split; [|exact Hg].
    change ((c :: pre) ++ num ++ rest) with (c :: (pre ++ num ++ rest)).
    cbn [search_from]; rewrite number_match, Hc, Hm.
    cbn [length]; f_equal; f_equal; lia.
Qed.

(** Property X19.  [parse_voltage_to_float] reads the first run of digits
    and dots of the text, whatever stands before and after it: the result
    is the number this run denotes, and zero when the run is not a number
    for [float], as a run with two dots. *)
Theorem parse_voltage_to_float_first_number (pre num rest : str) :
  forallb (fun c => negb (ascii_numeric c)) pre = true ->
  num <> [] ->
  forallb ascii_numeric num = true ->
  match rest with [] => True | c :: _ => ascii_numeric c = false end ->
  parse_voltage_to_float (pre ++ num ++ rest)
  = match py_float num with
    | Ok val => val
    | Raise _ => fzero
    end.
Proof.
  intros Hpre Hne Hnum Hrest; unfold parse_voltage_to_float.
  assert (T : truthy (pre ++ num ++ rest) = true).
  { destruct pre; [destruct num; [contradiction|reflexivity]|reflexivity]. }
  rewrite T; cbn [negb]; unfold re_search.
  destruct (search_number pre num rest 0 Hpre Hne Hnum Hrest)
    as (m & -> & Hg).
  rewrite Hg; reflexivity.
Qed.

Lemma parse_voltage_to_float_first_number_witness :
  parse_voltage_to_float (lit "DC 6.3V 16V") = float_of_ratio 63 10 /\
  parse_voltage_to_float (lit "1.2.3V") = fzero.
Proof.
  split.
  - transitivity (match py_float (lit "6.3") with
                  | Ok val => val | Raise _ => fzero end);
      [|vm_compute; reflexivity].
    apply (parse_voltage_to_float_first_number
             (lit "DC ") (lit "6.3") (lit "V 16V")); vm_compute; auto;
      discriminate.
  - transitivity (match py_float (lit "1.2.3") with
                  | Ok val => val | Raise _ => fzero end);
      [|vm_compute; reflexivity].
    apply (parse_voltage_to_float_first_number
             [] (lit "1.2.3") (lit "V")); vm_compute; auto; discriminate.
Defined.

(** ** The records of a file *)

Lemma instance_of_block_kept (block_text : str) (props : attrs) :
  instance_of_block block_text = Some props -> kept_instance props.
Proof.
  unfold instance_of_block.
  destruct (negb (contains _ _)); [discriminate|].
  destruct (should_exclude_component _); [discriminate|].
  destruct (truthy _) eqn:Et; [|discriminate].
  destruct (startswith _ _) eqn:Es; [discriminate|].
  cbn [negb]; intros [= <-]; unfold kept_instance, get_or_empty, dict_mem.
  rewrite dict_get_set_other by discriminate.
  rewrite dict_get_set_same; repeat split; auto.
  now apply truthy_true.
Qed.

Lemma add_component_kept (components : dict attrs) (props : attrs) :
  kept_instance props ->
  Forall (fun kv => kept_instance (snd kv)) components ->
  Forall (fun kv => kept_instance (snd kv)) (add_component components props).
Proof.
  intros Hp Hall; unfold add_component, dict_mem.
  destruct (dict_get components _) eqn:G; simpl; auto.
  rewrite dict_set_absent by exact G.
  apply Forall_app; split; auto.
Qed.

Lemma collect_kept (instances : list (option attrs)) :
  Forall (fun inst => match inst with
                      | Some props => kept_instance props
                      | None => True
                      end) instances ->
  forall components,
    keyed_by_base components ->
    Forall (fun kv => kept_instance (snd kv)) components ->
    let out :=
      fold_left
        (fun components inst =>
           match inst with
           | Some props => add_component components props
           | None => components
           end)
        instances components in
    keyed_by_base out /\ Forall (fun kv => kept_instance (snd kv)) out.
Proof.
  induction 1 as [|inst instances Hi _ IH]; simpl; intros components Hk Hall;
    auto.
  destruct inst as [props|]; apply IH; auto using add_component_keyed,
    add_component_kept.
Qed.

(** Property X20.  Every record [parse_schematic_file] returns has a
    reference designator that is not empty and does not start with [#],
    and carries the library symbol under [_lib_id]; and no two records
    have the same base designator. *)
Theorem parse_schematic_file_records (content : str) :
  Forall kept_instance (parse_schematic_file content) /\
  NoDup (List.map base_id (parse_schematic_file content)).
Proof.
  unfold parse_schematic_file, collect_components.
  destruct (collect_kept
              (List.map instance_of_block
                 (instance_blocks (remove_lib_symbols content))))
    with (components := @nil (str * attrs)) as [[Hnd Hk] Hall].
  - apply Forall_forall; intros inst Hi.
    apply in_map_iff in Hi as (b & <- & _).
    destruct (instance_of_block b) eqn:E; auto.
    now apply instance_of_block_kept in E.
  - split; constructor.
  - constructor.
  - split.
    + unfold dict_values; rewrite Forall_map; exact Hall.
    + unfold dict_values; rewrite map_map.
      assert (E : List.map (fun x => base_id (snd x))
                    (fold_left
                       (fun components inst =>
                          match inst with
                          | Some props => add_component components props
                          | None => components
                          end)
                       (List.map instance_of_block
                          (instance_blocks (remove_lib_symbols content))) [])
                  = List.map fst
                      (fold_left
                         (fun components inst =>
                            match inst with
                            | Some props => add_component components props
                            | None => components
                            end)
                         (List.map instance_of_block
                            (instance_blocks (remove_lib_symbols content)))
                         [])).
      { apply map_ext_in; intros kv Hkv.
        rewrite Forall_forall in Hk; exact (Hk kv Hkv). }
      rewrite E; exact Hnd.
Qed.

(** ** Markers *)

Lemma simple_Word (s : str) : simple (Word s) = true.
Proof. induction s as [|c s IH]; simpl; auto. Qed.

Lemma lang_Word (s w : str) : lang (Word s) w <-> w = s.
Proof.
  revert w; induction s as [|c s IH]; intros w; simpl; [tauto|].
  split.
  - intros (u & v & -> & (c' & -> & Hc) & Hv).
    apply N.eqb_eq in Hc; subst c'; apply IH in Hv; now subst.
  - intros ->; exists [c], s; repeat split; [|now apply IH].
    exists c; split; auto using N.eqb_refl.
Qed.

Lemma simple_marker (key value : str) : simple (marker key value) = true.
Proof. unfold marker; simpl; now rewrite !simple_Word. Qed.

Lemma lang_marker (key value w : str) :
  lang (marker key value) w
  <-> exists sp,
        sp <> [] /\ forallb is_space sp = true /\
        w = lit "(" ++ key ++ sp ++ value ++ lit ")".
Proof.
  unfold marker.
  change (lang (Cat [Lit LPAREN; Word key; Plus ws; Word value; Lit RPAREN]) w)
    with (exists u v, w = u ++ v /\ lang (Lit LPAREN) u /\
            exists u1 v1, v = u1 ++ v1 /\ lang (Word key) u1 /\
              exists u2 v2, v1 = u2 ++ v2 /\ lang (Plus ws) u2 /\
                exists u3 v3, v2 = u3 ++ v3 /\ lang (Word value) u3 /\
                  lang (Lit RPAREN) v3).
  split.
  - intros (u & v & -> & (c & -> & Hc) & u1 & v1 & -> & H1
            & u2 & v2 & -> & H2 & u3 & v3 & -> & H3 & (c' & -> & Hc')).
    apply N.eqb_eq in Hc, Hc'; subst c c'.
    apply lang_Word in H1, H3; subst u1 u3.
    destruct H2 as (a & b & -> & (d & -> & Hd) & Hb).
    exists ([d] ++ b); repeat split; auto; [discriminate|].
    simpl; unfold ws in *; now rewrite Hd.
  - intros (sp & Hne & Hsp & ->).
    exists (lit "("), (key ++ sp ++ value ++ lit ")"); split; auto.
    split; [exists LPAREN; auto|].
    exists key, (sp ++ value ++ lit ")"); split; auto.
    split; [now apply lang_Word|].
    exists sp, (value ++ lit ")"); split; auto; split.
    + destruct sp as [|d sp]; [congruence|].
      simpl in Hsp; apply andb_true_iff in Hsp as [Hd Hsp].
      exists [d], sp; split; [reflexivity|].
      split; [exists d; split; [reflexivity|exact Hd]|exact Hsp].
    + exists value, (lit ")"); split; auto.
      split; [now apply lang_Word|exists RPAREN; auto].
Qed.

(** A simple pattern matches at the start of a text when the text starts
    with a text of its language. *)
Lemma match_at_simple (r : regex) (pos : nat) (rest : str) :
  simple r = true ->
  (exists m, match_at r pos rest = Some m)
  <-> exists w tail, lang r w /\ rest = w ++ tail.
Proof.
  intros Hs; unfold match_at; split.
  - intros [m Hm]; apply hd_error_In in Hm.
    apply (parses_simple r Hs) in Hm as (w & Hw & [R _] & _); simpl in R.
    eauto.
  - intros (w & tail & Hw & ->).
    assert (Hin : In (MState (pos + length w) tail [])
                    (parses r (MState pos (w ++ tail) []))).
    { apply (parses_simple r Hs); exists w; repeat split; auto. }
    destruct (parses r (MState pos (w ++ tail) [])) as [|m l]; [easy|].
    now exists m.
Qed.

Lemma search_from_found (r : regex) :
  forall (rest : str) (pos k : nat) (m : mstate),
    k <= length rest ->
    match_at r (pos + k) (skipn k rest) = Some m ->
    exists p m', search_from r pos rest = Some (p, m').
Proof.
  intros rest pos k m Hk Hm.
  destruct (search_from r pos rest) as [[p m']|] eqn:E; [eauto|].
  rewrite (search_from_None r rest pos E k Hk) in Hm; discriminate.
Qed.

(** A search with a simple pattern succeeds when a text of its language
    occurs in the text. *)
Lemma re_search_simple (r : regex) (s : str) :
  simple r = true ->
  (exists p m, re_search r s = Some (p, m))
  <-> exists a w b, lang r w /\ s = a ++ w ++ b.
Proof.
  intros Hs; unfold re_search; split.
  - intros (p & m & H).
    apply search_from_Some in H as (k & -> & Hk & Hm & _).
    destruct (proj1 (match_at_simple r _ _ Hs) (ex_intro _ m Hm))
      as (w & tail & Hw & E).
    exists (firstn k s), w, tail; split; auto.
    rewrite <- E; symmetry; apply firstn_skipn.
  - intros (a & w & b & Hw & ->).
    destruct (proj2 (match_at_simple r (0 + length a) (w ++ b) Hs))
      as [m Hm]; [eauto|].
    apply (search_from_found r (a ++ w ++ b) 0 (length a) m).
    + rewrite length_app; lia.
    + now rewrite skipn_app, Nat.sub_diag, skipn_all.
Qed.

Lemma search_marker (key value block : str) :
  (exists p m, re_search (marker key value) block = Some (p, m))
  <-> marked key value block.
Proof.
  rewrite (re_search_simple _ _ (simple_marker key value)); unfold marked.
  split.
  - intros (a & w & b & Hw & ->).
    apply lang_marker in Hw as (sp & Hne & Hsp & ->); eauto 6.
  - intros (a & sp & b & Hne & Hsp & ->).
    exists a, (lit "(" ++ key ++ sp ++ value ++ lit ")"), b; split; auto.
    apply lang_marker; eauto.
Qed.

(** Property X21.  [should_exclude_component] holds of a block exactly
    when the block holds one of the markers [(dnp yes)], [(in_bom no)] and
    [(on_board no)], with any white space between the two words; and such
    a block gives no record. *)
Theorem should_exclude_component_spec (block_text : str) :
  (should_exclude_component block_text = true
   <-> marked (lit "dnp") (lit "yes") block_text \/
       marked (lit "in_bom") (lit "no") block_text \/
       marked (lit "on_board") (lit "no") block_text) /\
  (should_exclude_component block_text = true ->
   instance_of_block block_text = None).
Proof.
  split.
  - unfold should_exclude_component.
    rewrite <- !search_marker.
    destruct (re_search (marker (lit "dnp") (lit "yes")) block_text)
      as [[p1 m1]|]; [split; eauto|].
    destruct (re_search (marker (lit "in_bom") (lit "no")) block_text)
      as [[p2 m2]|]; [split; eauto 6|].
    destruct (re_search (marker (lit "on_board") (lit "no")) block_text)
      as [[p3 m3]|]; [split; eauto 6|].
    split; [discriminate|].
    intros [(p & m & H)|[(p & m & H)|(p & m & H)]]; discriminate.
  - intros H; unfold instance_of_block; rewrite H.
    destruct (negb (contains _ _)); reflexivity.
Qed.

Lemma should_exclude_component_spec_witness :
  marked (lit "dnp") (lit "yes") (lit "(symbol (dnp   yes) (in_bom yes))") /\
  should_exclude_component (lit "(symbol (dnp   yes) (in_bom yes))") = true /\
  instance_of_block (lit "(symbol (dnp   yes) (in_bom yes))") = None.
Proof.
  assert (H : marked (lit "dnp") (lit "yes")
                (lit "(symbol (dnp   yes) (in_bom yes))")).
  { exists (lit "(symbol "), (lit "   "), (lit " (in_bom yes))").
    split; [discriminate|split; reflexivity]. }
  pose proof (should_exclude_component_spec
                (lit "(symbol (dnp   yes) (in_bom yes))")) as [S1 S2].
  split; [exact H|]; split; [|apply S2]; apply S1; left; exact H.
Defined.

(** ** Bounds of the block extractor *)

Lemma block_loop_bounds (text : str) :
  forall (fuel i : nat) (depth : Z) (in_string : bool),
    i + fuel = length text ->
    let r := block_loop text fuel i depth in_string in
    i <= r /\ r <= length text /\
    (r < length text -> nth r text 0%N = RPAREN).
Proof.
  induction fuel as [|fuel IH]; intros i depth in_string Hi; cbn [block_loop].
  - cbv zeta; repeat split; lia.
  - assert (Hrec : forall d s,
               let r := block_loop text fuel (S i) d s in
               i <= r /\ r <= length text /\
               (r < length text -> nth r text 0%N = RPAREN)).
    { intros d s; destruct (IH (S i) d s ltac:(lia)) as (H1 & H2 & H3).
      cbv zeta; repeat split; auto; lia. }
    cbv zeta.
    destruct (N.eqb (nth i text 0%N) QUOTE && _); [apply Hrec|].
    destruct in_string; [apply Hrec|].
    destruct (N.eqb (nth i text 0%N) LPAREN); [apply Hrec|].
    destruct (N.eqb_spec (nth i text 0%N) RPAREN) as [E|]; [|apply Hrec].
    destruct (Z.eqb (depth - 1) 0); [|apply Hrec].
    repeat split; auto; lia.
Qed.

(** Property X22.  Whatever the text and the start index,
    [get_balanced_block] returns the length of the text or the index of a
    closing delimiter; the result is never beyond the end of the text,
    and never before the start index when that is in the text or at its
    end. *)
Theorem get_balanced_block_bounds (text : str) (start_index : nat) :
  let r := get_balanced_block text start_index in
  r <= length text /\
  (r = length text \/ nth r text 0%N = RPAREN) /\
  (start_index <= length text -> start_index <= r).
Proof.
  unfold get_balanced_block.
  destruct (Nat.le_gt_cases start_index (length text)) as [H|H].
  - destruct (block_loop_bounds text (length text - start_index) start_index
                0%Z false ltac:(lia)) as (H1 & H2 & H3).
    cbv zeta; repeat split; auto.
    destruct (Nat.eq_dec
                (block_loop text (length text - start_index) start_index
                   0%Z false) (length text)); auto.
    right; apply H3; lia.
  - replace (length text - start_index) with 0 by lia.
    cbn [block_loop]; cbv zeta; repeat split; auto; lia.
Qed.

Lemma get_balanced_block_bounds_witness :
  3 <= length (lit "(a))") /\ 3 <= get_balanced_block (lit "(a))") 3.
Proof.
  split; [simpl; lia|].
  apply (get_balanced_block_bounds (lit "(a))") 3); simpl; lia.
Defined.

(** ** No voltage in a scanned value *)

Lemma segment_refl (s : str) : segment s s.
Proof. exists [], []; now rewrite app_nil_r. Qed.

Lemma segment_trans (a b c : str) : segment a b -> segment b c -> segment a c.
Proof.
  intros (x & y & ->) (x' & y' & ->).
  exists (x' ++ x), (y ++ y'); now rewrite <- !app_assoc.
Qed.

Lemma segment_has_voltage (w s : str) :
  voltage_text w -> segment w s -> has_voltage s.
Proof.
  intros Hw (a & b & ->); exists w, (length a); split; auto.
  exists b; now rewrite skipn_app, Nat.sub_diag, skipn_all.
Qed.

Lemma has_voltage_segment (s : str) :
  has_voltage s -> exists w, voltage_text w /\ segment w s.
Proof.
  intros (w & i & Hw & Hi); exists w; split; auto.
  now apply occurs_at_segment in Hi.
Qed.

Lemma segment_in (w s : str) (c : char) : segment w s -> In c w -> In c s.
Proof.
  intros (a & b & ->) H; apply in_or_app; right; apply in_or_app; now left.
Qed.

(** The tokens of a text, joined, are in the text as they are. *)
Lemma join_split_segment (w v : str) :
  w <> [] -> forallb not_space w = true ->
  segment w (join (lit " ") (split v)) -> segment w v.
Proof.
  intros Hne Hw (a & b & E).
  rewrite <- collapse_strip in E; unfold re_sub in E.
  apply sub_from_segment in E as (a' & b' & E); auto.
  destruct (strip_segment v) as (t1 & t2 & E').
  apply segment_trans with (strip v); [now exists a', b'|now exists t1, t2].
Qed.

(** A text without white space in a joined list is in its first text or
    in the others. *)
Lemma join_cons_segment (w x : str) (rest : list str) :
  w <> [] -> forallb not_space w = true ->
  segment w (join (lit " ") (x :: rest)) ->
  segment w x \/ segment w (join (lit " ") rest).
Proof.
  intros Hne Hw; destruct rest as [|y rest]; [now left|].
  rewrite join_cons by discriminate.
  set (j := join (lit " ") (y :: rest)).
  intros (a & b & E).
  apply app_eq_app in E as [l [[-> E]|[-> E]]].
  - (* the text starts in [x] *)
    apply app_eq_app in E as [l' [[-> E]|[-> E]]].
    + destruct l' as [|c l']; [left; exists a, []; now rewrite !app_nil_r|].
      injection E as E _; subst c.
      rewrite forallb_app in Hw; simpl in Hw.
      rewrite andb_false_r in Hw; discriminate.
    + left; now exists a, l'.
  - (* the text starts after [x] *)
    destruct l as [|c l].
    + simpl in E; destruct w as [|c w]; [congruence|].
      injection E as E _; subst c; discriminate.
    + injection E as _ E; right; now exists l, b.
Qed.

Lemma voltage_text_V (w : str) : voltage_text w -> In 86%N w.
Proof. intros (num & _ & ->); apply in_or_app; right; now left. Qed.

(** The characters of a rewritten token. *)
Lemma normalize_token_chars (n x : str) :
  forallb not_space n = true -> normalize_token n = Some x ->
  forallb value_char x = true.
Proof.
  intros Hn; unfold normalize_token.
  pose proof (strip_units_forallb not_space units_to_strip n Hn) as Hw.
  set (w := fold_left strip_unit units_to_strip n) in *.
  assert (Hnum : forall s, forallb numeric s = true ->
                           forallb value_char s = true).
  { intros s; rewrite !forallb_forall; intros H c Hc.
    unfold value_char; now rewrite H. }
  assert (Hlet : forall c, In c (lit "pnumkMG") -> value_char c = true).
  { intros c Hc; simpl in Hc; each_char Hc. }
  destruct (re_match format1 w) as [m1|] eqn:H1.
  { destruct (format1_sem _ _ H1 Hw) as (num & c & E & Hn1 & Hc & G).
    rewrite G; simpl; intros H; apply some_inj in H; subst x.
    destruct (canonical_letter c Hc) as (c' & -> & Hc').
    rewrite forallb_app, Hnum by now apply number_numeric.
    simpl; now rewrite Hlet. }
  destruct (re_match format2 w) as [m2|] eqn:H2.
  { destruct (format2_sem _ _ H2 Hw)
      as (main & c & dec & E & Hmain & Hc & Hdec & G).
    rewrite G; simpl; intros H; apply some_inj in H; subst x.
    destruct (canonical_letter c Hc) as (c' & -> & Hc').
    change (main ++ 46%N :: dec) with (main ++ lit "." ++ dec).
    rewrite forallb_app, Hnum
      by (apply number_numeric, decimal_number; auto; apply Hdec).
    simpl; now rewrite Hlet. }
  destruct (re_match format3 w) as [m3|] eqn:H3.
  { destruct (format3_sem _ _ H3 Hw)
      as (main & r & dec & E & Hmain & Hr & Hdec & G).
    rewrite G; cbn [nth]; intros H; apply some_inj in H; subst x.
    pose proof (Hnum _ (digits_numeric _ (proj2 Hmain))) as Vm.
    pose proof (Hnum _ (digits_numeric _ Hdec)) as Vd.
    destruct (truthy dec); rewrite !forallb_app, Vm; try rewrite Vd;
      reflexivity. }
  destruct (re_match format4 w) as [m4|] eqn:H4; [|discriminate].
  intros H; apply some_inj in H; subst x.
  apply Hnum, number_numeric; exact (format4_sem _ _ H4 Hw).
Qed.

(** Normalising brings no voltage text into a value. *)
Lemma normalize_value_clean (v t : str) :
  ~ has_voltage v -> ~ has_voltage (normalize_value v t).
Proof.
  intros Hv H.
  destruct (mem_str t VALUE_PARSE_TYPES) eqn:Ht.
  2: { unfold normalize_value in H; rewrite Ht, orb_true_r in H; auto. }
  destruct v as [|c v]; [auto|].
  rewrite normalize_value_tokens in H by (auto; discriminate).
  apply has_voltage_segment in H as (w & Hw & Hs).
  pose proof (voltage_text_nonempty w Hw) as Hne.
  pose proof (voltage_text_not_space w Hw) as Hsp.
  apply Hv, (segment_has_voltage w); auto.
  pose proof (split_tokens (c :: v)) as Htok.
  destruct (split (c :: v)) as [|n rest] eqn:E.
  { destruct Hs as (a & b & Hs); destruct a, w; try discriminate.
    congruence. }
  inversion Htok as [|? ? Hn Hrest]; subst.
  apply join_split_segment; auto; rewrite E.
  apply join_cons_segment in Hs as [Hs|Hs]; auto.
  - destruct (normalize_token n) as [x|] eqn:En.
    + exfalso.
      pose proof (normalize_token_chars n x (proj2 Hn) En) as Hx.
      rewrite forallb_forall in Hx.
      specialize (Hx _ (segment_in _ _ _ Hs (voltage_text_V w Hw))).
      discriminate.
    + apply segment_trans with n; auto.
      destruct rest as [|y rest]; [apply segment_refl|].
      rewrite join_cons by discriminate.
      exists [], (lit " " ++ join (lit " ") (y :: rest)); reflexivity.
  - apply segment_trans with (join (lit " ") rest); auto.
    destruct rest as [|y rest].
    { destruct Hs as (a & b & Hs); destruct a, w; try discriminate.
      congruence. }
    rewrite (join_cons (lit " ") n) by discriminate.
    exists (n ++ lit " "), []; now rewrite app_nil_r, <- app_assoc.
Qed.

Lemma has_voltage_nil : ~ has_voltage [].
Proof.
  intros (w & i & Hw & Hi).
  apply (occurs_at_lt _ _ _ (voltage_text_nonempty w Hw)) in Hi.
  simpl in Hi; lia.
Qed.

Lemma value_and_voltage_clean (comp_type val voltage : str) :
  mem_str comp_type VALUE_PARSE_TYPES = true ->
  ~ has_voltage (fst (value_and_voltage comp_type val voltage)).
Proof.
  intros Ht; unfold value_and_voltage; rewrite Ht.
  destruct val as [|c val].
  - destruct voltage; simpl; apply normalize_value_clean, has_voltage_nil.
  - destruct voltage as [|d voltage]; cbn [truthy negb andb].
    + pose proof (extract_voltage_clean (c :: val)) as H.
      destruct (extract_voltage (c :: val)) as [val' ev].
      destruct (truthy ev); simpl; now apply normalize_value_clean.
    + simpl; apply normalize_value_clean, extract_voltage_clean.
Qed.

Lemma part_data_of_clean (project_name date_str : str) (props : attrs)
  (refdes : str) (pd : Part) :
  part_data_of project_name date_str props = Some (refdes, pd) ->
  mem_str (Type_ pd) VALUE_PARSE_TYPES = true -> ~ has_voltage (Value pd).
Proof.
  unfold part_data_of.
  destruct (negb (truthy (extracted_field props (lit "MPN"))));
    [discriminate|].
  destruct (negb (truthy (clean_field_value
                            (get_or_empty props (lit "Footprint")))));
    [discriminate|].
  pose proof (value_and_voltage_clean
                (get_designator_type (get_or_empty props (lit "Reference")))
                (clean_field_value (get_or_empty props (lit "Value")))
                (clean_field_value (get_or_empty props (lit "Voltage"))))
    as H.
  destruct (value_and_voltage _ _ _) as [val voltage].
  intros [= <- <-]; exact H.
Qed.

(** Property X23.  In every record [scan_project_folder] returns for a
    part of a value-bearing type, the Value holds no voltage text (digits,
    an optional decimal point, digits, the letter V): the voltages written
    in the Value property are all taken out of it. *)
Theorem scan_values_hold_no_voltage (strftime_date : float -> str)
  (today project_name : str) (sheets : list (float * str)) :
  Forall
    (fun kv =>
       mem_str (Type_ (snd kv)) VALUE_PARSE_TYPES = true ->
       ~ has_voltage (Value (snd kv)))
    (fst (scan_project_folder strftime_date today project_name sheets)).
Proof.
  apply (scan_forall strftime_date today project_name
           (fun _ p => mem_str (Type_ p) VALUE_PARSE_TYPES = true ->
                       ~ has_voltage (Value p))).
  intros date_str props refdes pd; apply part_data_of_clean.
Qed.

(** ** The rows of the master file *)

Lemma insert_str_perm (x : str) (l : list str) :
  Permutation (x :: l) (insert_str x l).
Proof.
  induction l as [|y l IH]; simpl; auto.
  destruct (str_ltb x y); auto.
  apply perm_trans with (y :: x :: l); [apply perm_swap|now constructor].
Qed.

Lemma sorted_strs_perm (l : list str) : Permutation l (sorted_strs l).
Proof.
  unfold sorted_strs.
  assert (H : forall acc,
             Permutation (acc ++ l)
               (fold_left (fun acc x => insert_str x acc) l acc)).
  { induction l as [|x l IH]; simpl; intros acc.
    - now rewrite app_nil_r.
    - eapply perm_trans; [|apply IH].
      apply perm_trans with ((x :: acc) ++ l);
        [symmetry; apply Permutation_middle|].
      apply Permutation_app_tail, insert_str_perm. }
  exact (H []).
Qed.

Lemma segment_cons (w s : str) (c : char) : segment w s -> segment w (c :: s).
Proof. intros (a & b & ->); now exists (c :: a), b. Qed.

(** Up to the next separator. *)
Lemma split_sep_name (t : str) :
  ~ segment (lit ", ") t ->
  forall cur rest,
    rest = [] \/ (exists r, rest = 44%N :: r) ->
    split_sep_from (lit ", ") cur (t ++ rest) 0
    = split_sep_from (lit ", ") (cur ++ t) rest 0.
Proof.
  induction t as [|c t IH]; intros Ht cur rest Hr.
  - now rewrite app_nil_r.
  - assert (E : startswith ((c :: t) ++ rest) (lit ", ") = false).
    { change (startswith ((c :: t) ++ rest) (lit ", "))
        with (N.eqb 44 c && startswith (t ++ rest) [32%N]).
      destruct (N.eqb_spec 44 c) as [<-|]; [|reflexivity].
      destruct t as [|d t].
      - destruct Hr as [->|[r ->]]; reflexivity.
      - change (startswith ((d :: t) ++ rest) [32%N])
          with (N.eqb 32 d && startswith (t ++ rest) []).
        destruct (N.eqb_spec 32 d) as [<-|]; [|reflexivity].
        exfalso; apply Ht; now exists [], t. }
    change ((c :: t) ++ rest) with (c :: t ++ rest) in *.
    cbn [split_sep_from]; rewrite E, IH; auto.
    + now rewrite <- app_assoc.
    + intros H; apply Ht; now apply segment_cons.
Qed.

Lemma split_sep_sep (cur rest : str) :
  split_sep_from (lit ", ") cur (lit ", " ++ rest) 0
  = cur :: split_sep_from (lit ", ") [] rest 0.
Proof. destruct rest; reflexivity. Qed.

Lemma split_sep_join (x : str) (l : list str) :
  Forall (fun p => ~ segment (lit ", ") p) (x :: l) ->
  split_sep (join (lit ", ") (x :: l)) (lit ", ") = x :: l.
Proof.
  unfold split_sep; revert x; induction l as [|y l IH]; intros x H;
    inversion H as [|? ? Hx Hl]; subst.
  - simpl join; rewrite <- (app_nil_r x) at 1.
    rewrite split_sep_name; auto.
  - rewrite join_cons by discriminate.
    rewrite split_sep_name; auto; [|right; now eexists].
    rewrite app_nil_l, split_sep_sep; f_equal; now apply IH.
Qed.

Lemma join_truthy (sep x : str) (l : list str) :
  x <> [] -> truthy (join sep (x :: l)) = true.
Proof. intros H; destruct x; [congruence|]; destruct l; reflexivity. Qed.

(** The projects that are read back from the [Used In] column. *)
Lemma projects_of_used_in (projects : list str) :
  writable_projects projects ->
  projects_of (used_in projects) = sorted_strs projects.
Proof.
  intros [Hnd Hall]; unfold projects_of, used_in.
  pose proof (sorted_strs_perm projects) as P.
  assert (Hnd' : NoDup (sorted_strs projects))
    by (eapply Permutation_NoDup; eauto).
  assert (Hall' : Forall (fun p => p <> [] /\ ~ segment (lit ", ") p)
                    (sorted_strs projects))
    by (eapply Permutation_Forall; eauto).
  destruct (sorted_strs projects) as [|x l]; [reflexivity|].
  inversion Hall' as [|? ? [Hx _] _]; subst.
  rewrite join_truthy by auto.
  rewrite split_sep_join.
  - unfold py_set; now apply nodup_fixed_point.
  - eapply Forall_impl; [|exact Hall']; now intros p [_ Hp].
Qed.

(** Property X24.  The [Used In] column round-trips: when no project name
    is empty or holds a comma followed by a space, the set of projects
    that [load_master_csv] reads from the column that [main] writes has
    the same members as the set that was written, each once. *)
Theorem used_in_round_trip (projects : list str) :
  writable_projects projects ->
  NoDup (projects_of (used_in projects)) /\
  forall p, In p (projects_of (used_in projects)) <-> In p projects.
Proof.
  intros H; rewrite (projects_of_used_in projects H).
  pose proof (sorted_strs_perm projects) as P; split.
  - eapply Permutation_NoDup; eauto; apply H.
  - intros p; split; apply Permutation_in; auto; now symmetry.
Qed.

Lemma used_in_round_trip_witness :
  NoDup (projects_of (used_in [lit "psu"; lit "amp"])) /\
  forall p, In p (projects_of (used_in [lit "psu"; lit "amp"]))
            <-> In p [lit "psu"; lit "amp"].
Proof.
  apply (used_in_round_trip [lit "psu"; lit "amp"]); split.
  - repeat constructor; simpl; intuition discriminate.
  - repeat constructor; try discriminate;
      intros (a & b & E);
      repeat (destruct a as [|? a]; try discriminate).
Defined.

(** The part that is read back from the row of a part. *)
Lemma part_of_row_of_part (part : Part) :
  writable_projects (Projects part) ->
  part_of_row (row_of_part part)
  = Some (MPN part, with_projects part (sorted_strs (Projects part))).
Proof.
  intros H.
  transitivity
    (Some (MPN part,
           with_projects part (projects_of (used_in (Projects part)))));
    [reflexivity|].
  now rewrite projects_of_used_in.
Qed.

Lemma load_rows_from (parts : list Part) :
  Forall (fun p => writable_projects (Projects p)) parts ->
  forall acc,
    NoDup (List.map fst acc ++ List.map MPN parts) ->
    fold_left
      (fun parts row =>
         match parts, part_of_row row with
         | Some parts, Some (mpn, part) => Some (dict_set parts mpn part)
         | _, _ => None
         end)
      (List.map row_of_part parts) (Some acc)
    = Some (acc ++ List.map
                     (fun p => (MPN p,
                                with_projects p (sorted_strs (Projects p))))
                     parts).
Proof.
  induction 1 as [|p parts Hp _ IH]; intros acc Hnd;
    cbn [List.map fold_left].
  - now rewrite app_nil_r.
  - rewrite (part_of_row_of_part p Hp).
    rewrite dict_set_absent.
    + rewrite IH; [now rewrite <- app_assoc|].
      rewrite map_app, <- app_assoc; exact Hnd.
    + apply dict_get_None; intros Hin.
      apply NoDup_remove_2 in Hnd; apply Hnd, in_or_app; now left.
Qed.

(** Property X25.  What [main] writes, [load_master_csv] reads back: from
    the rows of parts with distinct part numbers and project names that
    can be written, the loop of [load_master_csv] builds an inventory with
    one record for each part, under its part number, in the order of the
    rows; every text field is what it was, and the set of projects has
    the same members. *)
Theorem load_reads_what_main_writes (parts : list Part) :
  NoDup (List.map MPN parts) ->
  Forall (fun p => writable_projects (Projects p)) parts ->
  load_rows (List.map row_of_part parts)
  = Some (List.map
            (fun p => (MPN p, with_projects p (sorted_strs (Projects p))))
            parts) /\
  Forall (fun p => Permutation (Projects p) (sorted_strs (Projects p))) parts.
Proof.
  intros Hnd Hall; split.
  - unfold load_rows; now rewrite (load_rows_from parts Hall []).
  - apply Forall_forall; intros p _; apply sorted_strs_perm.
Qed.

Lemma load_reads_what_main_writes_witness :
  load_rows (List.map row_of_part [stored_r1; first_seen_part])
  = Some (List.map
            (fun p => (MPN p, with_projects p (sorted_strs (Projects p))))
            [stored_r1; first_seen_part]) /\
  Forall (fun p => Permutation (Projects p) (sorted_strs (Projects p)))
    [stored_r1; first_seen_part].
Proof.
  apply (load_reads_what_main_writes [stored_r1; first_seen_part]).
  - repeat constructor; simpl; intuition discriminate.
  - repeat constructor; simpl; try discriminate; try tauto;
      intros (a & b & E);
      repeat (destruct a as [|? a]; try discriminate).
Defined.
